(** * Calendar synchronisation core: a shallow embedding of the backend services

    The development follows the two service classes of the backend,
    [TokenService] (services/tokenService.ts) and [CalendarService]
    (services/calendarService.ts), together with the parts of the SQL
    migrations they depend on.

    Conventions of the embedding.
    - A JavaScript string is a [string] of 8-bit characters: the text is
      identified with its UTF-8 byte sequence, so that encoding a string as
      utf8 and decoding it again are both the identity.  The white space
      that [trim] and the [\s] class of regular expressions know is
      recognised by its UTF-8 bytes.
    - A [Date] is its time value in milliseconds ([Z]); where the code can be
      handed an invalid date the type is [JsDate].
    - Everything that is thrown is a [JsError]; a computation that may throw
      returns an [Outcome].
    - Upstream services (Google Calendar, Google OAuth), the random source
      and the clock are explicit inputs. *)

From Stdlib Require Import ZArith Ascii String List Lia Bool DecimalString.
From stdpp Require Import base option list strings gmap.

Local Open Scope string_scope.
Local Open Scope Z_scope.

(** ** Errors and outcomes *)

(** The [code] property of a thrown value: absent, a number (HTTP status) or
    a string (Node network error names). *)
Inductive ErrCode :=
| CodeNone
| CodeNum (n : Z)
| CodeStr (s : string).

(** The classes of middleware/errorHandler.ts that the services throw, and
    the plain [Error] objects coming from libraries. *)
Inductive ErrClass :=
| PlainError
| BadRequestError
| UnauthorizedError
| NotFoundError
| InternalServerError.

(** [err_message] is [Error.message]; for an [AppError] it is the title
    passed to [super], and the argument of the constructor is [err_detail].
    [err_retry_after] is [response.headers['retry-after']] read as an integer
    number of seconds, when the header is present and numeric. *)
Record JsError := mkError {
  err_class : ErrClass;
  err_code : ErrCode;
  err_message : string;
  err_detail : option string;
  err_retry_after : option Z
}.

Definition app_error (c : ErrClass) (title detail : string) : JsError :=
  mkError c CodeNone title (Some detail) None.

Definition bad_request (detail : string) : JsError :=
  app_error BadRequestError "Bad Request" detail.
Definition unauthorized (detail : string) : JsError :=
  app_error UnauthorizedError "Unauthorized" detail.
Definition not_found (detail : string) : JsError :=
  app_error NotFoundError "Not Found" detail.
Definition internal_error (detail : string) : JsError :=
  app_error InternalServerError "Internal Server Error" detail.
Definition plain_error (msg : string) : JsError :=
  mkError PlainError CodeNone msg None None.

Inductive Outcome (A : Type) :=
| Ok (a : A)
| Throw (e : JsError).
Arguments Ok {A} a.
Arguments Throw {A} e.

(** ** Strings *)

Fixpoint string_map (f : ascii -> ascii) (s : string) : string :=
  match s with
  | EmptyString => EmptyString
  | String c r => String (f c) (string_map f r)
  end.

Fixpoint string_forallb (p : ascii -> bool) (s : string) : bool :=
  match s with
  | EmptyString => true
  | String c r => p c && string_forallb p r
  end.

(** [strip_prefix p s] is [Some r] when [s = p ++ r]. *)
Fixpoint strip_prefix (p s : string) : option string :=
  match p, s with
  | EmptyString, _ => Some s
  | String a p', String b s' => if Ascii.eqb a b then strip_prefix p' s' else None
  | String _ _, EmptyString => None
  end.

(** [String.prototype.includes]. *)
Fixpoint includes (needle s : string) : bool :=
  match strip_prefix needle s with
  | Some _ => true
  | None => match s with
            | EmptyString => false
            | String _ r => includes needle r
            end
  end.

(** [String.prototype.split] with a one-character separator. *)
Fixpoint split_on (sep : ascii) (s : string) : list string :=
  match s with
  | EmptyString => [EmptyString]
  | String c r =>
      if Ascii.eqb c sep then EmptyString :: split_on sep r
      else match split_on sep r with
           | [] => [String c EmptyString]
           | p :: ps => String c p :: ps
           end
  end.

(** ** Credential vault ([TokenService.encrypt] / [TokenService.decrypt]) *)

Module Vault.

(** Node's [crypto.createCipher('aes-256-cbc', key)] and
    [crypto.createDecipher]: a password-keyed cipher over byte strings.
    Deciphering can fail (bad padding, truncated input); deciphering what
    was enciphered under the same key gives the plaintext back. *)
Class KeyedCipher := {
  cipher : string -> string -> string;
  decipher : string -> string -> option string;
  decipher_cipher : forall key x, decipher key (cipher key x) = Some x
}.

(** The hexadecimal digit of a value below sixteen, in lower case. *)
Definition hex_digit (n : N) : ascii :=
  (if n <? 10 then ascii_of_N (48 + n) else ascii_of_N (87 + n))%N.

(** The value of a hexadecimal digit, of either case. *)
Definition hex_value (c : ascii) : option N :=
  (let n := N_of_ascii c in
   if (48 <=? n) && (n <=? 57) then Some (n - 48)
   else if (97 <=? n) && (n <=? 102) then Some (n - 87)
   else if (65 <=? n) && (n <=? 70) then Some (n - 55)
   else None)%N.

Definition is_hex_digit (c : ascii) : bool :=
  match hex_value c with Some _ => true | None => false end.

(** [buf.toString('hex')] and the ['hex'] output encoding of a cipher. *)
Fixpoint hex_encode (bytes : string) : string :=
  match bytes with
  | EmptyString => EmptyString
  | String b r =>
      String (hex_digit (N_of_ascii b / 16))
        (String (hex_digit (N_of_ascii b mod 16)) (hex_encode r))
  end.

(** The ['hex'] input encoding: pairs of hex digits are decoded up to the
    first pair that is not one. *)
Fixpoint hex_decode (s : string) : string :=
  match s with
  | String h (String l r) =>
      match hex_value h, hex_value l with
      | Some a, Some b => String (ascii_of_N (16 * a + b)) (hex_decode r)
      | _, _ => EmptyString
      end
  | _ => EmptyString
  end.

Section WithCipher.
Context `{KeyedCipher}.

(** [ENCRYPTION_KEY], the SHA-256 digest of the deployment secret. *)
Variable ENCRYPTION_KEY : string.

(** [encrypt(text)]; [iv] is the value of [crypto.randomBytes(IV_LENGTH)]. *)
Definition encrypt (iv : string) (text : string) : string :=
  let encrypted := hex_encode (cipher ENCRYPTION_KEY text) in
  hex_encode iv +:+ ":" +:+ encrypted.

(** [decrypt(encryptedText)]: every failure inside the [try] is rethrown as
    [InternalServerError('Failed to decrypt token')]. *)
Definition decrypt (encryptedText : string) : Outcome string :=
  match split_on ":" encryptedText with
  | [ivHex; encrypted] =>
      match decipher ENCRYPTION_KEY (hex_decode encrypted) with
      | Some decrypted => Ok decrypted
      | None => Throw (internal_error "Failed to decrypt token")
      end
  | _ => Throw (internal_error "Failed to decrypt token")
  end.

End WithCipher.

(** A cipher to run the model on: byte-wise exclusive or with the first
    key byte. *)
Definition xor_ascii (a b : ascii) : ascii :=
  match a, b with
  | Ascii a0 a1 a2 a3 a4 a5 a6 a7, Ascii b0 b1 b2 b3 b4 b5 b6 b7 =>
      Ascii (xorb a0 b0) (xorb a1 b1) (xorb a2 b2) (xorb a3 b3)
            (xorb a4 b4) (xorb a5 b5) (xorb a6 b6) (xorb a7 b7)
  end.

Definition key_byte (key : string) : ascii :=
  match key with
  | EmptyString => zero
  | String k _ => k
  end.

Definition xor_cipher (key x : string) : string :=
  string_map (xor_ascii (key_byte key)) x.

End Vault.

(** ** The relational store

    The tables of migrations 001 (users), 002 (calendar_events) and 003
    (sync_state), with the columns the services read or write.  Each table
    has a module of its own, named after it, that holds the type of its
    rows. *)

Inductive EventStatus := confirmed | tentative | cancelled.
Inductive EventSource := google | manual | imported.

(** An attendee as the services pass it around ([EventAttendeeInput]); the
    input comes from a request body, so every property may be missing. *)
Record Attendee := mkAttendee {
  email : option string;
  displayName : option string;
  optional : option bool
}.

Module Users.
Record Row := mkRow {
  access_token : option string;
  refresh_token : option string;
  token_expires_at : option Z
}.
End Users.

Module SyncState.
Record Row := mkRow {
  next_sync_token : option string;
  last_sync_time : option Z;
  full_sync_completed : bool;
  sync_in_progress : bool;
  sync_error : option string;
  sync_error_count : option Z
}.
End SyncState.

Module CalendarEvents.
Record Row := mkRow {
  id : nat;
  user_id : string;
  google_event_id : option string;
  title : string;
  description : option string;
  start_date : Z;
  end_date : Z;
  location : option string;
  attendees : list Attendee;
  is_all_day : bool;
  timezone : string;
  status : EventStatus;
  source : EventSource;
  created_at : Z;
  updated_at : Z;
  last_modified : Z
}.
End CalendarEvents.

(** [CalendarServiceMetrics], without the rolling average response time and
    the instant of the last call. *)
Record Metrics := mkMetrics {
  apiCallsCount : nat;
  rateLimitHits : nat;
  quotaExceededCount : nat;
  networkErrors : nat;
  authErrors : nat
}.

(** The state the services act on.  [calendar_events] is the committed
    table; [tx_events] is the view of the one client connection that has an
    open transaction, if any.  [next_event_id] stands for the server-side
    [uuid_generate_v4()].  [api_calls] counts the requests sent to Google,
    [random_draws] the calls of [crypto.randomBytes], and [sleeps] records
    the delays waited for by the retry executor, the latest first. *)
Record World := mkWorld {
  users : gmap string Users.Row;
  sync_state : gmap string SyncState.Row;
  calendar_events : list CalendarEvents.Row;
  tx_events : option (list CalendarEvents.Row);
  next_event_id : nat;
  api_calls : nat;
  random_draws : nat;
  metrics : Metrics;
  sleeps : list Z
}.

Definition set_users (f : gmap string Users.Row -> gmap string Users.Row) (w : World) : World :=
  mkWorld (f (users w)) (sync_state w) (calendar_events w) (tx_events w)
    (next_event_id w) (api_calls w) (random_draws w) (metrics w) (sleeps w).

Definition set_sync_state
    (f : gmap string SyncState.Row -> gmap string SyncState.Row) (w : World) : World :=
  mkWorld (users w) (f (sync_state w)) (calendar_events w) (tx_events w)
    (next_event_id w) (api_calls w) (random_draws w) (metrics w) (sleeps w).

Definition set_calendar_events
    (f : list CalendarEvents.Row -> list CalendarEvents.Row) (w : World) : World :=
  mkWorld (users w) (sync_state w) (f (calendar_events w)) (tx_events w)
    (next_event_id w) (api_calls w) (random_draws w) (metrics w) (sleeps w).

Definition set_tx_events (t : option (list CalendarEvents.Row)) (w : World) : World :=
  mkWorld (users w) (sync_state w) (calendar_events w) t
    (next_event_id w) (api_calls w) (random_draws w) (metrics w) (sleeps w).

Definition set_next_event_id (n : nat) (w : World) : World :=
  mkWorld (users w) (sync_state w) (calendar_events w) (tx_events w)
    n (api_calls w) (random_draws w) (metrics w) (sleeps w).

Definition set_api_calls (n : nat) (w : World) : World :=
  mkWorld (users w) (sync_state w) (calendar_events w) (tx_events w)
    (next_event_id w) n (random_draws w) (metrics w) (sleeps w).

Definition set_random_draws (n : nat) (w : World) : World :=
  mkWorld (users w) (sync_state w) (calendar_events w) (tx_events w)
    (next_event_id w) (api_calls w) n (metrics w) (sleeps w).

Definition set_metrics (f : Metrics -> Metrics) (w : World) : World :=
  mkWorld (users w) (sync_state w) (calendar_events w) (tx_events w)
    (next_event_id w) (api_calls w) (random_draws w) (f (metrics w)) (sleeps w).

Definition push_sleep (ms : Z) (w : World) : World :=
  mkWorld (users w) (sync_state w) (calendar_events w) (tx_events w)
    (next_event_id w) (api_calls w) (random_draws w) (metrics w) (ms :: sleeps w).

(** ** Computations: state and exceptions

    An [async] method is a function from the state to an outcome and the
    state it leaves; what was written before a [throw] stays written. *)

Definition M (A : Type) : Type := World -> Outcome A * World.

Definition ret {A} (a : A) : M A := fun w => (Ok a, w).
Definition throw {A} (e : JsError) : M A := fun w => (Throw e, w).

Definition bind {A B} (m : M A) (k : A -> M B) : M B :=
  fun w => match m w with
           | (Ok a, w') => k a w'
           | (Throw e, w') => (Throw e, w')
           end.

(** [try { m } catch (e) { h e }]. *)
Definition try_catch {A} (m : M A) (h : JsError -> M A) : M A :=
  fun w => match m w with
           | (Ok a, w') => (Ok a, w')
           | (Throw e, w') => h e w'
           end.

Definition gets {A} (f : World -> A) : M A := fun w => (Ok (f w), w).
Definition modify (f : World -> World) : M unit := fun w => (Ok tt, f w).
Definition lift {A} (o : Outcome A) : M A := fun w => (o, w).

Declare Scope m_scope.
Delimit Scope m_scope with M.
Notation "x <- m ;; k" := (bind m (fun x => k))
  (at level 100, m at next level, right associativity) : m_scope.
Notation "m ;;; k" := (bind m (fun _ => k))
  (at level 100, right associativity) : m_scope.

(** ** The outside world

    Requests to Google are answered by an oracle that is given the number of
    requests issued before, so that a repeated request may be answered
    differently; a calendar request carries the access token of its client.
    [events_insert] answers with the [id] of the event it created. *)

Module Google.

(** What [oauth2Client.refreshAccessToken()] resolves to. *)
Record Credentials := mkCredentials {
  access_token : option string;
  refresh_token : option string;
  expiry_date : option Z;
  scope : option string
}.

(** The [start] and [end] of an upstream event.  A [date] is kept as the
    instant of its midnight, UTC, which is what [new Date] makes of it. *)
Record Time := mkTime {
  dateTime : option Z;
  date : option Z;
  timeZone : option string
}.

(** An item of [events.list], and the body of [events.insert]. *)
Record Event := mkEvent {
  id : option string;
  status : option string;
  updated : option Z;
  summary : option string;
  description : option string;
  location : option string;
  start : option Time;
  end_ : option Time;
  attendees : option (list Attendee)
}.

Record ListRequest := mkListRequest {
  syncToken : option string;
  pageToken : option string;
  timeMin : option Z;
  timeMax : option Z;
  maxResults : Z;
  singleEvents : bool;
  orderBy : option string
}.

Record ListResponse := mkListResponse {
  items : option (list Event);
  nextPageToken : option string;
  nextSyncToken : option string
}.

End Google.

Record Env := mkEnv {
  now : Z;
  randomBytes : nat -> string;
  refreshAccessToken : nat -> string -> Outcome Google.Credentials;
  events_list : nat -> string -> Google.ListRequest -> Outcome Google.ListResponse;
  events_insert : nat -> string -> Google.Event -> Outcome (option string)
}.

(** JavaScript truthiness of an optional string: [undefined], [null] and the
    empty string are falsy. *)
Definition truthy (o : option string) : option string :=
  match o with
  | Some EmptyString => None
  | _ => o
  end.

(** [a || b] on optional strings. *)
Definition or_else (a b : option string) : option string :=
  match truthy a with
  | Some s => Some s
  | None => b
  end.
(** ** Query parameters

    [db.query(text, values)] binds [values] to the placeholders [$1], [$2],
    ... of [text] by position. *)

Inductive SqlValue :=
| SqlNull
| SqlText (s : string)
| SqlTimestamp (t : Z).

Definition sql_text (o : option string) : SqlValue :=
  match o with Some s => SqlText s | None => SqlNull end.

Definition sql_timestamp (o : option Z) : SqlValue :=
  match o with Some t => SqlTimestamp t | None => SqlNull end.

(** The value of placeholder [$n]. *)
Definition placeholder (n : nat) (values : list SqlValue) : SqlValue :=
  nth (pred n) values SqlNull.

(** A statement whose placeholders are [$1] to [$n] takes exactly [n]
    values: the server refuses a bind that supplies more or fewer, and the
    statement does not run. *)
Definition bind_fits (n : nat) (values : list SqlValue) : bool :=
  Nat.eqb (length values) n.

(** What a TEXT column takes from a bound value.  The services never bind a
    date to a text column; the store would keep its text form. *)
Definition to_text_column (v : SqlValue) : option (option string) :=
  match v with
  | SqlNull => Some None
  | SqlText s => Some (Some s)
  | SqlTimestamp _ => None
  end.

(** What a TIMESTAMP WITH TIME ZONE column takes from a bound value.  The only
    text the services bind here is a wrapped token, [<hex>:<hex>], which is
    not a timestamp literal: the statement fails. *)
Definition to_timestamp_column (v : SqlValue) : option (option Z) :=
  match v with
  | SqlNull => Some None
  | SqlTimestamp t => Some (Some t)
  | SqlText _ => None
  end.

(** ** Token manager (services/tokenService.ts) *)

Module TokenService.

Record GoogleTokens := mkGoogleTokens {
  access_token : string;
  refresh_token : option string;
  expires_at : option Z;
  scope : option string
}.

(** The result of [getStoredTokens]: the unwrapped tokens of a user. *)
Record EncryptedTokens := mkEncryptedTokens {
  accessToken : string;
  refreshToken : option string;
  expiresAt : option Z
}.

Section WithEnv.
Context `{Vault.KeyedCipher}.
Variable ENCRYPTION_KEY : string.
Variable env : Env.

(** [this.encrypt(text)], drawing the IV from the random source. *)
Definition encrypt (text : string) : M string :=
  fun w =>
    let iv := randomBytes env (random_draws w) in
    (Ok (Vault.encrypt ENCRYPTION_KEY iv text),
     set_random_draws (S (random_draws w)) w).

Definition decrypt (encryptedText : string) : M string :=
  lift (Vault.decrypt ENCRYPTION_KEY encryptedText).

(** The statement of [storeTokens],
<<
    UPDATE users
    SET access_token = $1, refresh_token = $2, token_expires_at = $3,
        updated_at = CURRENT_TIMESTAMP
    WHERE id = $1
>>
    run with [values].  It has the three placeholders [$1] to [$3], and a
    statement that fails throws. *)
Definition update_user_tokens (values : list SqlValue) : M unit :=
  if bind_fits 3 values then
    match to_text_column (placeholder 1 values),
          to_text_column (placeholder 2 values),
          to_timestamp_column (placeholder 3 values) with
    | Some p1, Some p2, Some p3 =>
        match p1 with
        | Some key =>
            modify (set_users (fun t =>
              match t !! key with
              | Some _ => <[key := Users.mkRow p1 p2 p3]> t
              | None => t
              end))
        | None => ret tt
        end
    | _, _, _ => throw (plain_error "invalid input syntax")
    end
  else throw (plain_error "bind message supplies the wrong number of parameters").

(** [storeTokens(userId, tokens)]: the statement is run with the four values
    [[userId, encryptedAccessToken, encryptedRefreshToken, tokens.expires_at]]. *)
Definition storeTokens (userId : string) (tokens : GoogleTokens) : M unit :=
  try_catch
    (encryptedAccessToken <- encrypt (access_token tokens) ;;
     encryptedRefreshToken <-
       match truthy (refresh_token tokens) with
       | Some r => (e <- encrypt r ;; ret (Some e))
       | None => ret None
       end ;;
     update_user_tokens
       [SqlText userId; SqlText encryptedAccessToken;
        sql_text encryptedRefreshToken; sql_timestamp (expires_at tokens)])%M
    (fun _ => throw (internal_error "Failed to store authentication tokens")).

(** [getStoredTokens(userId)]: [None] is [null]. *)
Definition getStoredTokens (userId : string) : M (option EncryptedTokens) :=
  try_catch
    (rows <- gets (fun w => users w !! userId) ;;
     match rows with
     | None => ret None
     | Some row =>
         match truthy (Users.access_token row) with
         | None => ret None
         | Some a =>
             accessToken <- decrypt a ;;
             refreshToken <-
               match truthy (Users.refresh_token row) with
               | Some r => (d <- decrypt r ;; ret (Some d))
               | None => ret None
               end ;;
             ret (Some (mkEncryptedTokens accessToken refreshToken
                          (Users.token_expires_at row)))
         end
     end)%M
    (fun _ => throw (internal_error "Failed to retrieve authentication tokens")).

(** One request to the token endpoint. *)
Definition call_refreshAccessToken (refreshToken : string) : M Google.Credentials :=
  fun w => (refreshAccessToken env (api_calls w) refreshToken,
            set_api_calls (S (api_calls w)) w).

(** [credentials.expiry_date ? new Date(credentials.expiry_date) : undefined]. *)
Definition expiry_of (c : Google.Credentials) : option Z :=
  match Google.expiry_date c with
  | Some 0 => None
  | o => o
  end.

(** [refreshGoogleToken(userId)]. *)
Definition refreshGoogleToken (userId : string) : M GoogleTokens :=
  try_catch
    (storedTokens <- getStoredTokens userId ;;
     match storedTokens with
     | None => throw (unauthorized "No refresh token available")
     | Some stored =>
         match truthy (refreshToken stored) with
         | None => throw (unauthorized "No refresh token available")
         | Some storedRefresh =>
             credentials <- call_refreshAccessToken storedRefresh ;;
             match truthy (Google.access_token credentials) with
             | None => throw (unauthorized "Failed to refresh access token")
             | Some newAccess =>
                 let newTokens :=
                   mkGoogleTokens newAccess
                     (or_else (Google.refresh_token credentials) (Some storedRefresh))
                     (expiry_of credentials)
                     (Google.scope credentials) in
                 storeTokens userId newTokens ;;;
                 ret newTokens
             end
         end
     end)%M
    (fun error =>
       match err_class error with
       | UnauthorizedError => throw error
       | _ => throw (internal_error "Failed to refresh authentication tokens")
       end).

(** [const bufferTime = 5 * 60 * 1000]. *)
Definition bufferTime : Z := 5 * 60 * 1000.

(** [ensureValidToken(userId)]; the [catch] logs and rethrows. *)
Definition ensureValidToken (userId : string) : M string :=
  (storedTokens <- getStoredTokens userId ;;
   match storedTokens with
   | None => throw (unauthorized "No authentication tokens found")
   | Some stored =>
       match expiresAt stored with
       | Some expires =>
           if expires - now env <? bufferTime then
             (refreshedTokens <- refreshGoogleToken userId ;;
              ret (access_token refreshedTokens))
           else ret (accessToken stored)
       | None => ret (accessToken stored)
       end
   end)%M.

End WithEnv.

End TokenService.
(** ** Calendar service (services/calendarService.ts) *)

(** *** Retry executor *)

Record RetryConfig := mkRetryConfig {
  maxRetries : nat;
  baseDelay : Z;
  maxDelay : Z;
  backoffMultiplier : Z
}.

Definition DEFAULT_RETRY_CONFIG : RetryConfig :=
  mkRetryConfig 3 1000 30000 2.

Definition code_is_num (e : JsError) (n : Z) : bool :=
  match err_code e with
  | CodeNum m => m =? n
  | _ => false
  end.

Definition code_is_str (e : JsError) (s : string) : bool :=
  match err_code e with
  | CodeStr t => String.eqb t s
  | _ => false
  end.

Definition isRateLimitError (error : JsError) : bool :=
  code_is_num error 429
  || includes "rateLimitExceeded" (err_message error)
  || includes "userRateLimitExceeded" (err_message error).

Definition isQuotaExceededError (error : JsError) : bool :=
  code_is_num error 403
  && (includes "quotaExceeded" (err_message error)
      || includes "dailyLimitExceeded" (err_message error)).

Definition isAuthError (error : JsError) : bool :=
  code_is_num error 401
  || includes "invalid_grant" (err_message error)
  || includes "unauthorized" (err_message error).

Definition isNetworkError (error : JsError) : bool :=
  code_is_str error "ECONNRESET"
  || code_is_str error "ENOTFOUND"
  || code_is_str error "ETIMEDOUT"
  || includes "network" (err_message error)
  || includes "timeout" (err_message error).

(** [getRetryAfterDelay(error)], in milliseconds. *)
Definition getRetryAfterDelay (error : JsError) : option Z :=
  match err_retry_after error with
  | Some seconds => Some (seconds * 1000)
  | None => None
  end.

Definition calculateBackoffDelay (attempt : nat) (config : RetryConfig) : Z :=
  let delay := baseDelay config * backoffMultiplier config ^ Z.of_nat attempt in
  Z.min delay (maxDelay config).

(** [getRetryAfterDelay(error) || calculateBackoffDelay(attempt, retryConfig)]:
    a delay of zero is falsy. *)
Definition rate_limit_delay (error : JsError) (attempt : nat) (config : RetryConfig) : Z :=
  match getRetryAfterDelay error with
  | Some 0 | None => calculateBackoffDelay attempt config
  | Some d => d
  end.

Definition delay (ms : Z) : M unit := modify (push_sleep ms).

Definition count_api_call (m : Metrics) : Metrics :=
  mkMetrics (S (apiCallsCount m)) (rateLimitHits m) (quotaExceededCount m)
    (networkErrors m) (authErrors m).
Definition count_rate_limit (m : Metrics) : Metrics :=
  mkMetrics (apiCallsCount m) (S (rateLimitHits m)) (quotaExceededCount m)
    (networkErrors m) (authErrors m).
Definition count_quota (m : Metrics) : Metrics :=
  mkMetrics (apiCallsCount m) (rateLimitHits m) (S (quotaExceededCount m))
    (networkErrors m) (authErrors m).
Definition count_network (m : Metrics) : Metrics :=
  mkMetrics (apiCallsCount m) (rateLimitHits m) (quotaExceededCount m)
    (S (networkErrors m)) (authErrors m).
Definition count_auth (m : Metrics) : Metrics :=
  mkMetrics (apiCallsCount m) (rateLimitHits m) (quotaExceededCount m)
    (networkErrors m) (S (authErrors m)).

(** One run of [operation()]: a request to Google, answered by the oracle
    [op] at the current request number. *)
Definition attempt_operation {T} (op : nat -> Outcome T) : M (Outcome T) :=
  fun w => (Ok (op (api_calls w)), set_api_calls (S (api_calls w)) w).

(** The [for] loop of [executeWithRetry], with [remaining] iterations left
    before [attempt] exceeds [maxRetries]; falling out of the loop throws
    [lastError]. *)
Fixpoint retry_loop {T} (op : nat -> Outcome T) (retryConfig : RetryConfig)
    (remaining attempt : nat) (lastError : JsError) : M T :=
  match remaining with
  | O => throw lastError
  | S remaining' =>
      (r <- attempt_operation op ;;
       match r with
       | Ok result =>
           modify (set_metrics count_api_call) ;;;
           ret result
       | Throw error =>
           if isRateLimitError error then
             modify (set_metrics count_rate_limit) ;;;
             (if (attempt <? maxRetries retryConfig)%nat
              then delay (rate_limit_delay error attempt retryConfig)
              else ret tt) ;;;
             retry_loop op retryConfig remaining' (S attempt) error
           else if isQuotaExceededError error then
             modify (set_metrics count_quota) ;;;
             throw (internal_error "Google Calendar API quota exceeded")
           else if isAuthError error then
             modify (set_metrics count_auth) ;;;
             throw (unauthorized "Google Calendar authentication failed")
           else if isNetworkError error then
             modify (set_metrics count_network) ;;;
             (if (attempt <? maxRetries retryConfig)%nat
              then delay (calculateBackoffDelay attempt retryConfig)
              else ret tt) ;;;
             retry_loop op retryConfig remaining' (S attempt) error
           else throw error
       end)%M
  end.

(** [executeWithRetry(operation, retryConfig)]. *)
Definition executeWithRetry {T} (op : nat -> Outcome T)
    (retryConfig : RetryConfig) : M T :=
  retry_loop op retryConfig (S (maxRetries retryConfig)) 0
    (plain_error "Unknown error").

(** [getAuthenticatedCalendar(userId)]: the client is determined by the
    access token it carries. *)
Definition getAuthenticatedCalendar `{Vault.KeyedCipher}
    (ENCRYPTION_KEY : string) (env : Env) (userId : string) : M string :=
  try_catch
    (TokenService.ensureValidToken ENCRYPTION_KEY env userId)
    (fun _ => throw (unauthorized "Failed to authenticate with Google Calendar")).
(** *** Event input and its validation *)

(** A [Date] object; [None] is an invalid date, whose time value is [NaN]. *)
Definition JsDate := option Z.

(** [a >= b] on dates: a comparison with [NaN] is false. *)
Definition date_geb (a b : JsDate) : bool :=
  match a, b with
  | Some x, Some y => y <=? x
  | _, _ => false
  end.

(** [a > b] on dates. *)
Definition date_gtb (a b : JsDate) : bool :=
  match a, b with
  | Some x, Some y => y <? x
  | _, _ => false
  end.

(** [CalendarEventInput] as it arrives from a request body: a property that
    is absent is [None], and [status] is whatever text was sent. *)
Record CalendarEventInput := mkCalendarEventInput {
  title : option string;
  description : option string;
  startDate : option JsDate;
  endDate : option JsDate;
  location : option string;
  attendees : option (list Attendee);
  isAllDay : option bool;
  timezone : option string;
  status : option string
}.

(** White space of [String.prototype.trim] and of [\s]: the code points
    U+0009 to U+000D, U+0020, U+00A0, U+1680, U+2000 to U+200A, U+2028,
    U+2029, U+202F, U+205F, U+3000 and U+FEFF.  In UTF-8 the first six are
    one byte each, U+00A0 is two bytes and the others are three; the first
    byte of each is no byte of any other character, so white space is
    recognised by its bytes. *)

(** The white space of one byte. *)
Definition is_space (c : ascii) : bool :=
  match N_of_ascii c with
  | 9 | 10 | 11 | 12 | 13 | 32 => true
  | _ => false
  end%N.

(** The white space of two bytes: C2 A0 (U+00A0). *)
Definition is_space2 (c1 c2 : ascii) : bool :=
  ((N_of_ascii c1 =? 194) && (N_of_ascii c2 =? 160))%N.

(** The white space of three bytes: E1 9A 80 (U+1680); E2 80 80 to
    E2 80 8A (U+2000 to U+200A); E2 80 A8, E2 80 A9 and E2 80 AF (U+2028,
    U+2029 and U+202F); E2 81 9F (U+205F); E3 80 80 (U+3000); EF BB BF
    (U+FEFF). *)
Definition is_space3 (c1 c2 c3 : ascii) : bool :=
  let b1 := N_of_ascii c1 in
  let b2 := N_of_ascii c2 in
  let b3 := N_of_ascii c3 in
  ((b1 =? 225) && ((b2 =? 154) && (b3 =? 128))
   || (b1 =? 226) && ((b2 =? 128)
                      && ((128 <=? b3) && (b3 <=? 138)
                          || (b3 =? 168) || (b3 =? 169) || (b3 =? 175))
                      || (b2 =? 129) && (b3 =? 159))
   || (b1 =? 227) && ((b2 =? 128) && (b3 =? 128))
   || (b1 =? 239) && ((b2 =? 187) && (b3 =? 191)))%N.

(** What follows the first character of [s], when that is white space. *)
Definition skip_space (s : string) : option string :=
  match s with
  | EmptyString => None
  | String c1 r1 =>
      if is_space c1 then Some r1
      else match r1 with
           | EmptyString => None
           | String c2 r2 =>
               if is_space2 c1 c2 then Some r2
               else match r2 with
                    | EmptyString => None
                    | String c3 r3 =>
                        if is_space3 c1 c2 c3 then Some r3 else None
                    end
           end
  end.

Fixpoint trim_start (s : string) : string :=
  match s with
  | EmptyString => EmptyString
  | String c1 r1 =>
      if is_space c1 then trim_start r1
      else match r1 with
           | EmptyString => s
           | String c2 r2 =>
               if is_space2 c1 c2 then trim_start r2
               else match r2 with
                    | EmptyString => s
                    | String c3 r3 =>
                        if is_space3 c1 c2 c3 then trim_start r3 else s
                    end
           end
  end.

(** [s] is white space from its first character to its last. *)
Fixpoint blank (s : string) : bool :=
  match s with
  | EmptyString => true
  | String c1 r1 =>
      if is_space c1 then blank r1
      else match r1 with
           | EmptyString => false
           | String c2 r2 =>
               if is_space2 c1 c2 then blank r2
               else match r2 with
                    | EmptyString => false
                    | String c3 r3 =>
                        if is_space3 c1 c2 c3 then blank r3 else false
                    end
           end
  end.

(** The text without the white space it ends with: it is cut where what
    is left is white space only. *)
Fixpoint trim_end (s : string) : string :=
  match s with
  | EmptyString => EmptyString
  | String c r => if blank (String c r) then EmptyString else String c (trim_end r)
  end.

Definition trim (s : string) : string := trim_end (trim_start s).

Definition is_empty (s : string) : bool :=
  match s with EmptyString => true | _ => false end.

(** [s] begins with white space. *)
Definition space_ahead (s : string) : bool :=
  match skip_space s with Some _ => true | None => false end.

(** [s] is a run of characters of the class [[^\s@]]: no byte of it is
    ["@"] and no white space character begins in it. *)
Fixpoint email_chars (s : string) : bool :=
  match s with
  | EmptyString => true
  | String c r =>
      negb (space_ahead (String c r))
      && negb (Ascii.eqb c "@")
      && email_chars r
  end.

(** Some ["."] of [s] has a character after it. *)
Fixpoint dot_then_more (s : string) : bool :=
  match s with
  | EmptyString => false
  | String c r => (Ascii.eqb c "." && negb (is_empty r)) || dot_then_more r
  end.

(** [isValidEmail(email)]: the test of [/^[^\s@]+@[^\s@]+\.[^\s@]+$/].  The
    text must be [local@domain] with a single ["@"], no white space, a
    non-empty [local], and in [domain] a ["."] that is neither its first nor
    its last character. *)
Definition isValidEmail (email : string) : bool :=
  match split_on "@" email with
  | [local; domain] =>
      negb (is_empty local)
      && email_chars local
      && email_chars domain
      && match domain with
         | EmptyString => false
         | String _ r => dot_then_more r
         end
  | _ => false
  end.

(** The text [`${attendee.email}`]. *)
Definition template_string (o : option string) : string :=
  match o with Some s => s | None => "undefined" end.

(** The [for] loop over [eventData.attendees]. *)
Fixpoint validate_attendees (l : list Attendee) : Outcome unit :=
  match l with
  | [] => Ok tt
  | attendee :: rest =>
      match truthy (email attendee) with
      | Some e =>
          if isValidEmail e then validate_attendees rest
          else Throw (bad_request ("Invalid attendee email: " +:+ e))
      | None =>
          Throw (bad_request
                   ("Invalid attendee email: " +:+ template_string (email attendee)))
      end
  end.

(** [validateEventInput(eventData)]. *)
Definition validateEventInput (eventData : CalendarEventInput) : Outcome unit :=
  match truthy (title eventData) with
  | None => Throw (bad_request "Event title is required")
  | Some t =>
      if is_empty (trim t) then Throw (bad_request "Event title is required")
      else
        match startDate eventData, endDate eventData with
        | Some startDate, Some endDate =>
            if date_geb startDate endDate
            then Throw (bad_request "End date must be after start date")
            else match attendees eventData with
                 | Some l => validate_attendees l
                 | None => Ok tt
                 end
        | _, _ => Throw (bad_request "Start date and end date are required")
        end
  end.

Definition status_name (s : EventStatus) : string :=
  match s with
  | confirmed => "confirmed"
  | tentative => "tentative"
  | cancelled => "cancelled"
  end.

(** The cast of a text to the enumeration [event_status]. *)
Definition status_of_name (s : string) : option EventStatus :=
  if String.eqb s "confirmed" then Some confirmed
  else if String.eqb s "tentative" then Some tentative
  else if String.eqb s "cancelled" then Some cancelled
  else None.

Definition ms_per_day : Z := 24 * 60 * 60 * 1000.

(** [new Date(d.toISOString().split('T')[0])]: midnight, UTC, of the day. *)
Definition utc_day (t : Z) : Z := t - t mod ms_per_day.

(** [date.toISOString()] throws a [RangeError] on an invalid date, and a
    [TypeError] when there is no date at all. *)
Definition toISOString (d : option JsDate) : Outcome Z :=
  match d with
  | Some (Some t) => Ok t
  | Some None => Throw (plain_error "Invalid time value")
  | None => Throw (plain_error "Cannot read properties of undefined")
  end.

Definition bool_or_false (o : option bool) : bool :=
  match o with Some b => b | None => false end.

Definition string_or (o : option string) (d : string) : string :=
  match truthy o with Some s => s | None => d end.

Definition map_attendee (a : Attendee) : Attendee :=
  mkAttendee (email a) (displayName a) (Some (bool_or_false (optional a))).

(** [mapInputToGoogleEvent(eventData)]. *)
Definition mapInputToGoogleEvent (eventData : CalendarEventInput)
    : Outcome Google.Event :=
  let allDay := bool_or_false (isAllDay eventData) in
  let side (d : option JsDate) : Outcome Google.Time :=
    match toISOString d with
    | Ok t =>
        Ok (if allDay
            then Google.mkTime None (Some (utc_day t)) None
            else Google.mkTime (Some t) None
                   (Some (string_or (timezone eventData) "UTC")))
    | Throw e => Throw e
    end in
  match side (startDate eventData) with
  | Throw e => Throw e
  | Ok start =>
      match side (endDate eventData) with
      | Throw e => Throw e
      | Ok end_ =>
          Ok (Google.mkEvent
                (Some "")
                (Some (string_or (status eventData) "confirmed"))
                None
                (title eventData)
                (description eventData)
                (location eventData)
                (Some start)
                (Some end_)
                (option_map (map map_attendee) (attendees eventData)))
      end
  end.

(** *** The calendar_events table *)

(** [CONSTRAINT valid_date_range CHECK (end_date >= start_date)]. *)
Definition valid_date_range (r : CalendarEvents.Row) : bool :=
  CalendarEvents.start_date r <=? CalendarEvents.end_date r.

Definition same_google_event (userId : string) (googleEventId : string)
    (r : CalendarEvents.Row) : bool :=
  String.eqb (CalendarEvents.user_id r) userId
  && match CalendarEvents.google_event_id r with
     | Some g => String.eqb g googleEventId
     | None => false
     end.

(** [CONSTRAINT valid_google_event_id UNIQUE (user_id, google_event_id)]:
    may [r] be added to [table]? *)
Definition unique_google_event_id (table : list CalendarEvents.Row)
    (r : CalendarEvents.Row) : bool :=
  match CalendarEvents.google_event_id r with
  | Some g => negb (existsb (same_google_event (CalendarEvents.user_id r) g) table)
  | None => true
  end.

(** The parameters of the INSERT statements of [createEvent] and
    [createEventFromGoogle]; the columns [id], [created_at], [updated_at]
    and [last_modified] take their defaults, and [source] is ['google']. *)
Record InsertValues := mkInsertValues {
  ins_user_id : string;
  ins_google_event_id : option string;
  ins_title : option string;
  ins_description : option string;
  ins_start_date : option JsDate;
  ins_end_date : option JsDate;
  ins_location : option string;
  ins_attendees : list Attendee;
  ins_is_all_day : bool;
  ins_timezone : string;
  ins_status : string
}.

(** The row an INSERT makes, if its values fit the columns: [title],
    [start_date] and [end_date] are NOT NULL, an invalid date is no
    timestamp, and [status] is an enumeration. *)
Definition row_of_values (now : Z) (newId : nat) (v : InsertValues)
    : option CalendarEvents.Row :=
  match ins_title v, ins_start_date v, ins_end_date v,
        status_of_name (ins_status v) with
  | Some t, Some (Some s), Some (Some e), Some st =>
      Some (CalendarEvents.mkRow newId (ins_user_id v) (ins_google_event_id v)
              t (ins_description v) s e (ins_location v) (ins_attendees v)
              (ins_is_all_day v) (ins_timezone v) st google now now now)
  | _, _, _, _ => None
  end.

(** The INSERT against [table]: the new row, or the failure of the
    statement. *)
Definition insert_into (table : list CalendarEvents.Row) (now : Z) (newId : nat)
    (v : InsertValues) : Outcome CalendarEvents.Row :=
  match row_of_values now newId v with
  | Some r =>
      if valid_date_range r && unique_google_event_id table r then Ok r
      else Throw (plain_error "violates constraint")
  | None => Throw (plain_error "invalid input value")
  end.
(** *** Transactions of a client connection *)

(** [client.query('BEGIN')]. *)
Definition client_begin : M unit :=
  modify (fun w => set_tx_events (Some (calendar_events w)) w).

(** [client.query('COMMIT')]. *)
Definition client_commit : M unit :=
  modify (fun w =>
    match tx_events w with
    | Some view => set_tx_events None (set_calendar_events (fun _ => view) w)
    | None => w
    end).

(** [client.query('ROLLBACK')]. *)
Definition client_rollback : M unit := modify (set_tx_events None).

(** An INSERT ... RETURNING * on the client connection. *)
Definition client_insert (now : Z) (v : InsertValues) : M CalendarEvents.Row :=
  fun w =>
    let view := match tx_events w with
                | Some view => view
                | None => calendar_events w
                end in
    match insert_into view now (next_event_id w) v with
    | Ok r =>
        (Ok r, set_next_event_id (S (next_event_id w))
                 (match tx_events w with
                  | Some _ => set_tx_events (Some (view ++ [r])%list) w
                  | None => set_calendar_events (fun _ => (view ++ [r])%list) w
                  end))
    | Throw e => (Throw e, w)
    end.

(** An INSERT through the pool ([db.query]), committed at once. *)
Definition db_insert (now : Z) (v : InsertValues) : M CalendarEvents.Row :=
  fun w =>
    match insert_into (calendar_events w) now (next_event_id w) v with
    | Ok r =>
        (Ok r, set_next_event_id (S (next_event_id w))
                 (set_calendar_events (fun t => (t ++ [r])%list) w))
    | Throw e => (Throw e, w)
    end.

Section EventOperations.
Context `{Vault.KeyedCipher}.
Variable ENCRYPTION_KEY : string.
Variable env : Env.

(** [mapDatabaseEventToResponse] copies the row, column by column. *)
Definition mapDatabaseEventToResponse (dbEvent : CalendarEvents.Row)
    : CalendarEvents.Row := dbEvent.

(** [createEvent(userId, eventData)]. *)
Definition createEvent (userId : string) (eventData : CalendarEventInput)
    : M CalendarEvents.Row :=
  (client_begin ;;;
   try_catch
     (lift (validateEventInput eventData) ;;;
      calendar <- getAuthenticatedCalendar ENCRYPTION_KEY env userId ;;
      googleEvent <- lift (mapInputToGoogleEvent eventData) ;;
      googleResponse <-
        executeWithRetry (fun k => events_insert env k calendar googleEvent)
          DEFAULT_RETRY_CONFIG ;;
      match truthy googleResponse with
      | None => throw (internal_error "Failed to create event in Google Calendar")
      | Some googleId =>
          row <- client_insert (now env)
                   (mkInsertValues userId (Some googleId)
                      (title eventData) (description eventData)
                      (startDate eventData) (endDate eventData)
                      (location eventData)
                      (match attendees eventData with Some l => l | None => [] end)
                      (bool_or_false (isAllDay eventData))
                      (string_or (timezone eventData) "UTC")
                      (string_or (status eventData) "confirmed")) ;;
          client_commit ;;;
          ret (mapDatabaseEventToResponse row)
      end)
     (fun error => client_rollback ;;; throw error))%M.

End EventOperations.

(** *** Listing events *)

(** A JavaScript number that may be [NaN]. *)
Inductive JsNumber :=
| Num (z : Z)
| NaN.

(** [a < b]: a comparison with [NaN] is false. *)
Definition js_ltb (a b : JsNumber) : bool :=
  match a, b with
  | Num x, Num y => x <? y
  | _, _ => false
  end.

Inductive SourceFilter :=
| only_source (s : EventSource)
| all_sources.

(** [EventsQueryParams]; a date is given by the instant its text denotes. *)
Record EventsQueryParams := mkEventsQueryParams {
  page : option Z;
  limit : option Z;
  q_startDate : option Z;
  q_endDate : option Z;
  q_status : option EventStatus;
  search : option string;
  q_source : option SourceFilter
}.

Record Pagination := mkPagination {
  pg_page : Z;
  pg_limit : Z;
  total : JsNumber;
  hasNext : bool;
  hasPrev : bool
}.

Record EventsResponse := mkEventsResponse {
  events : list CalendarEvents.Row;
  pagination : Pagination
}.

Definition status_eqb (a b : EventStatus) : bool :=
  match a, b with
  | confirmed, confirmed | tentative, tentative | cancelled, cancelled => true
  | _, _ => false
  end.

Definition source_eqb (a b : EventSource) : bool :=
  match a, b with
  | google, google | manual, manual | imported, imported => true
  | _, _ => false
  end.

Definition to_lower (c : ascii) : ascii :=
  let n := N_of_ascii c in
  if ((65 <=? n) && (n <=? 90))%N then ascii_of_N (n + 32) else c.

(** [text ILIKE pattern]: ["%"] stands for any text, ["_"] for any character,
    a backslash quotes the character after it, and letters match whatever
    their case. *)
Fixpoint ilike (pattern : string) : string -> bool :=
  match pattern with
  | EmptyString => is_empty
  | String "%" p =>
      fix any_text (text : string) : bool :=
        ilike p text
        || match text with
           | EmptyString => false
           | String _ r => any_text r
           end
  | String "_" p =>
      fun text => match text with
                  | EmptyString => false
                  | String _ r => ilike p r
                  end
  | String "\" (String c p) =>
      fun text => match text with
                  | EmptyString => false
                  | String d r => Ascii.eqb (to_lower c) (to_lower d) && ilike p r
                  end
  | String c p =>
      fun text => match text with
                  | EmptyString => false
                  | String d r => Ascii.eqb (to_lower c) (to_lower d) && ilike p r
                  end
  end.

(** The WHERE clause that [getEvents] builds from [params]. *)
Definition event_matches (userId : string) (params : EventsQueryParams)
    (r : CalendarEvents.Row) : bool :=
  String.eqb (CalendarEvents.user_id r) userId
  && match q_startDate params with
     | Some d => d <=? CalendarEvents.start_date r
     | None => true
     end
  && match q_endDate params with
     | Some d => CalendarEvents.end_date r <=? d
     | None => true
     end
  && match q_status params with
     | Some s => status_eqb (CalendarEvents.status r) s
     | None => true
     end
  && match q_source params with
     | Some (only_source s) => source_eqb (CalendarEvents.source r) s
     | _ => true
     end
  && match truthy (search params) with
     | Some s =>
         let pattern := "%" +:+ s +:+ "%" in
         ilike pattern (CalendarEvents.title r)
         || match CalendarEvents.description r with
            | Some d => ilike pattern d
            | None => false
            end
     | None => true
     end.

Fixpoint insert_by_start (r : CalendarEvents.Row) (l : list CalendarEvents.Row)
    : list CalendarEvents.Row :=
  match l with
  | [] => [r]
  | x :: t =>
      if CalendarEvents.start_date r <=? CalendarEvents.start_date x
      then r :: l
      else x :: insert_by_start r t
  end.

(** [ORDER BY start_date ASC]; rows that start together keep the order of
    the table. *)
Definition order_by_start_date (l : list CalendarEvents.Row)
    : list CalendarEvents.Row :=
  fold_right insert_by_start [] l.
(** *** The text of the queries of [getEvents]

    [getEvents] derives its counting query from the text of its listing
    query with two regular-expression replacements, so the text is part of
    the model.  The store reads a query by its text: what it projects and
    whether it orders and limits; the WHERE clause is [event_matches]. *)

Definition newline : string := String (ascii_of_N 10) EmptyString.

Definition is_line_terminator (c : ascii) : bool :=
  match N_of_ascii c with
  | 10 | 13 => true
  | _ => false
  end%N.

(** The template literal that opens the listing query. *)
Definition events_query_head : string :=
  newline
  +:+ "        SELECT " +:+ newline
  +:+ "          id, google_event_id, title, description, start_date, end_date," +:+ newline
  +:+ "          location, attendees, is_all_day, timezone, status, source," +:+ newline
  +:+ "          created_at, updated_at, last_modified" +:+ newline
  +:+ "        FROM calendar_events " +:+ newline
  +:+ "        WHERE user_id = $1" +:+ newline
  +:+ "      ".

(** The text [`$${paramIndex}`]. *)
Definition dollar (paramIndex : nat) : string :=
  "$" +:+ NilEmpty.string_of_uint (Nat.to_uint paramIndex).

(** One [if (filter) { query += ...; paramIndex++ }] step: the text added
    for a filter that is present. *)
Definition add_filter (present : bool) (clause : nat -> string)
    (acc : string * nat) : string * nat :=
  if present then (fst acc +:+ clause (snd acc), S (snd acc)) else acc.

Definition is_some {A} (o : option A) : bool :=
  match o with Some _ => true | None => false end.

(** The listing query as [getEvents] builds it, and the index of its next
    placeholder. *)
Definition events_query_filtered (params : EventsQueryParams) : string * nat :=
  let q0 := (events_query_head, 2%nat) in
  let q1 := add_filter (is_some (q_startDate params))
              (fun i => " AND start_date >= " +:+ dollar i) q0 in
  let q2 := add_filter (is_some (q_endDate params))
              (fun i => " AND end_date <= " +:+ dollar i) q1 in
  let q3 := add_filter (is_some (q_status params))
              (fun i => " AND status = " +:+ dollar i) q2 in
  let q4 := add_filter
              (match q_source params with Some (only_source _) => true | _ => false end)
              (fun i => " AND source = " +:+ dollar i) q3 in
  add_filter (is_some (truthy (search params)))
    (fun i => " AND (title ILIKE " +:+ dollar i
              +:+ " OR description ILIKE " +:+ dollar i +:+ ")") q4.

Definition events_query (params : EventsQueryParams) : string :=
  let (query, paramIndex) := events_query_filtered params in
  query +:+ " ORDER BY start_date ASC LIMIT " +:+ dollar paramIndex
        +:+ " OFFSET " +:+ dollar (S paramIndex).

(** The rest of the line after the last [needle] on the first line of [s]:
    how a greedy [.*] followed by [needle] matches, [.] being any character
    but a line terminator. *)
Fixpoint after_last_on_line (needle s : string) : option string :=
  match s with
  | EmptyString => strip_prefix needle s
  | String c r =>
      if is_line_terminator c then strip_prefix needle s
      else match after_last_on_line needle r with
           | Some t => Some t
           | None => strip_prefix needle s
           end
  end.

(** The rest of the line after the first [needle] on the first line of [s]. *)
Fixpoint after_first_on_line (needle s : string) : option string :=
  match strip_prefix needle s with
  | Some t => Some t
  | None =>
      match s with
      | EmptyString => None
      | String c r =>
          if is_line_terminator c then None else after_first_on_line needle r
      end
  end.

(** What is left of [s] from its first line terminator on. *)
Fixpoint from_line_end (s : string) : string :=
  match s with
  | EmptyString => EmptyString
  | String c r => if is_line_terminator c then s else from_line_end r
  end.

(** [query.replace(/SELECT .* FROM/, ...)], the replacement being the
    counting projection: the leftmost match is replaced, and the text is
    unchanged when there is none. *)
Fixpoint replace_select_from (s : string) : string :=
  match s with
  | EmptyString => EmptyString
  | String c r =>
      match match strip_prefix "SELECT " s with
            | Some rest => after_last_on_line " FROM" rest
            | None => None
            end with
      | Some tail => "SELECT COUNT(*) FROM" +:+ tail
      | None => String c (replace_select_from r)
      end
  end.

(** Does [/ORDER BY .* LIMIT .* OFFSET .*/] match at the start of [s]?  If
    so, what follows the match. *)
Definition match_order_by (s : string) : option string :=
  match strip_prefix "ORDER BY " s with
  | Some rest =>
      match after_first_on_line " LIMIT " rest with
      | Some rest' =>
          match after_first_on_line " OFFSET " rest' with
          | Some rest'' => Some (from_line_end rest'')
          | None => None
          end
      | None => None
      end
  | None => None
  end.

(** [.replace(/ORDER BY .* LIMIT .* OFFSET .*/, '')]. *)
Fixpoint remove_order_by (s : string) : string :=
  match s with
  | EmptyString => EmptyString
  | String c r =>
      match match_order_by s with
      | Some tail => tail
      | None => String c (remove_order_by r)
      end
  end.

(** [countQuery]. *)
Definition count_query (params : EventsQueryParams) : string :=
  remove_order_by (replace_select_from (events_query params)).

(** A row of a result: of the columns of an event, or of [COUNT( * )]. *)
Inductive ResultRow :=
| EventResult (r : CalendarEvents.Row)
| CountResult (count : Z).

(** The store runs a query over calendar_events: [matching] are the rows
    its WHERE clause keeps, in table order, and [tail] are the values bound
    after those of the filters.  A query that names LIMIT and OFFSET needs
    both values, neither negative.  The values bound for the filters are
    taken to be of the types of their columns, the user id a UUID as the
    store issues it; the store refuses a statement bound to others, which
    is a failure that this function does not have. *)
Definition run_events_query (text : string) (matching : list CalendarEvents.Row)
    (tail : list Z) : Outcome (list ResultRow) :=
  let ordered := if includes "ORDER BY start_date ASC" text
                 then order_by_start_date matching else matching in
  let project (rows : list CalendarEvents.Row) : list ResultRow :=
    if includes "SELECT COUNT(*) FROM" text
    then [CountResult (Z.of_nat (length rows))]
    else map EventResult rows in
  if includes " LIMIT " text then
    match tail with
    | [lim; off] =>
        if (lim <? 0) || (off <? 0)
        then Throw (plain_error "LIMIT and OFFSET must not be negative")
        else Ok (project (firstn (Z.to_nat lim) (skipn (Z.to_nat off) ordered)))
    | _ => Throw (plain_error "there is no parameter")
    end
  else Ok (project ordered).

(** [parseInt(row.count, 10)]: an event row has no [count]. *)
Definition parse_count (r : ResultRow) : JsNumber :=
  match r with
  | CountResult n => Num n
  | EventResult _ => NaN
  end.

Definition event_rows (rows : list ResultRow) : list CalendarEvents.Row :=
  flat_map (fun r => match r with EventResult e => [e] | CountResult _ => [] end) rows.

(** [getEvents(userId, params)]. *)
Definition getEvents (userId : string) (params : EventsQueryParams)
    : M EventsResponse :=
  fun w =>
    let page := match page params with Some p => p | None => 1 end in
    let limit := match limit params with Some l => l | None => 50 end in
    let offset := (page - 1) * limit in
    let matching := List.filter (event_matches userId params) (calendar_events w) in
    match run_events_query (events_query params) matching [limit; offset],
          run_events_query (count_query params) matching [] with
    | Ok eventsResult, Ok countResult =>
        let total := match countResult with
                     | r :: _ => parse_count r
                     | [] => Num 0
                     end in
        (Ok (mkEventsResponse
               (map mapDatabaseEventToResponse (event_rows eventsResult))
               (mkPagination page limit total
                  (js_ltb (Num (offset + limit)) total)
                  (1 <? page))), w)
    | _, _ => (Throw (internal_error "Failed to retrieve events"), w)
    end.
(** *** Synchronisation with Google Calendar *)

Record SyncOptions := mkSyncOptions {
  fullSync : option bool;
  opt_maxResults : option Z;
  opt_timeMin : option Z;
  opt_timeMax : option Z
}.

Inductive CalendarErrorType :=
| RATE_LIMIT | QUOTA_EXCEEDED | AUTH_ERROR | NETWORK_ERROR
| VALIDATION_ERROR | SYNC_ERROR | NOT_FOUND | CONFLICT.

Record CalendarError := mkCalendarError {
  ce_type : CalendarErrorType;
  ce_message : string
}.

Record CalendarSyncResult := mkCalendarSyncResult {
  success : bool;
  eventsProcessed : Z;
  eventsCreated : Z;
  eventsUpdated : Z;
  eventsDeleted : Z;
  res_nextSyncToken : option string;
  errors : list CalendarError
}.

Definition count_processed (r : CalendarSyncResult) : CalendarSyncResult :=
  mkCalendarSyncResult (success r) (eventsProcessed r + 1) (eventsCreated r)
    (eventsUpdated r) (eventsDeleted r) (res_nextSyncToken r) (errors r).
Definition count_created (r : CalendarSyncResult) : CalendarSyncResult :=
  mkCalendarSyncResult (success r) (eventsProcessed r) (eventsCreated r + 1)
    (eventsUpdated r) (eventsDeleted r) (res_nextSyncToken r) (errors r).
Definition count_updated (r : CalendarSyncResult) : CalendarSyncResult :=
  mkCalendarSyncResult (success r) (eventsProcessed r) (eventsCreated r)
    (eventsUpdated r + 1) (eventsDeleted r) (res_nextSyncToken r) (errors r).
Definition count_deleted (r : CalendarSyncResult) : CalendarSyncResult :=
  mkCalendarSyncResult (success r) (eventsProcessed r) (eventsCreated r)
    (eventsUpdated r) (eventsDeleted r + 1) (res_nextSyncToken r) (errors r).
Definition set_nextSyncToken (t : option string) (r : CalendarSyncResult)
    : CalendarSyncResult :=
  mkCalendarSyncResult (success r) (eventsProcessed r) (eventsCreated r)
    (eventsUpdated r) (eventsDeleted r) t (errors r).
Definition push_error (e : CalendarError) (r : CalendarSyncResult)
    : CalendarSyncResult :=
  mkCalendarSyncResult (success r) (eventsProcessed r) (eventsCreated r)
    (eventsUpdated r) (eventsDeleted r) (res_nextSyncToken r)
    (errors r ++ [e])%list.
Definition set_failed (r : CalendarSyncResult) : CalendarSyncResult :=
  mkCalendarSyncResult false (eventsProcessed r) (eventsCreated r)
    (eventsUpdated r) (eventsDeleted r) (res_nextSyncToken r) (errors r).

(** The result object both kinds of sync start from. *)
Definition fresh_result : CalendarSyncResult :=
  mkCalendarSyncResult true 0 0 0 0 None [].

(** [a || b] on optional instants. *)
Definition first_time (a b : option Z) : option Z :=
  match a with Some _ => a | None => b end.

(** [mapGoogleEventToInput(googleEvent)]: reading a property of a missing
    [start] or [end] throws a [TypeError]. *)
Definition mapGoogleEventToInput (googleEvent : Google.Event)
    : Outcome CalendarEventInput :=
  match Google.start googleEvent with
  | None => Throw (plain_error "Cannot read properties of undefined")
  | Some start =>
      let allDay := is_some (Google.date start) in
      match Google.end_ googleEvent with
      | None => Throw (plain_error "Cannot read properties of undefined")
      | Some end_ =>
          Ok (mkCalendarEventInput
                (Some (string_or (Google.summary googleEvent) "Untitled Event"))
                (Google.description googleEvent)
                (Some (first_time (Google.dateTime start) (Google.date start)))
                (Some (first_time (Google.dateTime end_) (Google.date end_)))
                (Google.location googleEvent)
                (Some (match Google.attendees googleEvent with
                       | Some l => map map_attendee l
                       | None => []
                       end))
                (Some allDay)
                (Some (string_or (Google.timeZone start) "UTC"))
                (Some (string_or (Google.status googleEvent) "confirmed")))
      end
  end.

(** The values both [createEventFromGoogle] and [updateEventFromGoogle]
    bind from [eventData]. *)
Definition values_of_input (userId : string) (googleEventId : option string)
    (eventData : CalendarEventInput) : InsertValues :=
  mkInsertValues userId googleEventId
    (title eventData) (description eventData)
    (startDate eventData) (endDate eventData) (location eventData)
    (match attendees eventData with Some l => l | None => [] end)
    (bool_or_false (isAllDay eventData))
    (template_string (timezone eventData))
    (template_string (status eventData)).

(** [createEventFromGoogle(userId, googleEvent)]. *)
Definition createEventFromGoogle (now : Z) (userId : string)
    (googleEvent : Google.Event) : M unit :=
  (eventData <- lift (mapGoogleEventToInput googleEvent) ;;
   db_insert now (values_of_input userId (Google.id googleEvent) eventData) ;;;
   ret tt)%M.

(** The UPDATE of [updateEventFromGoogle] on one row: every mutable column is
    replaced, and the row must still fit its columns and its check. *)
Definition update_row (now : Z) (v : InsertValues) (old : CalendarEvents.Row)
    : option CalendarEvents.Row :=
  match row_of_values now (CalendarEvents.id old) v with
  | Some r =>
      let r' := CalendarEvents.mkRow
                  (CalendarEvents.id old) (CalendarEvents.user_id old)
                  (CalendarEvents.google_event_id old)
                  (CalendarEvents.title r) (CalendarEvents.description r)
                  (CalendarEvents.start_date r) (CalendarEvents.end_date r)
                  (CalendarEvents.location r) (CalendarEvents.attendees r)
                  (CalendarEvents.is_all_day r) (CalendarEvents.timezone r)
                  (CalendarEvents.status r) (CalendarEvents.source old)
                  (CalendarEvents.created_at old) now now in
      if valid_date_range r' then Some r' else None
  | None => None
  end.

Definition row_is (eventId : nat) (userId : string) (r : CalendarEvents.Row) : bool :=
  Nat.eqb (CalendarEvents.id r) eventId
  && String.eqb (CalendarEvents.user_id r) userId.

(** The UPDATE over a table: [None] when the statement fails on a row. *)
Fixpoint update_rows (now : Z) (v : InsertValues) (eventId : nat) (userId : string)
    (table : list CalendarEvents.Row) : option (list CalendarEvents.Row) :=
  match table with
  | [] => Some []
  | r :: rest =>
      match update_rows now v eventId userId rest with
      | Some rest' =>
          if row_is eventId userId r then
            match update_row now v r with
            | Some r' => Some (r' :: rest')
            | None => None
            end
          else Some (r :: rest')
      | None => None
      end
  end.

(** [updateEventFromGoogle(userId, eventId, googleEvent)]. *)
Definition updateEventFromGoogle (now : Z) (userId : string) (eventId : nat)
    (googleEvent : Google.Event) : M unit :=
  (eventData <- lift (mapGoogleEventToInput googleEvent) ;;
   fun w =>
     match update_rows now (values_of_input userId None eventData)
             eventId userId (calendar_events w) with
     | Some table => (Ok tt, set_calendar_events (fun _ => table) w)
     | None => (Throw (plain_error "invalid input value"), w)
     end)%M.

(** [handleDeletedEvent(userId, googleEventId)]. *)
Definition handleDeletedEvent (userId googleEventId : string) : M unit :=
  modify (set_calendar_events
            (List.filter (fun r => negb (same_google_event userId googleEventId r)))).

(** [processGoogleEvent(userId, googleEvent, result)]: the counters of
    [result] are bumped only after the statement they count has run, so a
    throw leaves [result] as it was. *)
Definition processGoogleEvent (now : Z) (userId : string)
    (googleEvent : Google.Event) (result : CalendarSyncResult)
    : M CalendarSyncResult :=
  match truthy (Google.id googleEvent) with
  | None => ret result
  | Some googleId =>
      if match Google.status googleEvent with
         | Some s => String.eqb s "cancelled"
         | None => false
         end
      then (handleDeletedEvent userId googleId ;;;
            ret (count_deleted result))%M
      else
        (existingEvent <-
           gets (fun w => List.find (same_google_event userId googleId)
                            (calendar_events w)) ;;
         let googleUpdated : JsDate := Google.updated googleEvent in
         match existingEvent with
         | None =>
             createEventFromGoogle now userId googleEvent ;;;
             ret (count_created result)
         | Some row =>
             let localUpdated : JsDate := Some (CalendarEvents.last_modified row) in
             if date_gtb googleUpdated localUpdated then
               updateEventFromGoogle now userId (CalendarEvents.id row) googleEvent ;;;
               ret (count_updated result)
             else ret result
         end)%M
  end.

(** The [for] loop over [response.data.items], with its [try]/[catch] around
    each item. *)
Fixpoint process_items (now : Z) (userId : string) (items : list Google.Event)
    (result : CalendarSyncResult) (w : World) : CalendarSyncResult * World :=
  match items with
  | [] => (result, w)
  | googleEvent :: rest =>
      match processGoogleEvent now userId googleEvent result w with
      | (Ok result', w') =>
          process_items now userId rest (count_processed result') w'
      | (Throw error, w') =>
          process_items now userId rest
            (push_error
               (mkCalendarError SYNC_ERROR
                  ("Failed to process event "
                   +:+ template_string (Google.id googleEvent)
                   +:+ ": " +:+ err_message error))
               result) w'
      end
  end.
(** *** Sync state *)

(** What [getSyncState] resolves to when the user has no row. *)
Definition default_sync_state : SyncState.Row :=
  SyncState.mkRow None None false false None None.

(** [getSyncState(userId)]. *)
Definition getSyncState (userId : string) (w : World) : SyncState.Row :=
  match sync_state w !! userId with
  | Some row => row
  | None => default_sync_state
  end.

(** The upsert of [updateSyncState] on the row of the user, [old] being the
    row in conflict, if there is one.  The values are
    [[userId, nextSyncToken, new Date(), success, error, error ? 1 : 0]];
    [sync_in_progress] is not among the columns named, so a new row takes
    its default and a row in conflict keeps what it has. *)
Definition upsert_sync_state (now : Z) (nextSyncToken : option string)
    (success : bool) (error : option string) (old : option SyncState.Row)
    : SyncState.Row :=
  match old with
  | None =>
      SyncState.mkRow nextSyncToken (Some now) success false error
        (Some (if is_some (truthy error) then 1 else 0))
  | Some row =>
      SyncState.mkRow
        nextSyncToken
        (if success then Some now else SyncState.last_sync_time row)
        (if success then true else SyncState.full_sync_completed row)
        (SyncState.sync_in_progress row)
        error
        (Some (if success then 0
               else match SyncState.sync_error_count row with
                    | Some n => n
                    | None => 0
                    end + 1))
  end.

(** [updateSyncState(userId, nextSyncToken, success, error)]. *)
Definition updateSyncState (now : Z) (userId : string)
    (nextSyncToken : option string) (success : bool) (error : option string)
    : M unit :=
  modify (set_sync_state (fun t =>
    <[userId := upsert_sync_state now nextSyncToken success error (t !! userId)]> t)).

(** The function [start_sync_for_user(p_user_id)] of migration 003: it
    returns FOUND, which is true when a row was inserted or updated. *)
Definition start_sync_for_user (p_user_id : string) (w : World) : bool * World :=
  match sync_state w !! p_user_id with
  | None =>
      (true, set_sync_state
               <[p_user_id := SyncState.mkRow None None false true None (Some 0)]> w)
  | Some row =>
      if SyncState.sync_in_progress row then (false, w)
      else (true, set_sync_state
                    <[p_user_id :=
                        SyncState.mkRow (SyncState.next_sync_token row)
                          (SyncState.last_sync_time row)
                          (SyncState.full_sync_completed row) true
                          (SyncState.sync_error row)
                          (SyncState.sync_error_count row)]> w)
  end.

(** The function [complete_sync_for_user] of migration 003. *)
Definition complete_sync_for_user (now : Z) (p_user_id : string)
    (p_next_sync_token : option string) (p_success : bool)
    (p_error_message : option string) (w : World) : World :=
  match sync_state w !! p_user_id with
  | None => w
  | Some row =>
      set_sync_state
        <[p_user_id :=
            if p_success then
              SyncState.mkRow p_next_sync_token (Some now) true false None (Some 0)
            else
              SyncState.mkRow (SyncState.next_sync_token row)
                (SyncState.last_sync_time row)
                (SyncState.full_sync_completed row) false p_error_message
                (Some (match SyncState.sync_error_count row with
                       | Some n => n
                       | None => 0
                       end + 1))]> w
  end.

(** *** Full and incremental sync *)

Section Sync.
Context `{Vault.KeyedCipher}.
Variable ENCRYPTION_KEY : string.
Variable env : Env.

(** [options.maxResults || 2500]. *)
Definition maxResults_or_default (options : SyncOptions) : Z :=
  match opt_maxResults options with
  | Some 0 | None => 2500
  | Some n => n
  end.

Definition ms_per_year : Z := 365 * 24 * 60 * 60 * 1000.

(** The request of one page of a full sync. *)
Definition full_sync_request (options : SyncOptions) (pageToken : option string)
    : Google.ListRequest :=
  let timeMin := match opt_timeMin options with
                 | Some t => t
                 | None => now env - ms_per_year
                 end in
  let timeMax := match opt_timeMax options with
                 | Some t => t
                 | None => now env + ms_per_year
                 end in
  Google.mkListRequest None pageToken (Some timeMin) (Some timeMax)
    (Z.min (maxResults_or_default options) 2500) true (Some "startTime").

(** The request of one page of an incremental sync:
    [syncToken: pageToken ? undefined : syncToken]. *)
Definition incremental_sync_request (syncToken : string) (options : SyncOptions)
    (pageToken : option string) : Google.ListRequest :=
  Google.mkListRequest
    (match pageToken with Some _ => None | None => Some syncToken end)
    pageToken None None (maxResults_or_default options) false None.

(** The [do { ... } while (pageToken)] loop that both kinds of sync run, on
    the request of each: at most [fuel] pages are fetched, and [None] says
    that the loop had not ended by then.  The loop ends with the result
    object as it stands and, when [executeWithRetry] threw, with what it
    threw. *)
Fixpoint sync_pages (fuel : nat) (calendar userId : string)
    (request : option string -> Google.ListRequest) (pageToken : option string)
    (result : CalendarSyncResult) (w : World)
    : option (CalendarSyncResult * option JsError * World) :=
  match fuel with
  | O => None
  | S fuel' =>
      match executeWithRetry
              (fun k => events_list env k calendar (request pageToken))
              DEFAULT_RETRY_CONFIG w with
      | (Throw error, w1) => Some (result, Some error, w1)
      | (Ok response, w1) =>
          let (result1, w2) :=
            match Google.items response with
            | Some items => process_items (now env) userId items result w1
            | None => (result, w1)
            end in
          let pageToken' := truthy (Google.nextPageToken response) in
          let result2 :=
            set_nextSyncToken (truthy (Google.nextSyncToken response)) result1 in
          match pageToken' with
          | Some _ => sync_pages fuel' calendar userId request pageToken' result2 w2
          | None => Some (result2, None, w2)
          end
      end
  end.

(** [performFullSync(userId, calendar, options)]. *)
Definition performFullSync (fuel : nat) (userId calendar : string)
    (options : SyncOptions) (w : World) : option (CalendarSyncResult * World) :=
  match sync_pages fuel calendar userId (full_sync_request options) None
          fresh_result w with
  | None => None
  | Some (result, None, w') => Some (result, w')
  | Some (result, Some error, w') =>
      Some (push_error (mkCalendarError SYNC_ERROR (err_message error))
              (set_failed result), w')
  end.

(** The test of the [catch] of [performIncrementalSync]:
    [error?.code === 410 || error?.message?.includes('Sync token is no longer valid')]. *)
Definition sync_token_invalid (error : JsError) : bool :=
  code_is_num error 410
  || includes "Sync token is no longer valid" (err_message error).

(** [{ ...options, fullSync: true }]. *)
Definition with_fullSync (options : SyncOptions) : SyncOptions :=
  mkSyncOptions (Some true) (opt_maxResults options) (opt_timeMin options)
    (opt_timeMax options).

(** [performIncrementalSync(userId, calendar, syncToken, options)]. *)
Definition performIncrementalSync (fuel : nat) (userId calendar syncToken : string)
    (options : SyncOptions) (w : World) : option (CalendarSyncResult * World) :=
  match sync_pages fuel calendar userId
          (incremental_sync_request syncToken options) None fresh_result w with
  | None => None
  | Some (result, None, w') => Some (result, w')
  | Some (result, Some error, w') =>
      if sync_token_invalid error
      then performFullSync fuel userId calendar (with_fullSync options) w'
      else Some (push_error (mkCalendarError SYNC_ERROR (err_message error))
                   (set_failed result), w')
  end.

(** The result [syncWithGoogle] returns from its [catch]. *)
Definition sync_failure (error : JsError) : CalendarSyncResult :=
  mkCalendarSyncResult false 0 0 0 0 None
    [mkCalendarError SYNC_ERROR (err_message error)].

(** [syncWithGoogle(userId, options)].  Of the steps inside its [try] only
    [getAuthenticatedCalendar] throws: the two kinds of sync catch what is
    thrown in them. *)
Definition syncWithGoogle (fuel : nat) (userId : string) (options : SyncOptions)
    (w : World) : option (CalendarSyncResult * World) :=
  match getAuthenticatedCalendar ENCRYPTION_KEY env userId w with
  | (Throw error, w1) =>
      let (_, w2) :=
        updateSyncState (now env) userId None false (Some (err_message error)) w1 in
      Some (sync_failure error, w2)
  | (Ok calendar, w1) =>
      let syncState := getSyncState userId w1 in
      let synced :=
        match bool_or_false (fullSync options),
              truthy (SyncState.next_sync_token syncState),
              SyncState.full_sync_completed syncState with
        | false, Some syncToken, true =>
            performIncrementalSync fuel userId calendar syncToken options w1
        | _, _, _ => performFullSync fuel userId calendar options w1
        end in
      match synced with
      | None => None
      | Some (result, w2) =>
          let (_, w3) :=
            updateSyncState (now env) userId (res_nextSyncToken result)
              (success result) None w2 in
          Some (result, w3)
      end
  end.

End Sync.
(** ** Token manager: revocation, login and the OAuth state *)

(** A text fits a VARCHAR(n) column when it has at most [n] characters;
    the texts bound to such columns here are ASCII. *)
Definition fits_varchar (n : nat) (s : string) : bool :=
  (String.length s <=? n)%nat.

(** The Google profile that passport hands to the login strategy, with the
    properties the token manager reads. *)
Module GoogleProfile.
Record t := mk {
  displayName : option string;
  givenName : option string;
  familyName : option string;
  photo : option string
}.
End GoogleProfile.

(** [profile.displayName ||
     `${profile.name?.givenName || ''} ${profile.name?.familyName || ''}`.trim()]. *)
Definition profile_name (profile : GoogleProfile.t) : string :=
  string_or (GoogleProfile.displayName profile)
    (trim (string_or (GoogleProfile.givenName profile) EmptyString
           +:+ " " +:+ string_or (GoogleProfile.familyName profile) EmptyString)).

Section Accounts.
Context `{Vault.KeyedCipher}.
Variable ENCRYPTION_KEY : string.
Variable env : Env.

(** [oauth2Client.revokeToken(accessToken)], a request to Google. *)
Variable revokeToken : nat -> string -> Outcome unit.

Definition call_revokeToken (accessToken : string) : M unit :=
  fun w => (revokeToken (api_calls w) accessToken,
            set_api_calls (S (api_calls w)) w).

(** The statement of [revokeTokens],
<<
    UPDATE users
    SET access_token = NULL, refresh_token = NULL, token_expires_at = NULL,
        updated_at = CURRENT_TIMESTAMP
    WHERE id = $1
>> *)
Definition clear_user_tokens (userId : string) : M unit :=
  modify (set_users (fun t =>
    match t !! userId with
    | Some _ => <[userId := Users.mkRow None None None]> t
    | None => t
    end)).

(** [revokeTokens(userId)]: a revocation that Google refuses is logged and
    the local tokens are cleared all the same. *)
Definition revokeTokens (userId : string) : M unit :=
  try_catch
    (storedTokens <- TokenService.getStoredTokens ENCRYPTION_KEY userId ;;
     match storedTokens with
     | Some stored =>
         match truthy (Some (TokenService.accessToken stored)) with
         | Some accessToken =>
             try_catch (call_revokeToken accessToken) (fun _ => ret tt)
         | None => ret tt
         end
     | None => ret tt
     end ;;;
     clear_user_tokens userId)%M
    (fun _ => throw (internal_error "Failed to revoke authentication tokens")).

(** The statement of [updateUserFromGoogleProfile],
<<
    UPDATE users
    SET name = $1, picture_url = $2, access_token = $3, refresh_token = $4,
        token_expires_at = $5, updated_at = CURRENT_TIMESTAMP
    WHERE id = $6
    RETURNING *
>>
    run with [values]; it returns the rows it updated, of which the model
    keeps the token columns.  [name] is VARCHAR(255) NOT NULL. *)
Definition update_user_profile (values : list SqlValue) : M (list Users.Row) :=
  if bind_fits 6 values then
    match to_text_column (placeholder 1 values),
          to_text_column (placeholder 2 values),
          to_text_column (placeholder 3 values),
          to_text_column (placeholder 4 values),
          to_timestamp_column (placeholder 5 values),
          to_text_column (placeholder 6 values) with
    | Some (Some name), Some p2, Some p3, Some p4, Some p5, Some p6 =>
        if fits_varchar 255 name then
          match p6 with
          | Some key =>
              fun w =>
                match users w !! key with
                | Some _ =>
                    let row := Users.mkRow p3 p4 p5 in
                    (Ok [row], set_users <[key := row]> w)
                | None => (Ok [], w)
                end
          | None => ret []
          end
        else throw (plain_error "value too long for type character varying(255)")
    | _, _, _, _, _, _ => throw (plain_error "invalid input value")
    end
  else throw (plain_error "bind message supplies the wrong number of parameters").

(** [updateUserFromGoogleProfile(user, profile, tokens)], [userId] being
    [user.id]; the result is [result.rows[0]]. *)
Definition updateUserFromGoogleProfile (userId : string)
    (profile : GoogleProfile.t) (tokens : TokenService.GoogleTokens)
    : M (option Users.Row) :=
  try_catch
    (let name := profile_name profile in
     let pictureUrl := GoogleProfile.photo profile in
     encryptedAccessToken <-
       TokenService.encrypt ENCRYPTION_KEY env (TokenService.access_token tokens) ;;
     encryptedRefreshToken <-
       match truthy (TokenService.refresh_token tokens) with
       | Some r => (e <- TokenService.encrypt ENCRYPTION_KEY env r ;; ret (Some e))
       | None => ret None
       end ;;
     rows <- update_user_profile
               [SqlText name; sql_text pictureUrl; SqlText encryptedAccessToken;
                sql_text encryptedRefreshToken;
                sql_timestamp (TokenService.expires_at tokens); SqlText userId] ;;
     ret (head rows))%M
    (fun _ => throw (internal_error "Failed to update user account")).

(** [generateStateToken()]: 32 random bytes in hexadecimal. *)
Definition generateStateToken : M string :=
  fun w => (Ok (Vault.hex_encode (randomBytes env (random_draws w))),
            set_random_draws (S (random_draws w)) w).

End Accounts.

(** *** The oauth_states table (migration 005)

    The table is keyed by its UNIQUE column [state], a VARCHAR(64);
    [user_id] refers to a row of users when it is not NULL.  The three
    functions below act on this table alone, so they pass it explicitly;
    [now] is the clock, of the server and of the store alike. *)

Module OAuthStates.
Record Row := mkRow {
  user_id : option string;
  expires_at : Z
}.
End OAuthStates.



(** [storeStateToken(state, userId)]: the state is good for ten minutes; an
    existing row of the same state is overwritten. *)
Definition storeStateToken (now : Z) (accounts : gmap string Users.Row)
    (state : string) (userId : option string) (t : gmap string OAuthStates.Row)
    : Outcome unit * gmap string OAuthStates.Row :=
  let expiry := now + 10 * 60 * 1000 in
  if fits_varchar 64 state
     && match userId with
        | Some u => is_some (accounts !! u)
        | None => true
        end
  then (Ok tt, <[state := OAuthStates.mkRow userId expiry]> t)
  else (Throw (internal_error "Failed to store OAuth state"), t).

(** [validateStateToken(state)]: a state that is found and has not expired
    is deleted and accepted. *)
Definition validateStateToken (now : Z) (state : string) (t : gmap string OAuthStates.Row)
    : bool * gmap string OAuthStates.Row :=
  match t !! state with
  | Some row =>
      if now <? OAuthStates.expires_at row then (true, delete state t)
      else (false, t)
  | None => (false, t)
  end.

(** [cleanupExpiredStates()]:
    [DELETE FROM oauth_states WHERE expires_at <= CURRENT_TIMESTAMP]. *)
Definition cleanupExpiredStates (now : Z) (t : gmap string OAuthStates.Row) : gmap string OAuthStates.Row :=
  filter (fun entry => now < OAuthStates.expires_at (snd entry)) t.
(** *** Changing and deleting an event *)

(** The table as the client connection sees it: its transaction's view, if
    it has one open. *)
Definition client_view (w : World) : list CalendarEvents.Row :=
  match tx_events w with
  | Some view => view
  | None => calendar_events w
  end.

Definition set_client_view (table : list CalendarEvents.Row) (w : World) : World :=
  match tx_events w with
  | Some _ => set_tx_events (Some table) w
  | None => set_calendar_events (fun _ => table) w
  end.

(** [SELECT * FROM calendar_events WHERE id = $1 AND user_id = $2] on the
    client connection, and [rows[0]] of its result. *)
Definition client_select (eventId : nat) (userId : string)
    : M (option CalendarEvents.Row) :=
  gets (fun w => List.find (row_is eventId userId) (client_view w)).

(** What the SET list that [updateEvent] builds makes of the row [old]: a
    column is assigned when the property is there, and [updated_at] and
    [last_modified] always are.  [None]: a value does not fit its column
    (an invalid date, a status outside the enumeration) or the new row
    fails the check [valid_date_range]. *)
Definition patch_row (now : Z) (eventData : CalendarEventInput)
    (old : CalendarEvents.Row) : option CalendarEvents.Row :=
  match match startDate eventData with
        | Some d => d
        | None => Some (CalendarEvents.start_date old)
        end,
        match endDate eventData with
        | Some d => d
        | None => Some (CalendarEvents.end_date old)
        end,
        match status eventData with
        | Some s => status_of_name s
        | None => Some (CalendarEvents.status old)
        end with
  | Some s, Some e, Some st =>
      let r := CalendarEvents.mkRow
                 (CalendarEvents.id old) (CalendarEvents.user_id old)
                 (CalendarEvents.google_event_id old)
                 (match title eventData with
                  | Some t => t
                  | None => CalendarEvents.title old
                  end)
                 (match description eventData with
                  | Some d => Some d
                  | None => CalendarEvents.description old
                  end)
                 s e
                 (match location eventData with
                  | Some l => Some l
                  | None => CalendarEvents.location old
                  end)
                 (match attendees eventData with
                  | Some l => l
                  | None => CalendarEvents.attendees old
                  end)
                 (match isAllDay eventData with
                  | Some b => b
                  | None => CalendarEvents.is_all_day old
                  end)
                 (match timezone eventData with
                  | Some z => z
                  | None => CalendarEvents.timezone old
                  end)
                 st (CalendarEvents.source old) (CalendarEvents.created_at old)
                 now now in
      if valid_date_range r then Some r else None
  | _, _, _ => None
  end.

(** The UPDATE of [updateEvent] over a table: [None] when the statement
    fails on a row. *)
Fixpoint patch_rows (now : Z) (eventData : CalendarEventInput) (eventId : nat)
    (userId : string) (table : list CalendarEvents.Row)
    : option (list CalendarEvents.Row) :=
  match table with
  | [] => Some []
  | r :: rest =>
      match patch_rows now eventData eventId userId rest with
      | Some rest' =>
          if row_is eventId userId r then
            match patch_row now eventData r with
            | Some r' => Some (r' :: rest')
            | None => None
            end
          else Some (r :: rest')
      | None => None
      end
  end.

(** The UPDATE ... RETURNING * on the client connection: the rows it
    updated. *)
Definition client_update (now : Z) (eventId : nat) (userId : string)
    (eventData : CalendarEventInput) : M (list CalendarEvents.Row) :=
  fun w =>
    match patch_rows now eventData eventId userId (client_view w) with
    | Some table =>
        (Ok (List.filter (row_is eventId userId) table), set_client_view table w)
    | None => (Throw (plain_error "invalid input value"), w)
    end.

(** [DELETE FROM calendar_events WHERE id = $1 AND user_id = $2] on the
    client connection. *)
Definition client_delete (eventId : nat) (userId : string) : M unit :=
  modify (fun w =>
    set_client_view
      (List.filter (fun r => negb (row_is eventId userId r)) (client_view w)) w).

Section EventChanges.
Context `{Vault.KeyedCipher}.
Variable ENCRYPTION_KEY : string.
Variable env : Env.

(** [calendar.events.update] and [calendar.events.delete]: requests to
    Google, given the request number, the access token of the client and
    the id of the upstream event. *)
Variable events_update : nat -> string -> string -> Google.Event -> Outcome unit.
Variable events_delete : nat -> string -> string -> Outcome unit.

(** [JSON.parse(existingEvent.attendees || '[]')]: what [JSON.parse] makes
    of the attendees column as the driver hands it over. *)
Variable JSON_parse : list Attendee -> Outcome (list Attendee).

(** The argument that [updateEvent] passes to [mapInputToGoogleEvent]: the
    existing row overlaid with the properties given.  Building it throws
    when [JSON.parse] does. *)
Definition overlay_input (eventData : CalendarEventInput)
    (existingEvent : CalendarEvents.Row) : Outcome CalendarEventInput :=
  match match attendees eventData with
        | Some l => Ok l
        | None => JSON_parse (CalendarEvents.attendees existingEvent)
        end with
  | Throw e => Throw e
  | Ok l =>
      Ok (mkCalendarEventInput
            (Some (string_or (title eventData) (CalendarEvents.title existingEvent)))
            (match description eventData with
             | Some d => Some d
             | None => CalendarEvents.description existingEvent
             end)
            (Some (match startDate eventData with
                   | Some d => d
                   | None => Some (CalendarEvents.start_date existingEvent)
                   end))
            (Some (match endDate eventData with
                   | Some d => d
                   | None => Some (CalendarEvents.end_date existingEvent)
                   end))
            (match location eventData with
             | Some l => Some l
             | None => CalendarEvents.location existingEvent
             end)
            (Some l)
            (Some (match isAllDay eventData with
                   | Some b => b
                   | None => CalendarEvents.is_all_day existingEvent
                   end))
            (Some (string_or (timezone eventData)
                     (CalendarEvents.timezone existingEvent)))
            (Some (string_or (status eventData)
                     (status_name (CalendarEvents.status existingEvent)))))
  end.

(** The block of [updateEvent] under [if (existingEvent.google_event_id)]:
    the update of the upstream event. *)
Definition update_in_google (userId : string) (eventData : CalendarEventInput)
    (existingEvent : CalendarEvents.Row) : M unit :=
  match truthy (CalendarEvents.google_event_id existingEvent) with
  | Some googleEventId =>
      (calendar <- getAuthenticatedCalendar ENCRYPTION_KEY env userId ;;
       merged <- lift (overlay_input eventData existingEvent) ;;
       googleEvent <- lift (mapInputToGoogleEvent merged) ;;
       executeWithRetry
         (fun k => events_update k calendar googleEventId googleEvent)
         DEFAULT_RETRY_CONFIG)%M
  | None => ret tt
  end.

(** [updateEvent(userId, eventId, eventData)]. *)
Definition updateEvent (userId : string) (eventId : nat)
    (eventData : CalendarEventInput) : M CalendarEvents.Row :=
  (client_begin ;;;
   try_catch
     (existingResult <- client_select eventId userId ;;
      match existingResult with
      | None => throw (not_found "Event not found")
      | Some existingEvent =>
          update_in_google userId eventData existingEvent ;;;
          rows <- client_update (now env) eventId userId eventData ;;
          client_commit ;;;
          match rows with
          | row :: _ => ret (mapDatabaseEventToResponse row)
          | [] => throw (plain_error "Cannot read properties of undefined")
          end
      end)
     (fun error => client_rollback ;;; throw error))%M.

(** The block of [deleteEvent] under [if (existingEvent.google_event_id)]:
    an upstream event that is already gone (404 or 410) is no failure. *)
Definition delete_in_google (userId : string) (existingEvent : CalendarEvents.Row)
    : M unit :=
  match truthy (CalendarEvents.google_event_id existingEvent) with
  | Some googleEventId =>
      (calendar <- getAuthenticatedCalendar ENCRYPTION_KEY env userId ;;
       try_catch
         (executeWithRetry
            (fun k => events_delete k calendar googleEventId)
            DEFAULT_RETRY_CONFIG)
         (fun error =>
            if negb (code_is_num error 404) && negb (code_is_num error 410)
            then throw error
            else ret tt))%M
  | None => ret tt
  end.

(** [deleteEvent(userId, eventId)]. *)
Definition deleteEvent (userId : string) (eventId : nat) : M unit :=
  (client_begin ;;;
   try_catch
     (existingResult <- client_select eventId userId ;;
      match existingResult with
      | None => throw (not_found "Event not found")
      | Some existingEvent =>
          delete_in_google userId existingEvent ;;;
          client_delete eventId userId ;;;
          client_commit
      end)
     (fun error => client_rollback ;;; throw error))%M.

End EventChanges.

(** *** Reading one event (controllers/calendarController.ts)

    The handlers of the controller pass what they throw, or find wrong, to
    [next]; here that is a throw. *)

Module CalendarController.

(** [getEvent]: the event is looked for in the result of
    [CalendarService.getEvents(user.id, { limit: 1 })]. *)
Definition getEvent (userId : string) (eventId : nat) : M CalendarEvents.Row :=
  (result <- getEvents userId
               (mkEventsQueryParams None (Some 1) None None None None None) ;;
   match List.find (fun e => Nat.eqb (CalendarEvents.id e) eventId)
           (events result) with
   | Some event => ret event
   | None => throw (not_found "Event not found")
   end)%M.

End CalendarController.

(** *** Events in a range of dates (migration 002) *)

(** The WHERE clause of the function [get_events_in_range]. *)
Definition in_range (p_user_id : string) (p_start_date p_end_date : Z)
    (e : CalendarEvents.Row) : bool :=
  String.eqb (CalendarEvents.user_id e) p_user_id
  && negb (status_eqb (CalendarEvents.status e) cancelled)
  && ((p_start_date <=? CalendarEvents.start_date e)
      && (CalendarEvents.start_date e <? p_end_date)
      || (p_start_date <? CalendarEvents.end_date e)
         && (CalendarEvents.end_date e <=? p_end_date)
      || (CalendarEvents.start_date e <=? p_start_date)
         && (p_end_date <=? CalendarEvents.end_date e)).

(** The columns of the table that [get_events_in_range] returns. *)
Record EventInRange := mkEventInRange {
  range_id : nat;
  range_title : string;
  range_description : option string;
  range_start_date : Z;
  range_end_date : Z;
  range_location : option string;
  range_status : EventStatus
}.

(** The SELECT list of [get_events_in_range]. *)
Definition range_columns (e : CalendarEvents.Row) : EventInRange :=
  mkEventInRange (CalendarEvents.id e) (CalendarEvents.title e)
    (CalendarEvents.description e) (CalendarEvents.start_date e)
    (CalendarEvents.end_date e) (CalendarEvents.location e)
    (CalendarEvents.status e).

(** [get_events_in_range(p_user_id, p_start_date, p_end_date)]. *)
Definition get_events_in_range (p_user_id : string) (p_start_date p_end_date : Z)
    (table : list CalendarEvents.Row) : list EventInRange :=
  map range_columns
    (order_by_start_date
       (List.filter (in_range p_user_id p_start_date p_end_date) table)).
(** * Properties *)

Lemma xor_ascii_involutive k a : Vault.xor_ascii k (Vault.xor_ascii k a) = a.
Proof.
  assert (Hx : forall p q, xorb p (xorb p q) = q) by (intros [] []; reflexivity).
  destruct k, a; simpl. rewrite !Hx. reflexivity.
Qed.

Lemma xor_cipher_involutive key x :
  Vault.xor_cipher key (Vault.xor_cipher key x) = x.
Proof.
  unfold Vault.xor_cipher. induction x as [|c r IH]; simpl.
  - reflexivity.
  - rewrite xor_ascii_involutive. f_equal. exact IH.
Qed.

#[export] Instance xor_keyed_cipher : Vault.KeyedCipher := {|
  Vault.cipher := Vault.xor_cipher;
  Vault.decipher := fun key c => Some (Vault.xor_cipher key c);
  Vault.decipher_cipher := fun key x => f_equal Some (xor_cipher_involutive key x)
|}.

(** ** Splitting a text *)

(** [s] has no occurrence of [sep]. *)
Definition no_sep (sep : ascii) (s : string) : bool :=
  string_forallb (fun c => negb (Ascii.eqb c sep)) s.

Definition no_colon (s : string) : bool := no_sep ":" s.

Lemma string_forallb_impl (p q : ascii -> bool) s :
  (forall c, p c = true -> q c = true) ->
  string_forallb p s = true -> string_forallb q s = true.
Proof.
  intros Hpq. induction s as [|c r IH]; simpl; [reflexivity|].
  rewrite !andb_true_iff. intros [Hc Hr]. split; [apply Hpq, Hc | apply IH, Hr].
Qed.

Lemma string_forallb_app p a b :
  string_forallb p (a +:+ b) = string_forallb p a && string_forallb p b.
Proof.
  induction a as [|c r IH]; simpl; [reflexivity|].
  rewrite IH, andb_assoc. reflexivity.
Qed.

Lemma split_on_nonempty sep s : split_on sep s <> [].
Proof.
  induction s as [|c r IH]; simpl; [discriminate|].
  destruct (Ascii.eqb c sep); [discriminate|].
  destruct (split_on sep r); [contradiction | discriminate].
Qed.

Lemma split_on_no_sep sep s : no_sep sep s = true -> split_on sep s = [s].
Proof.
  induction s as [|c r IH]; simpl; [reflexivity|].
  unfold no_sep in *. simpl. rewrite andb_true_iff, negb_true_iff.
  intros [Hc Hr]. rewrite Hc, (IH Hr). reflexivity.
Qed.

Lemma split_on_prefix sep a b :
  no_sep sep a = true ->
  split_on sep (a +:+ String sep b) = a :: split_on sep b.
Proof.
  induction a as [|c r IH]; simpl.
  - intros _. rewrite Ascii.eqb_refl. reflexivity.
  - unfold no_sep in *. simpl. rewrite andb_true_iff, negb_true_iff.
    intros [Hc Hr]. rewrite Hc, (IH Hr). reflexivity.
Qed.

(** A text that splits into one part has no separator. *)
Lemma split_on_one sep s a : split_on sep s = [a] -> s = a /\ no_sep sep a = true.
Proof.
  revert a. induction s as [|c r IH]; intros a; simpl.
  - intros [= <-]. split; reflexivity.
  - destruct (Ascii.eqb c sep) eqn:Hc.
    + intros [= _ Hr]. destruct (split_on_nonempty _ _ Hr).
    + destruct (split_on sep r) as [|p ps] eqn:Hs;
        [destruct (split_on_nonempty _ _ Hs)|].
      intros [= <- ->]. destruct (IH p eq_refl) as [-> Hp].
      split; [reflexivity|]. unfold no_sep in *. simpl. rewrite Hc, Hp. reflexivity.
Qed.

(** A text that splits in two is its two parts around one separator. *)
Lemma split_on_two sep s a b :
  split_on sep s = [a; b] ->
  s = a +:+ String sep b /\ no_sep sep a = true /\ no_sep sep b = true.
Proof.
  revert a. induction s as [|c r IH]; intros a; simpl; [discriminate|].
  destruct (Ascii.eqb_spec c sep) as [->|Hne].
  - intros [= <- Hr]. apply split_on_one in Hr as [-> Hb].
    split; [reflexivity|]. split; [reflexivity | exact Hb].
  - destruct (split_on sep r) as [|p ps] eqn:Hs; [discriminate|].
    intros [= <- ->]. destruct (IH p eq_refl) as [-> [Hp Hb]].
    split; [reflexivity|]. split; [|exact Hb].
    unfold no_sep in *. simpl. rewrite Hp.
    destruct (Ascii.eqb_spec c sep); [contradiction | reflexivity].
Qed.

(** ** The credential vault *)

Definition is_hex (s : string) : bool :=
  string_forallb Vault.is_hex_digit s.

Lemma is_hex_no_colon s : is_hex s = true -> no_colon s = true.
Proof.
  apply string_forallb_impl. intros c Hc.
  destruct (Ascii.eqb_spec c ":") as [->|]; [discriminate Hc | reflexivity].
Qed.

Lemma hex_of_byte_is_hex b :
  Vault.is_hex_digit (Vault.hex_digit (N_of_ascii b / 16)) = true
  /\ Vault.is_hex_digit (Vault.hex_digit (N_of_ascii b mod 16)) = true.
Proof. destruct b as [[] [] [] [] [] [] [] []]; vm_compute; split; reflexivity. Qed.

Lemma hex_encode_is_hex bytes : is_hex (Vault.hex_encode bytes) = true.
Proof.
  induction bytes as [|b r IH]; simpl; [reflexivity|].
  destruct (hex_of_byte_is_hex b) as [Hhi Hlo].
  unfold is_hex in *. simpl. rewrite Hhi, Hlo. exact IH.
Qed.

Lemma hex_decode_byte b :
  match Vault.hex_value (Vault.hex_digit (N_of_ascii b / 16)),
        Vault.hex_value (Vault.hex_digit (N_of_ascii b mod 16)) with
  | Some hi, Some lo => ascii_of_N (16 * hi + lo) = b
  | _, _ => False
  end.
Proof. destruct b as [[] [] [] [] [] [] [] []]; vm_compute; reflexivity. Qed.

Lemma hex_decode_encode bytes : Vault.hex_decode (Vault.hex_encode bytes) = bytes.
Proof.
  induction bytes as [|b r IH]; simpl; [reflexivity|].
  pose proof (hex_decode_byte b) as Hb.
  destruct (Vault.hex_value (Vault.hex_digit (N_of_ascii b / 16))); [|contradiction].
  destruct (Vault.hex_value (Vault.hex_digit (N_of_ascii b mod 16))); [|contradiction].
  rewrite Hb, IH. reflexivity.
Qed.

Section VaultProperties.
Context `{Vault.KeyedCipher}.
Variable key : string.

(** What [decrypt] computes from the part after the colon alone. *)
Definition decrypt_payload (rest : list string) : Outcome string :=
  match rest with
  | [encrypted] =>
      match Vault.decipher key (Vault.hex_decode encrypted) with
      | Some decrypted => Ok decrypted
      | None => Throw (internal_error "Failed to decrypt token")
      end
  | _ => Throw (internal_error "Failed to decrypt token")
  end.

Lemma decrypt_prefixed ivHex c :
  no_colon ivHex = true ->
  Vault.decrypt key (ivHex +:+ ":" +:+ c) = decrypt_payload (split_on ":" c).
Proof.
  intros Hiv. unfold Vault.decrypt.
  change (ivHex +:+ ":" +:+ c) with (ivHex +:+ String ":" c).
  rewrite (split_on_prefix _ _ _ Hiv).
  destruct (split_on ":" c) as [|e [|e' rest]]; reflexivity.
Qed.

(** A text without a colon is not a wrapped token. *)
Lemma decrypt_without_colon text :
  no_colon text = true ->
  Vault.decrypt key text = Throw (internal_error "Failed to decrypt token").
Proof.
  intros Hc. unfold Vault.decrypt. rewrite split_on_no_sep by exact Hc. reflexivity.
Qed.

Lemma unwrap_wrap iv x : Vault.decrypt key (Vault.encrypt key iv x) = Ok x.
Proof.
  unfold Vault.encrypt.
  rewrite decrypt_prefixed by apply is_hex_no_colon, hex_encode_is_hex.
  rewrite split_on_no_sep by apply is_hex_no_colon, hex_encode_is_hex.
  simpl. rewrite hex_decode_encode, Vault.decipher_cipher. reflexivity.
Qed.

(** C9. Wrap round-trip: for every key, every initialisation vector drawn
    by [encrypt] and every plaintext [x], decrypting the text produced by
    [encrypt] gives [x] back. *)
Theorem decrypt_encrypt iv x :
  Vault.decrypt key (Vault.encrypt key iv x) = Ok x.
Proof. apply unwrap_wrap. Qed.

(** C10. The IV prefix is never consulted by [decrypt]: two wrapped texts
    with hexadecimal prefixes [i1], [i2] and the same part [c] after the
    colon decrypt to the same outcome, which is a function of the key and
    of [c] only. *)
Theorem decrypt_ignores_iv i1 i2 c :
  is_hex i1 = true -> is_hex i2 = true ->
  Vault.decrypt key (i1 +:+ ":" +:+ c) = Vault.decrypt key (i2 +:+ ":" +:+ c)
  /\ Vault.decrypt key (i1 +:+ ":" +:+ c) = decrypt_payload (split_on ":" c).
Proof.
  intros H1 H2.
  rewrite !decrypt_prefixed by (apply is_hex_no_colon; assumption).
  split; reflexivity.
Qed.

End VaultProperties.

Lemma decrypt_ignores_iv_witness :
  is_hex "00ff" = true /\ is_hex "a1b2c3" = true /\
  Vault.decrypt "k" ("00ff" +:+ ":" +:+ "2a2b") =
  Vault.decrypt "k" ("a1b2c3" +:+ ":" +:+ "2a2b").
Proof.
  split; [reflexivity|]. split; [reflexivity|].
  apply (decrypt_ignores_iv (H := xor_keyed_cipher) "k" "00ff" "a1b2c3" "2a2b");
    reflexivity.
Defined.
(** ** Computations *)

Ltac unfold_m :=
  unfold bind, try_catch, ret, throw, gets, modify, lift in *.

(** ** Trimming, and the shape of an email *)

Lemma trim_start_skip s :
  trim_start s = match skip_space s with Some r => trim_start r | None => s end.
Proof.
  destruct s as [|c1 [|c2 [|c3 r3]]]; simpl; try reflexivity.
  - destruct (is_space c1); reflexivity.
  - destruct (is_space c1); [reflexivity|]. destruct (is_space2 c1 c2); reflexivity.
  - destruct (is_space c1); [reflexivity|].
    destruct (is_space2 c1 c2); [reflexivity|].
    destruct (is_space3 c1 c2 c3); reflexivity.
Qed.

Lemma blank_skip s :
  blank s = match s with
            | EmptyString => true
            | String _ _ =>
                match skip_space s with Some r => blank r | None => false end
            end.
Proof.
  destruct s as [|c1 [|c2 [|c3 r3]]]; simpl; try reflexivity.
  - destruct (is_space c1); reflexivity.
  - destruct (is_space c1); [reflexivity|]. destruct (is_space2 c1 c2); reflexivity.
  - destruct (is_space c1); [reflexivity|].
    destruct (is_space2 c1 c2); [reflexivity|].
    destruct (is_space3 c1 c2 c3); reflexivity.
Qed.

Lemma skip_space_length s r :
  skip_space s = Some r -> (String.length r < String.length s)%nat.
Proof.
  destruct s as [|c1 [|c2 [|c3 r3]]]; simpl; try discriminate.
  - destruct (is_space c1); [|discriminate]. intros [= <-]. simpl. lia.
  - destruct (is_space c1); [intros [= <-]; simpl; lia|].
    destruct (is_space2 c1 c2); [|discriminate]. intros [= <-]. simpl. lia.
  - destruct (is_space c1); [intros [= <-]; simpl; lia|].
    destruct (is_space2 c1 c2); [intros [= <-]; simpl; lia|].
    destruct (is_space3 c1 c2 c3); [|discriminate]. intros [= <-]. simpl. lia.
Qed.

Lemma trim_end_empty s : trim_end s = EmptyString <-> blank s = true.
Proof.
  destruct s as [|c r]; [split; reflexivity|]. cbn [trim_end].
  destruct (blank (String c r)); split; congruence.
Qed.

Lemma trim_start_blank s : blank (trim_start s) = blank s.
Proof.
  remember (String.length s) as n eqn:Hn. revert s Hn.
  induction n as [n IH] using lt_wf_ind. intros s Hn.
  rewrite trim_start_skip. destruct (skip_space s) as [r|] eqn:Hs; [|reflexivity].
  rewrite (blank_skip s), Hs. destruct s as [|c s]; [discriminate Hs|].
  apply (IH (String.length r)); [|reflexivity].
  subst n. apply skip_space_length. exact Hs.
Qed.

(** A text trims to nothing iff it is white space only. *)
Lemma trim_empty s : trim s = EmptyString <-> blank s = true.
Proof. unfold trim. rewrite trim_end_empty, trim_start_blank. reflexivity. Qed.

(** The text of the bytes [l]. *)
Definition text_of_bytes (l : list Z) : string :=
  string_of_list_ascii (map (fun b => ascii_of_N (Z.to_N b)) l).

(** The white space beyond ASCII is trimmed like the space: a title made
    of U+0020, U+00A0, U+2003, U+2028, U+3000 and U+FEFF is blank, and a
    word between U+00A0 and U+FEFF is left bare. *)
Lemma trim_unicode_space :
  blank (text_of_bytes [32; 194; 160; 226; 128; 131; 226; 128; 168;
                        227; 128; 128; 239; 187; 191]) = true
  /\ trim (text_of_bytes [194; 160] +:+ "Caf" +:+ text_of_bytes [195; 169]
           +:+ text_of_bytes [239; 187; 191])
     = "Caf" +:+ text_of_bytes [195; 169].
Proof. split; vm_compute; reflexivity. Qed.

(** The texts that [/^[^\s@]+@[^\s@]+\.[^\s@]+$/] matches: three non-empty
    runs of characters that are neither white space nor ["@"], with ["@"]
    after the first and ["."] after the second. *)
Definition email_shape (s : string) : Prop :=
  exists a b c,
    s = a +:+ "@" +:+ b +:+ "." +:+ c
    /\ a <> EmptyString /\ b <> EmptyString /\ c <> EmptyString
    /\ email_chars a = true
    /\ email_chars b = true
    /\ email_chars c = true.

Lemma dot_then_more_spec r :
  dot_then_more r = true <->
  exists b c, r = b +:+ "." +:+ c /\ c <> EmptyString.
Proof.
  split.
  - induction r as [|ch r IH]; simpl; [discriminate|].
    rewrite orb_true_iff, andb_true_iff. intros [[Hdot Hne]|Hr].
    + apply Ascii.eqb_eq in Hdot as ->. exists EmptyString, r.
      split; [reflexivity|]. destruct r; [discriminate | discriminate].
    + destruct (IH Hr) as [b [c [-> Hc]]]. exists (String ch b), c. auto.
  - intros [b [c [-> Hc]]]. induction b as [|ch b IH]; simpl.
    + destruct c; [contradiction | reflexivity].
    + rewrite IH. apply orb_true_r.
Qed.

Lemma email_chars_no_at s : email_chars s = true -> no_sep "@" s = true.
Proof.
  unfold no_sep. induction s as [|c r IH]; [reflexivity|].
  cbn [email_chars string_forallb]. rewrite !andb_true_iff.
  intros [[_ Hc] Hr]. split; [exact Hc | apply IH, Hr].
Qed.

(** No white space character has the byte of ["."] in it. *)
Lemma is_space2_dot c : is_space2 c "." = false.
Proof. unfold is_space2. apply andb_false_r. Qed.

Lemma is_space3_dot2 c1 c3 : is_space3 c1 "." c3 = false.
Proof.
  unfold is_space3. cbv zeta.
  change (N_of_ascii ".") with 46%N. cbn [N.eqb Pos.eqb andb orb].
  rewrite !andb_false_r. reflexivity.
Qed.

Lemma is_space3_dot3 c1 c2 : is_space3 c1 c2 "." = false.
Proof.
  unfold is_space3. cbv zeta.
  change (N_of_ascii ".") with 46%N.
  change (46 =? 128)%N with false. change (46 =? 159)%N with false.
  change (46 =? 191)%N with false. change (46 =? 168)%N with false.
  change (46 =? 169)%N with false. change (46 =? 175)%N with false.
  change (128 <=? 46)%N with false.
  cbn [andb orb]. rewrite !andb_false_r. reflexivity.
Qed.

Lemma space_ahead_dot c : space_ahead (String "." c) = false.
Proof.
  unfold space_ahead, skip_space. change (is_space ".") with false. cbv iota.
  destruct c as [|c2 [|c3 r]]; [reflexivity| |].
  - change (is_space2 "." c2) with false. reflexivity.
  - change (is_space2 "." c2) with false. cbv iota.
    change (is_space3 "." c2 c3) with false. reflexivity.
Qed.

(** Whether white space begins a text does not depend on what follows a
    ["."] of it. *)
Lemma space_ahead_before_dot x a c :
  space_ahead (String x (a +:+ String "." c)) = space_ahead (String x a).
Proof.
  unfold space_ahead, skip_space.
  destruct (is_space x); [reflexivity|].
  destruct a as [|y a]; simpl.
  - rewrite is_space2_dot. destruct c as [|z c]; [reflexivity|].
    rewrite is_space3_dot2. reflexivity.
  - destruct (is_space2 x y); [reflexivity|].
    destruct a as [|z a]; simpl.
    + rewrite is_space3_dot3. reflexivity.
    + destruct (is_space3 x y z); reflexivity.
Qed.

Lemma email_chars_dot a c :
  email_chars (a +:+ String "." c) = email_chars a && email_chars c.
Proof.
  induction a as [|x a IH].
  - change (EmptyString +:+ String "." c) with (String "." c).
    cbn [email_chars]. rewrite space_ahead_dot. reflexivity.
  - change (String x a +:+ String "." c) with (String x (a +:+ String "." c)).
    cbn [email_chars]. rewrite space_ahead_before_dot, IH, !andb_assoc.
    reflexivity.
Qed.

(** [isValidEmail] decides the shape. *)
Lemma isValidEmail_spec s : isValidEmail s = true <-> email_shape s.
Proof.
  unfold isValidEmail, email_shape. split.
  - destruct (split_on "@" s) as [|local [|domain [|? ?]]] eqn:Hs; try discriminate.
    apply split_on_two in Hs as [-> [_ _]].
    rewrite !andb_true_iff. intros [[[Hl Hlc] Hdc] Hdot].
    destruct domain as [|d0 r]; [discriminate|].
    apply dot_then_more_spec in Hdot as [b [c [-> Hc]]].
    change (String d0 (b +:+ "." +:+ c))
      with (String d0 b +:+ String "." c) in Hdc.
    rewrite email_chars_dot in Hdc.
    apply andb_true_iff in Hdc as [Hb Hcc].
    exists local, (String d0 b), c.
    split; [reflexivity|].
    split; [destruct local; [discriminate Hl | discriminate]|].
    split; [discriminate|]. split; [exact Hc|]. split; [exact Hlc|].
    split; [exact Hb | exact Hcc].
  - intros [a [b [c [-> [Ha [Hb [Hc [Hac [Hbc Hcc]]]]]]]]].
    change (a +:+ "@" +:+ b +:+ "." +:+ c) with (a +:+ String "@" (b +:+ "." +:+ c)).
    rewrite split_on_prefix by (apply email_chars_no_at; exact Hac).
    assert (Hrest : email_chars (b +:+ "." +:+ c) = true).
    { change (b +:+ "." +:+ c) with (b +:+ String "." c).
      rewrite email_chars_dot, Hbc, Hcc. reflexivity. }
    rewrite split_on_no_sep by (apply email_chars_no_at; exact Hrest).
    rewrite Hac, Hrest. destruct a as [|a0 a]; [contradiction|].
    destruct b as [|b0 b]; [contradiction|]. simpl.
    apply dot_then_more_spec. exists b, c. auto.
Qed.

(** White space beyond ASCII makes an email ill-formed like the space. *)
Lemma isValidEmail_unicode_space :
  isValidEmail ("bob" +:+ text_of_bytes [194; 160] +:+ "@example.com") = false
  /\ isValidEmail ("bob@example" +:+ text_of_bytes [226; 128; 168] +:+ ".com") = false
  /\ isValidEmail ("z" +:+ text_of_bytes [195; 169] +:+ "@example.com") = true.
Proof. repeat split; vm_compute; reflexivity. Qed.

(** ** Validation of event input *)

(** The title is there and is not blank. *)
Definition title_ok (i : CalendarEventInput) : Prop :=
  exists t, title i = Some t /\ trim t <> EmptyString.

(** Every attendee that is supplied has a well-formed email. *)
Definition attendees_ok (i : CalendarEventInput) : Prop :=
  forall l, attendees i = Some l ->
    Forall (fun a => exists e, email a = Some e /\ isValidEmail e = true) l.

(** Acceptance as the specification words it: start and end are instants
    with end at or after start. *)
Definition spec_accepts (i : CalendarEventInput) : Prop :=
  title_ok i
  /\ (exists s e, startDate i = Some (Some s) /\ endDate i = Some (Some e) /\ s <= e)
  /\ attendees_ok i.

(** Acceptance as [validateEventInput] decides it: start and end are there
    and [start >= end] does not hold. *)
Definition accepts (i : CalendarEventInput) : Prop :=
  title_ok i
  /\ (exists s e, startDate i = Some s /\ endDate i = Some e /\ date_geb s e = false)
  /\ attendees_ok i.

Lemma trim_empty_iff t : is_empty (trim t) = false <-> trim t <> EmptyString.
Proof. destruct (trim t); simpl; split; congruence. Qed.

Lemma truthy_Some o s : truthy o = Some s <-> o = Some s /\ s <> EmptyString.
Proof.
  destruct o as [[|c r]|]; simpl; split.
  all: try (intros [? ?]; congruence); try congruence.
  intros [= <-]. split; [reflexivity | discriminate].
Qed.

Lemma truthy_None o : truthy o = None <-> o = None \/ o = Some EmptyString.
Proof.
  destruct o as [[|c r]|]; simpl; split; auto; try discriminate.
  intros [?|?]; discriminate.
Qed.

Lemma isValidEmail_empty : isValidEmail EmptyString = false.
Proof. reflexivity. Qed.

Lemma validate_attendees_ok l :
  validate_attendees l = Ok tt <->
  Forall (fun a => exists e, email a = Some e /\ isValidEmail e = true) l.
Proof.
  induction l as [|a l IH]; simpl.
  - split; [constructor | reflexivity].
  - destruct (truthy (email a)) as [e|] eqn:He.
    + apply truthy_Some in He as [He Hne].
      destruct (isValidEmail e) eqn:Hv.
      * rewrite IH. split.
        -- intros Hl. constructor; [exists e; auto | exact Hl].
        -- intros Hl. inversion Hl; assumption.
      * split; [discriminate|]. intros Hl. inversion Hl as [|? ? [e' [He' Hv']] ?]; subst.
        congruence.
    + split; [discriminate|]. intros Hl. inversion Hl as [|? ? [e' [He' Hv']] ?]; subst.
      apply truthy_None in He as [He|He]; rewrite He in He'; [discriminate|].
      injection He' as <-. rewrite isValidEmail_empty in Hv'. discriminate.
Qed.

Lemma validate_attendees_class l e :
  validate_attendees l = Throw e -> err_class e = BadRequestError.
Proof.
  induction l as [|a l IH]; simpl; [discriminate|].
  destruct (truthy (email a)) as [m|].
  - destruct (isValidEmail m); [exact IH|]. intros [= <-]. reflexivity.
  - intros [= <-]. reflexivity.
Qed.

Lemma validateEventInput_accepts i : validateEventInput i = Ok tt <-> accepts i.
Proof.
  unfold validateEventInput, accepts, title_ok, attendees_ok.
  destruct (truthy (title i)) as [t|] eqn:Ht.
  - apply truthy_Some in Ht as [Ht Hne].
    destruct (is_empty (trim t)) eqn:Hb.
    + split; [discriminate|]. intros [[t' [Ht' Htrim]] _].
      rewrite Ht in Ht'. injection Ht' as <-.
      apply trim_empty_iff in Htrim. congruence.
    + apply trim_empty_iff in Hb.
      destruct (startDate i) as [s|]; [|split; [discriminate|];
        intros [_ [[s [e [Hs _]]] _]]; discriminate].
      destruct (endDate i) as [e|]; [|split; [discriminate|];
        intros [_ [[s' [e [_ [He _]]]] _]]; discriminate].
      destruct (date_geb s e) eqn:Hge.
      * split; [discriminate|].
        intros [_ [[s' [e' [[= <-] [[= <-] Hge']]]] _]]. congruence.
      * destruct (attendees i) as [l|].
        -- rewrite validate_attendees_ok. split.
           ++ intros Hl. split; [exists t; auto|]. split; [exists s, e; auto|].
              intros l' [= <-]. exact Hl.
           ++ intros [_ [_ Hl]]. apply Hl. reflexivity.
        -- split; [|reflexivity]. intros _.
           split; [exists t; auto|]. split; [exists s, e; auto|]. discriminate.
  - split; [discriminate|]. intros [[t [Ht' Htrim]] _].
    apply truthy_None in Ht as [Ht|Ht]; rewrite Ht in Ht'; [discriminate|].
    injection Ht' as <-. exfalso. apply Htrim. reflexivity.
Qed.

Lemma validateEventInput_class i e :
  validateEventInput i = Throw e -> err_class e = BadRequestError.
Proof.
  unfold validateEventInput.
  destruct (truthy (title i)); [|intros [= <-]; reflexivity].
  destruct (is_empty (trim s)); [intros [= <-]; reflexivity|].
  destruct (startDate i); [|intros [= <-]; reflexivity].
  destruct (endDate i); [|intros [= <-]; reflexivity].
  destruct (date_geb j j0); [intros [= <-]; reflexivity|].
  destruct (attendees i); [apply validate_attendees_class | discriminate].
Qed.

(** A title that is white space only is no title, whatever the white
    space: so with the no-break space U+00A0. *)
Lemma validateEventInput_blank_title i t :
  title i = Some t -> blank t = true ->
  validateEventInput i = Throw (bad_request "Event title is required").
Proof.
  intros Ht Hb. unfold validateEventInput. rewrite Ht.
  destruct (truthy (Some t)) as [t'|] eqn:Htr; [|reflexivity].
  apply truthy_Some in Htr as [[= <-] _].
  apply trim_empty in Hb. rewrite Hb. reflexivity.
Qed.

Lemma validateEventInput_no_break_space :
  validateEventInput
    (mkCalendarEventInput (Some (text_of_bytes [194; 160])) None
       (Some (Some 1735812000000)) (Some (Some 1735815600000))
       None None None None None)
  = Throw (bad_request "Event title is required").
Proof. apply validateEventInput_blank_title with (t := text_of_bytes [194; 160]); reflexivity. Qed.

(** A rejected input makes [createEvent] throw the validation error right
    after BEGIN and ROLLBACK: nothing else has run. *)
Lemma createEvent_rejected `{Vault.KeyedCipher} key env u i e w :
  validateEventInput i = Throw e ->
  createEvent key env u i w = (Throw e, set_tx_events None w).
Proof.
  intros Hv. unfold createEvent, client_begin, client_rollback. unfold_m.
  rewrite Hv. simpl. destruct w; reflexivity.
Qed.

(** The input of scenario 4 with the end moved onto the start. *)
Definition meeting_end_equals_start : CalendarEventInput :=
  mkCalendarEventInput (Some "Meeting") None
    (Some (Some 1735812000000)) (Some (Some 1735812000000))
    None None None None None.

(** C7, as stated, fails: an input whose end equals its start is accepted by
    the acceptance condition of the specification and is rejected by
    [validateEventInput]. *)
Lemma validateEventInput_rejects_equal_dates :
  spec_accepts meeting_end_equals_start
  /\ validateEventInput meeting_end_equals_start
     = Throw (bad_request "End date must be after start date").
Proof.
  split; [|reflexivity].
  split; [exists "Meeting"; split; [reflexivity | discriminate]|].
  split; [exists 1735812000000, 1735812000000; repeat split; lia|].
  intros l Hl. discriminate Hl.
Qed.

(** C7, amended.  [validateEventInput] accepts an input iff its title is
    not blank, its start and end are both there and [start >= end] does
    not hold, and every attendee supplied has a well-formed email; for
    start and end that are instants this says that the end is strictly
    after the start.  Otherwise it throws a [BadRequestError], and
    [createEvent] rethrows it having issued no request and written no
    row. *)
Theorem validateEventInput_spec i :
  (validateEventInput i = Ok tt <-> accepts i)
  /\ (forall s e, startDate i = Some (Some s) -> endDate i = Some (Some e) ->
        (accepts i <-> title_ok i /\ s < e /\ attendees_ok i))
  /\ (forall err, validateEventInput i = Throw err ->
        err_class err = BadRequestError
        /\ forall (C : Vault.KeyedCipher) key env u w,
             createEvent key env u i w = (Throw err, set_tx_events None w)).
Proof.
  split; [apply validateEventInput_accepts|]. split.
  - intros s e Hs He. unfold accepts. rewrite Hs, He. split.
    + intros [Ht [[s' [e' [[= <-] [[= <-] Hge]]]] Ha]]. simpl in Hge.
      apply Z.leb_gt in Hge. auto.
    + intros [Ht [Hlt Ha]]. split; [exact Ht|]. split; [|exact Ha].
      exists (Some s), (Some e). simpl. rewrite Z.leb_gt. auto.
  - intros err Herr. split; [eapply validateEventInput_class; eauto|].
    intros C key env u w. apply createEvent_rejected. exact Herr.
Qed.
(** ** Listing events: pagination *)

(** The number of events of [userId] that pass the filters of [params]. *)
Definition count_matching (userId : string) (params : EventsQueryParams)
    (w : World) : Z :=
  Z.of_nat (length (List.filter (event_matches userId params) (calendar_events w))).

Definition page_of (params : EventsQueryParams) : Z :=
  match page params with Some p => p | None => 1 end.

Definition limit_of (params : EventsQueryParams) : Z :=
  match limit params with Some l => l | None => 50 end.

(** The text of the listing query names its order and its limit, whatever
    the filters. *)
Lemma events_query_text params :
  includes "ORDER BY start_date ASC" (events_query params) = true
  /\ includes " LIMIT " (events_query params) = true
  /\ includes "SELECT COUNT(*) FROM" (events_query params) = false.
Proof.
  unfold events_query, events_query_filtered.
  destruct (q_startDate params), (q_endDate params), (q_status params),
    (q_source params) as [[?|]|], (search params) as [[|? ?]|];
    vm_compute; auto.
Qed.

(** The first replacement of [getEvents] finds nothing to replace: in the
    text of the query a line ends right after SELECT, and the dot of the
    pattern does not cross it.  The second removes the tail.  So the
    counting query selects the columns of every matching row. *)
Lemma count_query_text params :
  includes " LIMIT " (count_query params) = false
  /\ includes "SELECT COUNT(*) FROM" (count_query params) = false.
Proof.
  unfold count_query, events_query, events_query_filtered.
  destruct (q_startDate params), (q_endDate params), (q_status params),
    (q_source params) as [[?|]|], (search params) as [[|? ?]|];
    vm_compute; auto.
Qed.

Lemma insert_by_start_length r l :
  length (insert_by_start r l) = S (length l).
Proof.
  induction l as [|x t IH]; simpl; [reflexivity|].
  destruct (CalendarEvents.start_date r <=? CalendarEvents.start_date x); simpl;
    [reflexivity | rewrite IH; reflexivity].
Qed.

Lemma order_by_start_date_length l :
  length (order_by_start_date l) = length l.
Proof.
  induction l as [|x t IH]; simpl; [reflexivity|].
  rewrite insert_by_start_length, IH. reflexivity.
Qed.

Lemma event_rows_results l : event_rows (map EventResult l) = l.
Proof. induction l as [|x t IH]; simpl; [reflexivity | rewrite IH; reflexivity]. Qed.

(** The total read off a result made of event rows. *)
Lemma total_of_event_rows (rows matching : list CalendarEvents.Row) :
  length rows = length matching ->
  match map EventResult rows with
  | r :: _ => parse_count r
  | [] => Num 0
  end = match matching with [] => Num 0 | _ :: _ => NaN end.
Proof. destruct rows, matching; simpl; intros Hlen; congruence. Qed.

(** What [getEvents] computes, the texts of its queries read. *)
Lemma getEvents_unfold userId params w :
  let matching := List.filter (event_matches userId params) (calendar_events w) in
  let offset := (page_of params - 1) * limit_of params in
  getEvents userId params w =
  if (limit_of params <? 0) || (offset <? 0)
  then (Throw (internal_error "Failed to retrieve events"), w)
  else
    let total := match matching with [] => Num 0 | _ :: _ => NaN end in
    (Ok (mkEventsResponse
           (firstn (Z.to_nat (limit_of params))
              (skipn (Z.to_nat offset) (order_by_start_date matching)))
           (mkPagination (page_of params) (limit_of params) total
              (js_ltb (Num (offset + limit_of params)) total)
              (1 <? page_of params))), w).
Proof.
  intros matching offset. unfold getEvents, run_events_query.
  destruct (events_query_text params) as [Ho [Hl Hc]].
  destruct (count_query_text params) as [Hl' Hc'].
  rewrite Ho, Hl, Hc, Hl', Hc'.
  fold (page_of params) (limit_of params). fold matching. fold offset.
  destruct ((limit_of params <? 0) || (offset <? 0)); [reflexivity|].
  unfold mapDatabaseEventToResponse. rewrite event_rows_results, map_id.
  rewrite (total_of_event_rows _ matching); [reflexivity|].
  destruct (includes "ORDER BY start_date ASC" (count_query params));
    [apply order_by_start_date_length | reflexivity].
Qed.

(** A table with one event of user [alice]. *)
Definition one_event : CalendarEvents.Row :=
  CalendarEvents.mkRow 0 "alice" (Some "g-1") "Standup" None
    1735812000000 1735815600000 None [] false "UTC" confirmed google
    1735800000000 1735800000000 1735800000000.

Definition empty_metrics : Metrics := mkMetrics 0 0 0 0 0.

Definition one_event_world : World :=
  mkWorld ∅ ∅ [one_event] None 1 0 0 empty_metrics [].

Definition no_filter : EventsQueryParams :=
  mkEventsQueryParams None None None None None None None.

(** C8, as stated, fails: with one matching event, page 1 and limit 50 have
    [page * limit] above the total, yet the page returned holds the
    event. *)
Lemma getEvents_first_page_not_empty :
  page_of no_filter * limit_of no_filter > count_matching "alice" no_filter one_event_world
  /\ exists r, getEvents "alice" no_filter one_event_world = (Ok r, one_event_world)
               /\ events r = [one_event].
Proof.
  split; [vm_compute; reflexivity|].
  eexists. split; vm_compute; reflexivity.
Qed.

(** The total that the same call returns is not a number: the counting
    query returned the event row, which has no [count]. *)
Lemma getEvents_total_not_a_number :
  exists r, getEvents "alice" no_filter one_event_world = (Ok r, one_event_world)
            /\ total (pagination r) = NaN.
Proof. eexists. split; vm_compute; reflexivity. Qed.

(** C8, amended.  A call of [list] with a page of at least 1 and a limit of
    at least 0 returns; the page returned is empty whenever the offset,
    [(page - 1) * limit], is at least the number of matching events; and
    [hasNext] is false whenever [page * limit] exceeds that number. *)
Theorem getEvents_past_the_end userId params w :
  1 <= page_of params -> 0 <= limit_of params ->
  exists r,
    getEvents userId params w = (Ok r, w)
    /\ (count_matching userId params w <= (page_of params - 1) * limit_of params ->
        events r = [])
    /\ (count_matching userId params w < page_of params * limit_of params ->
        hasNext (pagination r) = false).
Proof.
  intros Hp Hl. rewrite getEvents_unfold.
  replace (limit_of params <? 0) with false by (symmetry; apply Z.ltb_ge; lia).
  replace ((page_of params - 1) * limit_of params <? 0) with false
    by (symmetry; apply Z.ltb_ge; nia).
  simpl. eexists. split; [reflexivity|]. simpl. split.
  - unfold count_matching. intros Hn.
    rewrite skipn_all2; [destruct (Z.to_nat (limit_of params)); reflexivity|].
    rewrite order_by_start_date_length. lia.
  - unfold count_matching. intros Hn.
    destruct (List.filter (event_matches userId params) (calendar_events w));
      simpl in *; [|reflexivity].
    apply Z.ltb_ge. nia.
Qed.

Lemma getEvents_past_the_end_witness :
  exists r,
    getEvents "alice" (mkEventsQueryParams (Some 2) (Some 50) None None None None None)
      one_event_world = (Ok r, one_event_world)
    /\ events r = []
    /\ hasNext (pagination r) = false.
Proof.
  destruct (getEvents_past_the_end "alice"
              (mkEventsQueryParams (Some 2) (Some 50) None None None None None)
              one_event_world) as [r [Hr [He Hn]]].
  - unfold page_of. simpl. lia.
  - unfold limit_of. simpl. lia.
  - exists r. split; [exact Hr|]. split.
    + apply He. unfold count_matching, page_of, limit_of. simpl. lia.
    + apply Hn. unfold count_matching, page_of, limit_of. simpl. lia.
Defined.
(** ** What a computation leaves untouched *)

(** [keeps p m]: running [m] does not change the part [p] of the state,
    whether it returns or throws. *)
Definition keeps {A B} (p : World -> B) (m : M A) : Prop :=
  forall w, p (snd (m w)) = p w.

Lemma keeps_ret {A B} (p : World -> B) (a : A) : keeps p (ret a).
Proof. intros w. reflexivity. Qed.

Lemma keeps_throw {A B} (p : World -> B) e : keeps p (@throw A e).
Proof. intros w. reflexivity. Qed.

Lemma keeps_lift {A B} (p : World -> B) (o : Outcome A) : keeps p (lift o).
Proof. intros w. reflexivity. Qed.

Lemma keeps_gets {A B} (p : World -> B) (f : World -> A) : keeps p (gets f).
Proof. intros w. reflexivity. Qed.

Lemma keeps_modify {B} (p : World -> B) f :
  (forall w, p (f w) = p w) -> keeps p (modify f).
Proof. intros Hf w. apply Hf. Qed.

Lemma keeps_bind {A B C} (p : World -> C) (m : M A) (k : A -> M B) :
  keeps p m -> (forall a, keeps p (k a)) -> keeps p (bind m k).
Proof.
  intros Hm Hk w. unfold bind. specialize (Hm w).
  destruct (m w) as [[a|e] w1]; simpl in *; [|exact Hm].
  rewrite (Hk a w1). exact Hm.
Qed.

Lemma keeps_try_catch {A C} (p : World -> C) (m : M A) h :
  keeps p m -> (forall e, keeps p (h e)) -> keeps p (try_catch m h).
Proof.
  intros Hm Hh w. unfold try_catch. specialize (Hm w).
  destruct (m w) as [[a|e] w1]; simpl in *; [exact Hm|].
  rewrite (Hh e w1). exact Hm.
Qed.

(** The tables of the store other than users. *)
Definition calendar_tables (w : World) :=
  (sync_state w, calendar_events w, tx_events w, next_event_id w).

(** All the tables of the store. *)
Definition tables (w : World) := (users w, calendar_tables w).

Ltac keeps_step :=
  first [ apply keeps_ret | apply keeps_throw | apply keeps_lift | apply keeps_gets
        | apply keeps_bind; [|intros ?]
        | apply keeps_try_catch; [|intros ?] ].

(** ** Token manager *)

Section TokenProperties.
Context `{Vault.KeyedCipher}.
Variable key : string.
Variable env : Env.

Lemma getStoredTokens_state userId w :
  snd (TokenService.getStoredTokens key userId w) = w.
Proof.
  unfold TokenService.getStoredTokens, TokenService.decrypt. unfold_m.
  destruct (users w !! userId) as [row|]; [|reflexivity].
  destruct (truthy (Users.access_token row)) as [a|]; [|reflexivity].
  destruct (Vault.decrypt key a); [|reflexivity].
  destruct (truthy (Users.refresh_token row)) as [r|]; [|reflexivity].
  destruct (Vault.decrypt key r); reflexivity.
Qed.

Lemma keeps_encrypt {B} (p : World -> B) text :
  (forall n w, p (set_random_draws n w) = p w) ->
  keeps p (TokenService.encrypt key env text).
Proof. intros Hp w. apply Hp. Qed.

Lemma storeTokens_keeps userId tokens :
  keeps calendar_tables (TokenService.storeTokens key env userId tokens).
Proof.
  unfold TokenService.storeTokens, TokenService.update_user_tokens.
  repeat keeps_step; try (apply keeps_encrypt; reflexivity).
  destruct (truthy _); repeat keeps_step. apply keeps_encrypt; reflexivity.
Qed.

Lemma refreshGoogleToken_keeps userId :
  keeps calendar_tables (TokenService.refreshGoogleToken key env userId).
Proof.
  unfold TokenService.refreshGoogleToken. keeps_step.
  - keeps_step; [intros w; rewrite getStoredTokens_state; reflexivity|].
    destruct a as [stored|]; [|keeps_step].
    destruct (truthy _); [|keeps_step].
    keeps_step; [intros w; reflexivity|].
    destruct (truthy _); [|keeps_step].
    keeps_step; [apply storeTokens_keeps | keeps_step].
  - destruct (err_class e); keeps_step.
Qed.

Lemma ensureValidToken_keeps userId :
  keeps calendar_tables (TokenService.ensureValidToken key env userId).
Proof.
  unfold TokenService.ensureValidToken.
  keeps_step; [intros w; rewrite getStoredTokens_state; reflexivity|].
  destruct a as [stored|]; [|keeps_step].
  destruct (TokenService.expiresAt stored); [|keeps_step].
  destruct (_ <? _); [|keeps_step].
  keeps_step; [apply refreshGoogleToken_keeps | keeps_step].
Qed.

Lemma getAuthenticatedCalendar_keeps userId :
  keeps calendar_tables (getAuthenticatedCalendar key env userId).
Proof.
  unfold getAuthenticatedCalendar.
  keeps_step; [apply ensureValidToken_keeps | keeps_step].
Qed.

(** The statement of [storeTokens] has three placeholders and is run with
    four values, the user id first: the server refuses the bind.  So
    [storeTokens] throws whatever it is given, having drawn the IVs of the
    texts it wrapped, and nothing is written. *)
Lemma storeTokens_throws userId tokens w :
  TokenService.storeTokens key env userId tokens w =
  (Throw (internal_error "Failed to store authentication tokens"),
   set_random_draws
     match truthy (TokenService.refresh_token tokens) with
     | Some _ => S (S (random_draws w))
     | None => S (random_draws w)
     end w).
Proof.
  unfold TokenService.storeTokens, TokenService.update_user_tokens,
    TokenService.encrypt. unfold_m.
  destruct (truthy (TokenService.refresh_token tokens)); simpl;
    destruct w; reflexivity.
Qed.

(** [getStoredTokens] on a row that holds a wrapped access token, no refresh
    token and the expiry [expires]. *)
Lemma getStoredTokens_wrapped userId w iv access expires :
  users w !! userId
    = Some (Users.mkRow (Some (Vault.encrypt key iv access)) None expires) ->
  TokenService.getStoredTokens key userId w =
  (Ok (Some (TokenService.mkEncryptedTokens access None expires)), w).
Proof.
  intros Hrow.
  assert (Ht : truthy (Some (Vault.encrypt key iv access))
               = Some (Vault.encrypt key iv access))
    by (unfold Vault.encrypt; destruct (Vault.hex_encode iv); reflexivity).
  pose proof (unwrap_wrap key iv access) as Hd.
  unfold TokenService.getStoredTokens, TokenService.decrypt,
    bind, try_catch, ret, throw, gets, lift.
  rewrite Hrow.
  cbn [Users.access_token Users.refresh_token Users.token_expires_at].
  rewrite Ht. cbn [fst snd]. rewrite Hd. reflexivity.
Qed.

(** A refresh ends by storing the refreshed tokens; that store fails, and
    with it the refresh. *)
Lemma refreshGoogleToken_throws userId w :
  exists e w', TokenService.refreshGoogleToken key env userId w = (Throw e, w').
Proof.
  unfold TokenService.refreshGoogleToken, TokenService.call_refreshAccessToken,
    bind, try_catch, ret, throw.
  destruct (TokenService.getStoredTokens key userId w) as [[[stored|]|e0] w0];
    [| eexists _, _; reflexivity | destruct (err_class e0); eexists _, _; reflexivity].
  destruct (truthy (TokenService.refreshToken stored)) as [storedRefresh|] eqn:Hs;
    [| eexists _, _; reflexivity].
  destruct (refreshAccessToken env (api_calls w0) storedRefresh) as [credentials|e1];
    [| destruct (err_class e1); eexists _, _; reflexivity].
  destruct (truthy (Google.access_token credentials)) as [newAccess|];
    [| eexists _, _; reflexivity].
  rewrite storeTokens_throws. eexists _, _. reflexivity.
Qed.

(** What [ensureValidToken] does, by the credentials stored. *)
Lemma ensureValidToken_cases userId w :
  match TokenService.getStoredTokens key userId w with
  | (Throw e, _) => TokenService.ensureValidToken key env userId w = (Throw e, w)
  | (Ok None, _) =>
      TokenService.ensureValidToken key env userId w
      = (Throw (unauthorized "No authentication tokens found"), w)
  | (Ok (Some stored), _) =>
      match TokenService.expiresAt stored with
      | None =>
          TokenService.ensureValidToken key env userId w
          = (Ok (TokenService.accessToken stored), w)
      | Some expires =>
          if expires - now env <? TokenService.bufferTime then
            TokenService.ensureValidToken key env userId w
            = match TokenService.refreshGoogleToken key env userId w with
              | (Ok refreshed, w') => (Ok (TokenService.access_token refreshed), w')
              | (Throw e, w') => (Throw e, w')
              end
          else
            TokenService.ensureValidToken key env userId w
            = (Ok (TokenService.accessToken stored), w)
      end
  end.
Proof.
  pose proof (getStoredTokens_state userId w) as Hw.
  unfold TokenService.ensureValidToken. unfold_m.
  destruct (TokenService.getStoredTokens key userId w) as [[[stored|]|e] w0];
    simpl in Hw; subst w0; try reflexivity.
  destruct (TokenService.expiresAt stored) as [expires|]; [|reflexivity].
  destruct (expires - now env <? TokenService.bufferTime); [|reflexivity].
  destruct (TokenService.refreshGoogleToken key env userId w) as [[refreshed|e] w'];
    reflexivity.
Qed.

End TokenProperties.
(** ** Storing and loading tokens *)

Definition alice_id : string := "3f2504e0-4f89-11d3-9a0c-0305e82c3301".

(** A store that holds the account of [alice_id] and nothing else. *)
Definition signed_up_world : World :=
  mkWorld {[ alice_id := Users.mkRow None None None ]} ∅ [] None 0 0 0
    empty_metrics [].

(** C1 on the code.  The statement of [storeTokens] has three
    placeholders, with [$1] both the new access token and the id of the
    row, and it is run with four values, the user id first.  The server
    refuses such a bind, so [storeTokens] never completes: for every user
    and all tokens it throws, and no row is written.  [getStoredTokens]
    afterwards returns what it returned before, where the claim has it
    return the tokens that were to be stored. *)
Theorem storeTokens_then_getStoredTokens `{Vault.KeyedCipher} key env userId tokens w :
  exists w',
    TokenService.storeTokens key env userId tokens w
    = (Throw (internal_error "Failed to store authentication tokens"), w')
    /\ tables w' = tables w
    /\ fst (TokenService.getStoredTokens key userId w')
       = fst (TokenService.getStoredTokens key userId w).
Proof.
  rewrite storeTokens_throws. eexists. split; [reflexivity|].
  split; [reflexivity|].
  unfold TokenService.getStoredTokens, TokenService.decrypt. unfold_m.
  cbn [users set_random_draws].
  destruct (users w !! userId) as [row|]; [|reflexivity].
  destruct (truthy (Users.access_token row)) as [a|]; [|reflexivity].
  destruct (Vault.decrypt key a); [|reflexivity].
  destruct (truthy (Users.refresh_token row)) as [r|]; [|reflexivity].
  destruct (Vault.decrypt key r); reflexivity.
Qed.

(** ** The validity of the token handed out *)

(** An environment in which Google answers nothing. *)
Definition silent : JsError := plain_error "no answer".

Definition quiet_env : Env :=
  mkEnv 1735812000000 (fun _ => "0123456789abcdef")
    (fun _ _ => Throw silent) (fun _ _ _ => Throw silent) (fun _ _ _ => Throw silent).

(** The guarantee as the specification words it: a token that
    [ensureValidToken] returns is held in the store with an expiry that is
    at least five minutes away. *)
Definition valid_for_five_minutes `{Vault.KeyedCipher} (key : string) (env : Env)
    (userId : string) (w : World) : Prop :=
  forall A w',
    TokenService.ensureValidToken key env userId w = (Ok A, w') ->
    exists stored expires,
      TokenService.getStoredTokens key userId w' = (Ok (Some stored), w')
      /\ TokenService.accessToken stored = A
      /\ TokenService.expiresAt stored = Some expires
      /\ now env + TokenService.bufferTime <= expires.

(** The account of [alice_id] with an access token and no expiry on record,
    as [createUserFromGoogleProfile] leaves it when Google sent none. *)
Definition no_expiry_world : World :=
  mkWorld
    {[ alice_id :=
         Users.mkRow (Some (Vault.encrypt "k" "0123456789abcdef" "ya29.a0AfH6"))
           None None ]}
    ∅ [] None 0 0 0 empty_metrics [].

(** C5, as stated, fails: a stored token without an expiry on record is
    returned as it is. *)
Lemma ensureValidToken_without_expiry :
  TokenService.ensureValidToken "k" quiet_env alice_id no_expiry_world
    = (Ok "ya29.a0AfH6", no_expiry_world)
  /\ ~ valid_for_five_minutes "k" quiet_env alice_id no_expiry_world.
Proof.
  assert (He : TokenService.ensureValidToken "k" quiet_env alice_id no_expiry_world
               = (Ok "ya29.a0AfH6", no_expiry_world)) by (vm_compute; reflexivity).
  split; [exact He|].
  intros Hv. destruct (Hv _ _ He) as [stored [expires [Hs [_ [Hx _]]]]].
  vm_compute in Hs. injection Hs as <-. discriminate Hx.
Qed.

Section EnsureValid.
Context `{Vault.KeyedCipher}.
Variable key : string.
Variable env : Env.

(** C5, amended.  When no credentials are stored, [ensureValidToken] fails
    unauthenticated.  When it returns an access token [A], then either [A]
    is the stored access token, nothing was changed, and the expiry on
    record is absent or at least five minutes after [now]; or the expiry on
    record is less than five minutes after [now], a refresh was performed,
    and [A] is the access token the refresh returned. *)
Theorem ensureValidToken_spec userId w :
  (TokenService.getStoredTokens key userId w = (Ok None, w) ->
   TokenService.ensureValidToken key env userId w
   = (Throw (unauthorized "No authentication tokens found"), w))
  /\ (forall A w',
        TokenService.ensureValidToken key env userId w = (Ok A, w') ->
        exists stored,
          TokenService.getStoredTokens key userId w = (Ok (Some stored), w)
          /\ ((A = TokenService.accessToken stored /\ w' = w
               /\ (TokenService.expiresAt stored = None
                   \/ exists expires,
                        TokenService.expiresAt stored = Some expires
                        /\ now env + TokenService.bufferTime <= expires))
              \/ (exists expires refreshed,
                    TokenService.expiresAt stored = Some expires
                    /\ expires < now env + TokenService.bufferTime
                    /\ TokenService.refreshGoogleToken key env userId w
                       = (Ok refreshed, w')
                    /\ A = TokenService.access_token refreshed))).
Proof.
  pose proof (ensureValidToken_cases key env userId w) as Hc.
  pose proof (getStoredTokens_state key userId w) as Hw.
  destruct (TokenService.getStoredTokens key userId w) as [[[stored|]|e] w0];
    simpl in Hw; subst w0.
  - split; [discriminate|]. intros A w' He. exists stored. split; [reflexivity|].
    destruct (TokenService.expiresAt stored) as [expires|].
    + destruct (expires - now env <? TokenService.bufferTime) eqn:Hb.
      * right. rewrite Hc in He.
        destruct (TokenService.refreshGoogleToken key env userId w)
          as [[refreshed|e] w1]; [|discriminate].
        injection He as <- <-. exists expires, refreshed.
        apply Z.ltb_lt in Hb. repeat split; auto. lia.
      * left. rewrite Hc in He. injection He as <- <-.
        apply Z.ltb_ge in Hb. repeat split; auto. right. exists expires.
        split; [reflexivity | lia].
    + left. rewrite Hc in He. injection He as <- <-. auto.
  - split; [intros _; exact Hc|]. intros A w' He. rewrite Hc in He. discriminate.
  - split; [discriminate|]. intros A w' He. rewrite Hc in He. discriminate.
Qed.

End EnsureValid.
(** ** The retry executor *)

Lemma retry_loop_keeps {T} (op : nat -> Outcome T) config remaining attempt lastError :
  keeps tables (retry_loop op config remaining attempt lastError).
Proof.
  revert attempt lastError.
  induction remaining as [|remaining IH]; intros attempt lastError; simpl.
  - keeps_step.
  - keeps_step; [intros w; reflexivity|].
    destruct a as [result|error].
    + keeps_step; [apply keeps_modify; reflexivity | keeps_step].
    + destruct (isRateLimitError error).
      { keeps_step; [apply keeps_modify; reflexivity|].
        keeps_step; [|apply IH].
        destruct (_ <? _)%nat; [apply keeps_modify; reflexivity | keeps_step]. }
      destruct (isQuotaExceededError error).
      { keeps_step; [apply keeps_modify; reflexivity | keeps_step]. }
      destruct (isAuthError error).
      { keeps_step; [apply keeps_modify; reflexivity | keeps_step]. }
      destruct (isNetworkError error); [|keeps_step].
      keeps_step; [apply keeps_modify; reflexivity|].
      keeps_step; [|apply IH].
      destruct (_ <? _)%nat; [apply keeps_modify; reflexivity | keeps_step].
Qed.

Lemma executeWithRetry_keeps {T} (op : nat -> Outcome T) config :
  keeps tables (executeWithRetry op config).
Proof. apply retry_loop_keeps. Qed.

(** An error that none of the four predicates recognises is thrown on as it
    is, after one attempt. *)
Lemma executeWithRetry_unclassified {T} (op : nat -> Outcome T) config w error :
  op (api_calls w) = Throw error ->
  isRateLimitError error = false -> isQuotaExceededError error = false ->
  isAuthError error = false -> isNetworkError error = false ->
  executeWithRetry op config w = (Throw error, set_api_calls (S (api_calls w)) w).
Proof.
  intros Hop Hr Hq Ha Hn. unfold executeWithRetry. simpl.
  unfold attempt_operation. unfold_m. rewrite Hop, Hr, Hq, Ha, Hn. reflexivity.
Qed.

(** ** Write-through create *)

(** A listing reads the committed events and nothing else. *)
Lemma getEvents_reads_events userId params w w' :
  calendar_events w' = calendar_events w ->
  fst (getEvents userId params w') = fst (getEvents userId params w).
Proof.
  intros He. unfold getEvents. rewrite He.
  repeat match goal with
         | |- context [match run_events_query ?q ?m ?t with _ => _ end] =>
             destruct (run_events_query q m t)
         end; reflexivity.
Qed.

Section CreateEvent.
Context `{Vault.KeyedCipher}.
Variable key : string.
Variable env : Env.

(** Whenever [createEvent] throws, the committed events are those from
    before the call and no transaction is left open. *)
Lemma createEvent_throw_keeps_events userId eventData w e w' :
  createEvent key env userId eventData w = (Throw e, w') ->
  calendar_events w' = calendar_events w /\ tx_events w' = None.
Proof.
  unfold createEvent, client_begin, client_rollback, client_commit. unfold_m.
  set (w0 := set_tx_events (Some (calendar_events w)) w).
  destruct (validateEventInput eventData) as [[]|ev];
    [|intros [= _ <-]; split; reflexivity].
  pose proof (getAuthenticatedCalendar_keeps key env userId w0) as Hk1.
  destruct (getAuthenticatedCalendar key env userId w0) as [[calendar|e1] w1];
    simpl in Hk1; [|intros [= _ <-]; injection Hk1 as _ Hc _ _; split; [exact Hc | reflexivity]].
  destruct (mapInputToGoogleEvent eventData) as [googleEvent|e2];
    [|intros [= _ <-]; injection Hk1 as _ Hc _ _; split; [exact Hc | reflexivity]].
  match goal with |- context [executeWithRetry ?op ?c w1] =>
    pose proof (executeWithRetry_keeps op c w1) as Hk2;
    destruct (executeWithRetry op c w1) as [[googleResponse|e3] w2] end;
    simpl in Hk2;
    [|intros [= _ <-]; injection Hk1 as _ Hc _ _; injection Hk2 as _ _ Hc2 _ _;
      split; [simpl; congruence | reflexivity]].
  destruct (truthy googleResponse) as [googleId|];
    [|intros [= _ <-]; injection Hk1 as _ Hc _ _; injection Hk2 as _ _ Hc2 _ _;
      split; [simpl; congruence | reflexivity]].
  unfold client_insert.
  destruct (insert_into _ _ _ _) as [row|e4];
    [discriminate|].
  intros [= _ <-]. injection Hk1 as _ Hc _ _. injection Hk2 as _ _ Hc2 _ _.
  split; [simpl; congruence | reflexivity].
Qed.

(** C6.  When the input is valid, the client authenticates, and the
    upstream create call, run by the retry executor, ends in the error
    [e], then [createEvent] throws [e] to its caller, the transaction is
    rolled back, the committed events are those from before the call, and
    any listing returns what it returned before. *)
Theorem createEvent_upstream_failure userId eventData w calendar w1 googleEvent e w2 :
  validateEventInput eventData = Ok tt ->
  getAuthenticatedCalendar key env userId
    (set_tx_events (Some (calendar_events w)) w) = (Ok calendar, w1) ->
  mapInputToGoogleEvent eventData = Ok googleEvent ->
  executeWithRetry (fun k => events_insert env k calendar googleEvent)
    DEFAULT_RETRY_CONFIG w1 = (Throw e, w2) ->
  createEvent key env userId eventData w = (Throw e, set_tx_events None w2)
  /\ calendar_events (set_tx_events None w2) = calendar_events w
  /\ tx_events (set_tx_events None w2) = None
  /\ forall user params,
       fst (getEvents user params (set_tx_events None w2))
       = fst (getEvents user params w).
Proof.
  intros Hv Ha Hm Hx.
  assert (Hc : createEvent key env userId eventData w
               = (Throw e, set_tx_events None w2)).
  { unfold createEvent, client_begin, client_rollback. unfold_m.
    rewrite Hv, Ha, Hm, Hx. reflexivity. }
  destruct (createEvent_throw_keeps_events _ _ _ _ _ Hc) as [He Ht].
  repeat split; auto.
  intros user params. apply getEvents_reads_events. exact He.
Qed.

End CreateEvent.

(** The account of [alice_id] with a token that is good for an hour. *)
Definition signed_in_world : World :=
  mkWorld
    {[ alice_id :=
         Users.mkRow (Some (Vault.encrypt "k" "0123456789abcdef" "ya29.a0AfH6"))
           None (Some 1735815600000) ]}
    ∅ [one_event] None 1 0 0 empty_metrics [].

(** An environment in which every request to Google is reset. *)
Definition connection_reset : JsError :=
  mkError PlainError (CodeStr "ECONNRESET") "socket hang up" None None.

Definition offline_env : Env :=
  mkEnv 1735812000000 (fun _ => "0123456789abcdef")
    (fun _ _ => Throw connection_reset) (fun _ _ _ => Throw connection_reset)
    (fun _ _ _ => Throw connection_reset).

Definition planning : CalendarEventInput :=
  mkCalendarEventInput (Some "Planning") None
    (Some (Some 1735898400000)) (Some (Some 1735902000000))
    None (Some [mkAttendee (Some "bob@example.com") None None]) None None None.

Lemma createEvent_upstream_failure_witness :
  createEvent "k" offline_env alice_id planning signed_in_world
    = (Throw connection_reset,
       mkWorld (users signed_in_world) ∅ [one_event] None 1 4 0
         (mkMetrics 0 0 0 4 0) [4000; 2000; 1000])
  /\ fst (getEvents alice_id no_filter
            (mkWorld (users signed_in_world) ∅ [one_event] None 1 4 0
               (mkMetrics 0 0 0 4 0) [4000; 2000; 1000]))
     = fst (getEvents alice_id no_filter signed_in_world).
Proof.
  destruct (createEvent_upstream_failure (H := xor_keyed_cipher) "k" offline_env
              alice_id planning signed_in_world "ya29.a0AfH6"
              (set_tx_events (Some [one_event]) signed_in_world)
              (Google.mkEvent (Some "") (Some "confirmed") None (Some "Planning")
                 None None
                 (Some (Google.mkTime (Some 1735898400000) None (Some "UTC")))
                 (Some (Google.mkTime (Some 1735902000000) None (Some "UTC")))
                 (Some [mkAttendee (Some "bob@example.com") None (Some false)]))
              connection_reset
              (mkWorld (users signed_in_world) ∅ [one_event] (Some [one_event]) 1 4 0
                 (mkMetrics 0 0 0 4 0) [4000; 2000; 1000]))
    as [Hc [_ [_ Hl]]].
  - reflexivity.
  - vm_compute. reflexivity.
  - reflexivity.
  - vm_compute. reflexivity.
  - split; [exact Hc | apply Hl].
Defined.
(** ** The functions of migration 003 *)

(** [start_sync_for_user] refuses exactly when the cursor says that a sync
    is in progress; when it starts a sync, the cursor says so afterwards and
    a second call is refused. *)
Lemma start_sync_for_user_exclusive userId w :
  (fst (start_sync_for_user userId w) = false <->
   exists row, sync_state w !! userId = Some row
               /\ SyncState.sync_in_progress row = true)
  /\ (fst (start_sync_for_user userId w) = true ->
      SyncState.sync_in_progress
        <$> sync_state (snd (start_sync_for_user userId w)) !! userId = Some true
      /\ fst (start_sync_for_user userId (snd (start_sync_for_user userId w))) = false).
Proof.
  unfold start_sync_for_user.
  destruct (sync_state w !! userId) as [row|] eqn:Hrow.
  - destruct (SyncState.sync_in_progress row) eqn:Hp; simpl.
    + split; [|discriminate]. split; [|reflexivity]. intros _. exists row. auto.
    + split.
      * split; [discriminate|]. intros [row' [[= <-] Hp']]. congruence.
      * intros _. rewrite lookup_insert_eq. simpl. split; reflexivity.
  - simpl. split.
    + split; [discriminate|]. intros [row [Hr _]]. discriminate.
    + intros _. rewrite lookup_insert_eq. simpl. split; reflexivity.
Qed.

(** On failure [complete_sync_for_user] clears the flag, records the message
    and counts the error, and leaves the rest of the cursor as it is. *)
Lemma complete_sync_for_user_failure now userId token message w row :
  sync_state w !! userId = Some row ->
  sync_state (complete_sync_for_user now userId token false message w) !! userId
  = Some (SyncState.mkRow (SyncState.next_sync_token row)
            (SyncState.last_sync_time row) (SyncState.full_sync_completed row)
            false message
            (Some (match SyncState.sync_error_count row with
                   | Some n => n
                   | None => 0
                   end + 1))).
Proof.
  intros Hrow. unfold complete_sync_for_user. rewrite Hrow. simpl.
  apply lookup_insert_eq.
Qed.

(** ** The sync engine *)

(** The tables that processing events leaves alone. *)
Definition accounts (w : World) := (users w, sync_state w).

Lemma processGoogleEvent_keeps now userId googleEvent result :
  keeps accounts (processGoogleEvent now userId googleEvent result).
Proof.
  unfold processGoogleEvent, handleDeletedEvent, createEventFromGoogle,
    updateEventFromGoogle.
  destruct (truthy (Google.id googleEvent)) as [googleId|]; [|keeps_step].
  destruct (match Google.status googleEvent with Some _ => _ | None => _ end).
  - keeps_step; [apply keeps_modify; reflexivity | keeps_step].
  - keeps_step; [keeps_step|].
    destruct a as [row|].
    + destruct (date_gtb _ _); [|keeps_step].
      keeps_step; [|keeps_step]. keeps_step; [keeps_step|].
      intros w. destruct (update_rows _ _ _ _ _); reflexivity.
    + keeps_step; [|keeps_step]. keeps_step; [keeps_step|].
      keeps_step; [|keeps_step].
      intros w. unfold db_insert. destruct (insert_into _ _ _ _); reflexivity.
Qed.

Lemma process_items_keeps now userId items result w :
  accounts (snd (process_items now userId items result w)) = accounts w.
Proof.
  revert result w. induction items as [|googleEvent rest IH]; intros result w; simpl.
  - reflexivity.
  - pose proof (processGoogleEvent_keeps now userId googleEvent result w) as Hk.
    destruct (processGoogleEvent now userId googleEvent result w) as [[r|e] w1];
      simpl in Hk; rewrite IH; exact Hk.
Qed.

Section SyncProperties.
Context `{Vault.KeyedCipher}.
Variable key : string.
Variable env : Env.

Lemma sync_pages_keeps fuel calendar userId request pageToken result w r e w' :
  sync_pages env fuel calendar userId request pageToken result w = Some (r, e, w') ->
  accounts w' = accounts w.
Proof.
  revert pageToken result w.
  induction fuel as [|fuel IH]; intros pageToken result w; simpl; [discriminate|].
  match goal with |- context [executeWithRetry ?op ?c w] =>
    pose proof (executeWithRetry_keeps op c w) as Hk;
    destruct (executeWithRetry op c w) as [[response|error] w1] end; simpl in Hk.
  - assert (Ha : accounts w1 = accounts w)
      by (unfold accounts; injection Hk as -> -> _ _ _; reflexivity).
    destruct (Google.items response) as [items|].
    + pose proof (process_items_keeps (now env) userId items result w1) as Hp.
      destruct (process_items (now env) userId items result w1) as [result1 w2].
      simpl in Hp.
      destruct (truthy (Google.nextPageToken response)).
      * intros Hs. apply IH in Hs. congruence.
      * intros [= _ _ <-]. congruence.
    + destruct (truthy (Google.nextPageToken response)).
      * intros Hs. apply IH in Hs. congruence.
      * intros [= _ _ <-]. congruence.
  - intros [= _ _ <-]. unfold accounts. injection Hk as -> -> _ _ _. reflexivity.
Qed.

Lemma performFullSync_keeps fuel userId calendar options w r w' :
  performFullSync env fuel userId calendar options w = Some (r, w') ->
  accounts w' = accounts w.
Proof.
  unfold performFullSync.
  destruct (sync_pages _ _ _ _ _ _ _ _) as [[[result [error|]] w1]|] eqn:Hs;
    [| |discriminate]; intros [= _ <-]; eapply sync_pages_keeps; eauto.
Qed.

(** The options of the fallback differ from those given in [fullSync]
    alone, which [performFullSync] does not read. *)
Lemma performFullSync_with_fullSync fuel userId calendar options w :
  performFullSync env fuel userId calendar (with_fullSync options) w
  = performFullSync env fuel userId calendar options w.
Proof. reflexivity. Qed.

Lemma performIncrementalSync_keeps fuel userId calendar syncToken options w r w' :
  performIncrementalSync env fuel userId calendar syncToken options w = Some (r, w') ->
  accounts w' = accounts w.
Proof.
  unfold performIncrementalSync.
  destruct (sync_pages _ _ _ _ _ _ _ _) as [[[result [error|]] w1]|] eqn:Hs;
    [| |discriminate].
  - apply sync_pages_keeps in Hs. destruct (sync_token_invalid error).
    + intros Hf. apply performFullSync_keeps in Hf. congruence.
    + intros [= _ <-]. exact Hs.
  - intros [= _ <-]. eapply sync_pages_keeps; eauto.
Qed.

(** A page loop whose first request fails ends there, with the result
    object untouched. *)
Lemma sync_pages_first_request_fails fuel calendar userId request result w error w1 :
  executeWithRetry (fun k => events_list env k calendar (request None))
    DEFAULT_RETRY_CONFIG w = (Throw error, w1) ->
  sync_pages env (S fuel) calendar userId request None result w
  = Some (result, Some error, w1).
Proof. intros Hx. simpl. rewrite Hx. reflexivity. Qed.

(** A page loop whose first page is the last one returns. *)
Lemma sync_pages_single_page fuel calendar userId request result w response w1 :
  executeWithRetry (fun k => events_list env k calendar (request None))
    DEFAULT_RETRY_CONFIG w = (Ok response, w1) ->
  truthy (Google.nextPageToken response) = None ->
  exists r w2,
    sync_pages env (S fuel) calendar userId request None result w = Some (r, None, w2).
Proof.
  intros Hx Hn. simpl. rewrite Hx, Hn.
  destruct (Google.items response) as [items|].
  - destruct (process_items (now env) userId items result w1) as [r1 w2].
    eexists _, _. reflexivity.
  - eexists _, _. reflexivity.
Qed.

(** What [syncWithGoogle] writes to the cursor of the user: the upsert of
    [updateSyncState], with the token and the success of the result it
    returns, and with an error message only when the failure was thrown
    to it. *)
Lemma syncWithGoogle_cursor fuel userId options w r w' :
  syncWithGoogle key env fuel userId options w = Some (r, w') ->
  exists error,
    sync_state w' !! userId
    = Some (upsert_sync_state (now env) (res_nextSyncToken r) (success r) error
              (sync_state w !! userId)).
Proof.
  unfold syncWithGoogle.
  pose proof (getAuthenticatedCalendar_keeps key env userId w) as Hk.
  destruct (getAuthenticatedCalendar key env userId w) as [[calendar|e] w1];
    simpl in Hk; injection Hk as Hss _ _ _.
  - match goal with
    | |- match ?synced with Some _ => _ | None => _ end = _ -> _ =>
        destruct synced as [[result w2]|] eqn:Hsynced; [|discriminate]
    end.
    assert (Ha : accounts w2 = accounts w1).
    { destruct (bool_or_false (fullSync options));
        [eapply performFullSync_keeps; eauto|].
      destruct (truthy _); [|eapply performFullSync_keeps; eauto].
      destruct (SyncState.full_sync_completed _);
        [eapply performIncrementalSync_keeps; eauto
        |eapply performFullSync_keeps; eauto]. }
    injection Ha as _ Hs2.
    intros [= <- <-]. exists None. unfold updateSyncState, modify, set_sync_state.
    simpl. rewrite lookup_insert_eq, Hs2, Hss. reflexivity.
  - intros [= <- <-]. exists (Some (err_message e)).
    unfold updateSyncState, modify, set_sync_state.
    simpl. rewrite lookup_insert_eq, Hss. reflexivity.
Qed.

(** [syncWithGoogle] neither tests nor sets [sync_in_progress]: the flag of
    a cursor that exists is after the call what it was before. *)
Lemma syncWithGoogle_keeps_in_progress fuel userId options w r w' row :
  syncWithGoogle key env fuel userId options w = Some (r, w') ->
  sync_state w !! userId = Some row ->
  SyncState.sync_in_progress <$> sync_state w' !! userId
  = Some (SyncState.sync_in_progress row).
Proof.
  intros Hs Hrow. apply syncWithGoogle_cursor in Hs as [error ->].
  rewrite Hrow. reflexivity.
Qed.

(** After every run, failed ones included, the token of the cursor is the
    one of the result, whatever token was stored before. *)
Lemma syncWithGoogle_failure_token fuel userId options w r w' :
  syncWithGoogle key env fuel userId options w = Some (r, w') ->
  SyncState.next_sync_token <$> sync_state w' !! userId = Some (res_nextSyncToken r).
Proof.
  intros Hs. apply syncWithGoogle_cursor in Hs as [error ->].
  destruct (sync_state w !! userId); reflexivity.
Qed.

(** C4.  When the page loop of an incremental sync ends in an error that
    names the sync token as invalid (code 410, or the message of Google),
    [performIncrementalSync] is the full sync under the same options, run
    from the state the failed request left; and for a user with a cursor,
    [syncWithGoogle] returns the result of that full sync and records
    it. *)
Theorem syncWithGoogle_cursor_invalidated
    fuel userId options w calendar w0 row syncToken result error w1 :
  getAuthenticatedCalendar key env userId w = (Ok calendar, w0) ->
  bool_or_false (fullSync options) = false ->
  sync_state w0 !! userId = Some row ->
  truthy (SyncState.next_sync_token row) = Some syncToken ->
  SyncState.full_sync_completed row = true ->
  sync_pages env fuel calendar userId (incremental_sync_request syncToken options)
    None fresh_result w0 = Some (result, Some error, w1) ->
  sync_token_invalid error = true ->
  performIncrementalSync env fuel userId calendar syncToken options w0
  = performFullSync env fuel userId calendar options w1
  /\ syncWithGoogle key env fuel userId options w
     = match performFullSync env fuel userId calendar options w1 with
       | Some (full, w2) =>
           Some (full,
                 snd (updateSyncState (now env) userId (res_nextSyncToken full)
                        (success full) None w2))
       | None => None
       end.
Proof.
  intros Ha Hf Hrow Htok Hfull Hpages Hinv.
  assert (Hinc : performIncrementalSync env fuel userId calendar syncToken options w0
                 = performFullSync env fuel userId calendar options w1).
  { unfold performIncrementalSync. rewrite Hpages, Hinv.
    apply performFullSync_with_fullSync. }
  split; [exact Hinc|].
  unfold syncWithGoogle. rewrite Ha, Hf. unfold getSyncState.
  rewrite Hrow, Htok, Hfull, Hinc.
  destruct (performFullSync env fuel userId calendar options w1) as [[full w2]|];
    reflexivity.
Qed.

End SyncProperties.
(** ** Sync scenarios *)

Definition no_options : SyncOptions := mkSyncOptions None None None None.

Definition review : Google.Event :=
  Google.mkEvent (Some "evt-a") (Some "confirmed") (Some 1735800000000)
    (Some "Review") None None
    (Some (Google.mkTime (Some 1735898400000) None (Some "Europe/Zagreb")))
    (Some (Google.mkTime (Some 1735902000000) None (Some "Europe/Zagreb")))
    None.

Definition offsite : Google.Event :=
  Google.mkEvent (Some "evt-b") (Some "tentative") (Some 1735800000000)
    (Some "Offsite") None None
    (Some (Google.mkTime None (Some 1735948800000) None))
    (Some (Google.mkTime None (Some 1736035200000) None))
    None.

Definition one_page : Google.ListResponse :=
  Google.mkListResponse (Some [review; offsite]) None (Some "nst-2").

(** The cursor of [alice_id] after a full sync that left the token [nst-x]. *)
Definition cursor_row (in_progress : bool) : SyncState.Row :=
  SyncState.mkRow (Some "nst-x") (Some 1735725600000) true in_progress None (Some 0).

Definition cursor_world (in_progress : bool) : World :=
  mkWorld (users signed_in_world) {[ alice_id := cursor_row in_progress ]}
    [] None 0 0 0 empty_metrics [].

(** Google answers a request that carries a sync token with 410 Gone, and
    any other request with [one_page]. *)
Definition gone : JsError :=
  mkError PlainError (CodeNum 410)
    "Sync token is no longer valid, a full sync is required." None None.

Definition invalidated_env : Env :=
  mkEnv 1735812000000 (fun _ => "0123456789abcdef")
    (fun _ _ => Throw silent)
    (fun _ _ request =>
       match Google.syncToken request with
       | Some _ => Throw gone
       | None => Ok one_page
       end)
    (fun _ _ _ => Throw silent).

(** Google answers every request with [one_page]. *)
Definition steady_env : Env :=
  mkEnv 1735812000000 (fun _ => "0123456789abcdef")
    (fun _ _ => Throw silent) (fun _ _ _ => Ok one_page) (fun _ _ _ => Throw silent).

(** Google answers every request with a server error. *)
Definition backend_error : JsError :=
  mkError PlainError (CodeNum 500) "Backend Error" None None.

Definition failing_env : Env :=
  mkEnv 1735812000000 (fun _ => "0123456789abcdef")
    (fun _ _ => Throw silent) (fun _ _ _ => Throw backend_error)
    (fun _ _ _ => Throw silent).

Lemma syncWithGoogle_cursor_invalidated_witness :
  exists w',
    syncWithGoogle "k" invalidated_env 3 alice_id no_options (cursor_world false)
    = Some (mkCalendarSyncResult true 2 2 0 0 (Some "nst-2") [], w')
    /\ SyncState.next_sync_token <$> sync_state w' !! alice_id = Some (Some "nst-2").
Proof.
  destruct (syncWithGoogle_cursor_invalidated (H := xor_keyed_cipher)
              "k" invalidated_env 3 alice_id no_options (cursor_world false)
              "ya29.a0AfH6" (cursor_world false) (cursor_row false) "nst-x"
              fresh_result gone (set_api_calls 1 (cursor_world false)))
    as [_ Hsync].
  - vm_compute. reflexivity.
  - reflexivity.
  - vm_compute. reflexivity.
  - reflexivity.
  - reflexivity.
  - vm_compute. reflexivity.
  - reflexivity.
  - rewrite Hsync. eexists. split; vm_compute; reflexivity.
Defined.

(** C2 on the code.  The cursor of the user says that a sync is in
    progress, and [start_sync_for_user], the transition of migration 003,
    refuses to start another.  [syncWithGoogle] runs all the same: it
    fetches and stores the two events, returns success, and leaves the flag
    as it found it. *)
Theorem syncWithGoogle_while_in_progress :
  fst (start_sync_for_user alice_id (cursor_world true)) = false
  /\ exists w',
       syncWithGoogle "k" steady_env 3 alice_id no_options (cursor_world true)
       = Some (mkCalendarSyncResult true 2 2 0 0 (Some "nst-2") [], w')
       /\ length (calendar_events w') = 2%nat
       /\ SyncState.sync_in_progress <$> sync_state w' !! alice_id = Some true.
Proof.
  split; [vm_compute; reflexivity|]. eexists.
  split; [|split]; vm_compute; reflexivity.
Qed.

(** C3 on the code.  The cursor holds the token [nst-x]; the run fails on
    its first request.  Afterwards the token is gone, and no error message
    is on record; the error counter went up by one and
    [full_sync_completed] stayed.  [complete_sync_for_user], the function
    of migration 003 for the same step, keeps the token and records the
    message. *)
Theorem syncWithGoogle_failure_overwrites_token :
  sync_state (cursor_world false) !! alice_id
  = Some (SyncState.mkRow (Some "nst-x") (Some 1735725600000) true false None (Some 0))
  /\ (exists r w',
        syncWithGoogle "k" failing_env 3 alice_id no_options (cursor_world false)
        = Some (r, w')
        /\ success r = false
        /\ sync_state w' !! alice_id
           = Some (SyncState.mkRow None (Some 1735725600000) true false None (Some 1)))
  /\ sync_state
       (complete_sync_for_user 1735812000000 alice_id None false
          (Some "Backend Error") (cursor_world false)) !! alice_id
     = Some (SyncState.mkRow (Some "nst-x") (Some 1735725600000) true false
               (Some "Backend Error") (Some 1)).
Proof.
  split; [vm_compute; reflexivity|]. split.
  - eexists _, _. split; [|split]; vm_compute; reflexivity.
  - vm_compute. reflexivity.
Qed.
(** * Further properties

    ** Token manager: wrapped texts *)

(** The number of occurrences of [c] in [s]. *)
Fixpoint occurrences (c : ascii) (s : string) : nat :=
  match s with
  | EmptyString => O
  | String d r => (if Ascii.eqb d c then 1 else 0) + occurrences c r
  end.

Lemma split_on_length sep s :
  length (split_on sep s) = S (occurrences sep s).
Proof.
  induction s as [|c r IH]; simpl; [reflexivity|].
  destruct (Ascii.eqb c sep); simpl; [rewrite IH; reflexivity|].
  destruct (split_on sep r); simpl in *; congruence.
Qed.

Section WrappedTexts.
Context `{Vault.KeyedCipher}.
Variable key : string.

(** X1. [decrypt] refuses every text that does not hold exactly one
    colon, whatever the key: it throws the [InternalServerError] "Failed to
    decrypt token". *)
Theorem decrypt_needs_one_colon text :
  occurrences ":" text <> 1%nat ->
  Vault.decrypt key text = Throw (internal_error "Failed to decrypt token").
Proof.
  intros Hn. unfold Vault.decrypt.
  pose proof (split_on_length ":" text) as Hl.
  destruct (split_on ":" text) as [|a [|b [|c l]]]; try reflexivity.
  simpl in Hl. congruence.
Qed.

End WrappedTexts.

Lemma decrypt_needs_one_colon_witness :
  Vault.decrypt "k" "00ff:2a2b:00" = Throw (internal_error "Failed to decrypt token").
Proof.
  apply (decrypt_needs_one_colon (H := xor_keyed_cipher) "k" "00ff:2a2b:00").
  vm_compute. lia.
Defined.

(** ** Token manager: refresh, revocation and login *)

Lemma truthy_wrapped `{Vault.KeyedCipher} key iv text :
  truthy (Some (Vault.encrypt key iv text)) = Some (Vault.encrypt key iv text).
Proof. unfold Vault.encrypt. destruct (Vault.hex_encode iv); reflexivity. Qed.

Section AccountProperties.
Context `{Vault.KeyedCipher}.
Variable key : string.
Variable env : Env.
Variable revokeToken : nat -> string -> Outcome unit.

Lemma refreshGoogleToken_fails userId w :
  exists e w',
    TokenService.refreshGoogleToken key env userId w = (Throw e, w')
    /\ tables w' = tables w
    /\ (api_calls w' <= S (api_calls w))%nat.
Proof.
  pose proof (getStoredTokens_state key userId w) as Hw.
  unfold TokenService.refreshGoogleToken, TokenService.call_refreshAccessToken,
    bind, try_catch, ret, throw.
  destruct (TokenService.getStoredTokens key userId w) as [[[stored|]|e0] w0];
    simpl in Hw; subst w0;
    [| eexists _, _; split; [reflexivity|]; split; [reflexivity | lia]
     | destruct (err_class e0); eexists _, _;
       (split; [reflexivity|]; split; [reflexivity | lia])].
  destruct (truthy (TokenService.refreshToken stored)) as [storedRefresh|] eqn:Hs;
    [| eexists _, _; split; [reflexivity|]; split; [reflexivity | lia]].
  destruct (refreshAccessToken env (api_calls w) storedRefresh) as [credentials|e1];
    [| destruct (err_class e1); eexists _, _;
       (split; [reflexivity|]; split; [reflexivity | simpl; lia])].
  destruct (truthy (Google.access_token credentials)) as [newAccess|];
    [| eexists _, _; split; [reflexivity|]; split; [reflexivity | simpl; lia]].
  rewrite storeTokens_throws.
  eexists _, _. split; [reflexivity|]. split; [reflexivity | simpl; lia].
Qed.

(** X2. [refreshGoogleToken] never returns: it ends by storing the
    refreshed tokens, and [storeTokens] throws on every call.  It throws
    having sent at most one request to Google and having changed no
    table. *)
Theorem refreshGoogleToken_never_returns userId w :
  exists e w',
    TokenService.refreshGoogleToken key env userId w = (Throw e, w')
    /\ tables w' = tables w
    /\ (api_calls w' <= S (api_calls w))%nat.
Proof. apply refreshGoogleToken_fails. Qed.

(** Authentication reads the tables and writes none of them. *)
Lemma ensureValidToken_tables userId w :
  tables (snd (TokenService.ensureValidToken key env userId w)) = tables w.
Proof.
  pose proof (getStoredTokens_state key userId w) as Hw.
  pose proof (ensureValidToken_cases key env userId w) as Hc.
  destruct (TokenService.getStoredTokens key userId w) as [[[stored|]|e0] w0];
    simpl in Hw; subst w0; try (rewrite Hc; reflexivity).
  destruct (TokenService.expiresAt stored) as [expires|];
    [|rewrite Hc; reflexivity].
  destruct (expires - now env <? TokenService.bufferTime);
    [|rewrite Hc; reflexivity].
  destruct (refreshGoogleToken_fails userId w) as [e [w1 [Hr [Ht _]]]].
  rewrite Hc, Hr. exact Ht.
Qed.

Lemma getAuthenticatedCalendar_tables userId w :
  tables (snd (getAuthenticatedCalendar key env userId w)) = tables w.
Proof.
  pose proof (ensureValidToken_tables userId w) as Ht.
  unfold getAuthenticatedCalendar, try_catch, throw.
  destruct (TokenService.ensureValidToken key env userId w) as [[token|e] w1];
    exact Ht.
Qed.

(** X3. Whenever [ensureValidToken] returns a token, it is the stored
    access token, unwrapped, of a row whose expiry is absent or at least
    five minutes ahead, and nothing was written or requested: a token that
    is about to expire is never replaced. *)
Theorem ensureValidToken_returns_stored userId w token w' :
  TokenService.ensureValidToken key env userId w = (Ok token, w') ->
  w' = w
  /\ exists stored,
       TokenService.getStoredTokens key userId w = (Ok (Some stored), w)
       /\ token = TokenService.accessToken stored
       /\ match TokenService.expiresAt stored with
          | Some expires => TokenService.bufferTime <= expires - now env
          | None => True
          end.
Proof.
  pose proof (getStoredTokens_state key userId w) as Hw.
  pose proof (ensureValidToken_cases key env userId w) as Hc.
  destruct (TokenService.getStoredTokens key userId w) as [[[stored|]|e0] w0];
    simpl in Hw; subst w0; try (rewrite Hc; discriminate).
  destruct (TokenService.expiresAt stored) as [expires|] eqn:He.
  - destruct (expires - now env <? TokenService.bufferTime) eqn:Hb.
    + destruct (refreshGoogleToken_throws key env userId w) as [e [w1 Hr]].
      rewrite Hc, Hr. discriminate.
    + rewrite Hc. intros [= <- <-]. split; [reflexivity|].
      exists stored. rewrite He. apply Z.ltb_ge in Hb. auto.
  - rewrite Hc. intros [= <- <-]. split; [reflexivity|].
    exists stored. rewrite He. auto.
Qed.

(** X4. When the stored tokens of the user can be read, [revokeTokens]
    returns whether or not Google accepted the revocation, and afterwards
    [getStoredTokens] finds no tokens; the rows of other users and the
    other tables are as before.  When they cannot be read (a stored text
    that does not decrypt), it throws and clears nothing. *)
Theorem revokeTokens_spec userId w :
  match TokenService.getStoredTokens key userId w with
  | (Ok _, _) =>
      exists w',
        revokeTokens key revokeToken userId w = (Ok tt, w')
        /\ TokenService.getStoredTokens key userId w' = (Ok None, w')
        /\ (forall u, u <> userId -> users w' !! u = users w !! u)
        /\ calendar_tables w' = calendar_tables w
  | (Throw _, _) =>
      revokeTokens key revokeToken userId w
      = (Throw (internal_error "Failed to revoke authentication tokens"), w)
  end.
Proof.
  pose proof (getStoredTokens_state key userId w) as Hw.
  unfold revokeTokens, call_revokeToken, clear_user_tokens,
    bind, try_catch, ret, throw, modify.
  destruct (TokenService.getStoredTokens key userId w) as [[stored|e0] w0];
    simpl in Hw; subst w0; [|reflexivity].
  assert (Hclear : forall w1,
    users w1 = users w ->
    let w2 := set_users (fun t => match t !! userId with
                                  | Some _ => <[userId := Users.mkRow None None None]> t
                                  | None => t
                                  end) w1 in
    TokenService.getStoredTokens key userId w2 = (Ok None, w2)
    /\ forall u, u <> userId -> users w2 !! u = users w !! u).
  { intros w1 Hu w2. subst w2.
    unfold TokenService.getStoredTokens, bind, try_catch, ret, gets, set_users.
    cbn [users]. rewrite Hu.
    destruct (users w !! userId) as [row|] eqn:Hrow.
    - rewrite lookup_insert_eq. split; [reflexivity|].
      intros u Hne. apply lookup_insert_ne. congruence.
    - rewrite Hrow. split; [reflexivity | reflexivity]. }
  destruct stored as [stored|].
  - destruct (truthy (Some (TokenService.accessToken stored))) as [accessToken|].
    + destruct (revokeToken (api_calls w) accessToken) as [[]|e1].
      * destruct (Hclear (set_api_calls (S (api_calls w)) w) eq_refl) as [Hg Ho].
        eexists. split; [reflexivity|]. split; [exact Hg|]. split; [exact Ho | reflexivity].
      * destruct (Hclear (set_api_calls (S (api_calls w)) w) eq_refl) as [Hg Ho].
        eexists. split; [reflexivity|]. split; [exact Hg|]. split; [exact Ho | reflexivity].
    + destruct (Hclear w eq_refl) as [Hg Ho].
      eexists. split; [reflexivity|]. split; [exact Hg|]. split; [exact Ho | reflexivity].
  - destruct (Hclear w eq_refl) as [Hg Ho].
    eexists. split; [reflexivity|]. split; [exact Hg|]. split; [exact Ho | reflexivity].
Qed.

(** The statement of [updateUserFromGoogleProfile] binds each value to the
    column it is meant for. *)
Lemma update_user_profile_runs name pictureUrl access refresh expires userId w :
  fits_varchar 255 name = true ->
  update_user_profile
    [SqlText name; sql_text pictureUrl; SqlText access; sql_text refresh;
     sql_timestamp expires; SqlText userId] w
  = match users w !! userId with
    | Some _ =>
        (Ok [Users.mkRow (Some access) refresh expires],
         set_users <[userId := Users.mkRow (Some access) refresh expires]> w)
    | None => (Ok [], w)
    end.
Proof.
  intros Hfit. unfold update_user_profile.
  destruct pictureUrl, refresh, expires; simpl; rewrite Hfit; reflexivity.
Qed.

(** X5. The login path stores what [getStoredTokens] reads back: for a
    user that has a row and a profile whose name fits its column,
    [updateUserFromGoogleProfile] returns the row it wrote, and
    [getStoredTokens] then returns the access token, the refresh token (if
    there was one) and the expiry that were passed in. *)
Theorem updateUserFromGoogleProfile_then_getStoredTokens
    userId profile tokens w row :
  users w !! userId = Some row ->
  fits_varchar 255 (profile_name profile) = true ->
  exists written w',
    updateUserFromGoogleProfile key env userId profile tokens w
      = (Ok (Some written), w')
    /\ users w' !! userId = Some written
    /\ TokenService.getStoredTokens key userId w'
       = (Ok (Some (TokenService.mkEncryptedTokens
                      (TokenService.access_token tokens)
                      (truthy (TokenService.refresh_token tokens))
                      (TokenService.expires_at tokens))), w').
Proof.
  intros Hrow Hfit.
  unfold updateUserFromGoogleProfile, TokenService.encrypt,
    bind, try_catch, ret, throw.
  destruct (truthy (TokenService.refresh_token tokens)) as [r|] eqn:Hr;
    rewrite (update_user_profile_runs _ _ _ _ _ _ _ Hfit);
    cbn [users set_random_draws sql_text]; rewrite Hrow; cbn [head];
    eexists _, _; (split; [reflexivity|]);
    (split; [cbn [users set_users]; apply lookup_insert_eq|]);
    unfold TokenService.getStoredTokens, TokenService.decrypt,
      bind, try_catch, ret, throw, gets, lift;
    cbn [users set_users]; rewrite lookup_insert_eq;
    cbn [Users.access_token Users.refresh_token Users.token_expires_at];
    rewrite ?truthy_wrapped; cbn [fst snd truthy]; rewrite ?unwrap_wrap;
    reflexivity.
Qed.

End AccountProperties.

Lemma ensureValidToken_returns_stored_witness :
  signed_in_world = signed_in_world
  /\ exists stored,
       TokenService.getStoredTokens "k" alice_id signed_in_world
         = (Ok (Some stored), signed_in_world)
       /\ "ya29.a0AfH6" = TokenService.accessToken stored
       /\ match TokenService.expiresAt stored with
          | Some expires => TokenService.bufferTime <= expires - now offline_env
          | None => True
          end.
Proof.
  apply (ensureValidToken_returns_stored (H := xor_keyed_cipher) "k" offline_env
           alice_id signed_in_world "ya29.a0AfH6" signed_in_world).
  vm_compute. reflexivity.
Defined.

(** The tokens that a login hands over, and the profile that comes with
    them. *)
Definition login_tokens : TokenService.GoogleTokens :=
  TokenService.mkGoogleTokens "ya29.a0AfH6" (Some "1//0gRefresh")
    (Some 1735815600000) None.

Definition alice_profile : GoogleProfile.t :=
  GoogleProfile.mk None (Some "Alice") (Some "Liddell") None.

Lemma updateUserFromGoogleProfile_then_getStoredTokens_witness :
  exists written w',
    updateUserFromGoogleProfile "k" offline_env alice_id alice_profile login_tokens
      signed_up_world = (Ok (Some written), w')
    /\ users w' !! alice_id = Some written
    /\ TokenService.getStoredTokens "k" alice_id w'
       = (Ok (Some (TokenService.mkEncryptedTokens "ya29.a0AfH6"
                      (Some "1//0gRefresh") (Some 1735815600000))), w').
Proof.
  apply (updateUserFromGoogleProfile_then_getStoredTokens (H := xor_keyed_cipher)
           "k" offline_env alice_id alice_profile login_tokens signed_up_world
           (Users.mkRow None None None)).
  - vm_compute. reflexivity.
  - vm_compute. reflexivity.
Defined.

(** ** The OAuth state *)

(** X6. A state that [storeStateToken] stored is accepted by
    [validateStateToken] once, within ten minutes: a second validation
    fails whenever it is made, and so does a first one made ten minutes or
    more after the state was stored, which leaves the row in place. *)
Theorem state_token_single_use now accounts state userId t later :
  fst (storeStateToken now accounts state userId t) = Ok tt ->
  later < now + 10 * 60 * 1000 ->
  let t1 := snd (storeStateToken now accounts state userId t) in
  fst (validateStateToken later state t1) = true
  /\ (forall again,
        fst (validateStateToken again state (snd (validateStateToken later state t1)))
        = false)
  /\ (forall late, now + 10 * 60 * 1000 <= late ->
        validateStateToken late state t1 = (false, t1)).
Proof.
  unfold storeStateToken.
  destruct (fits_varchar 64 state && _); [|discriminate].
  intros _ Hlater. cbv zeta. cbn [snd]. unfold validateStateToken.
  rewrite lookup_insert_eq. cbn [OAuthStates.expires_at].
  replace (later <? now + 10 * 60 * 1000) with true by (symmetry; apply Z.ltb_lt; lia).
  split; [reflexivity|]. split.
  - intros again. cbn [snd]. rewrite lookup_delete_eq. reflexivity.
  - intros late Hlate.
    replace (late <? now + 10 * 60 * 1000) with false by (symmetry; apply Z.ltb_ge; lia).
    reflexivity.
Qed.

Lemma state_token_single_use_witness :
  let t1 := snd (storeStateToken 1735812000000 ∅ "5f2b6c9d" None ∅) in
  fst (validateStateToken 1735812300000 "5f2b6c9d" t1) = true
  /\ (forall again,
        fst (validateStateToken again "5f2b6c9d"
               (snd (validateStateToken 1735812300000 "5f2b6c9d" t1))) = false)
  /\ (forall late, 1735812000000 + 10 * 60 * 1000 <= late ->
        validateStateToken late "5f2b6c9d" t1 = (false, t1)).
Proof.
  apply (state_token_single_use 1735812000000 ∅ "5f2b6c9d" None ∅ 1735812300000).
  - reflexivity.
  - lia.
Defined.

(** X7. [cleanupExpiredStates] keeps exactly the states that have not
    expired; and a validation made at the time of the cleanup or at any
    time after it is answered as it would have been without the cleanup,
    and leaves the table that the cleanup would have left after it. *)
Theorem cleanupExpiredStates_spec now t :
  (forall state row,
     cleanupExpiredStates now t !! state = Some row
     <-> t !! state = Some row /\ now < OAuthStates.expires_at row)
  /\ (forall later state, now <= later ->
        validateStateToken later state (cleanupExpiredStates now t)
        = (fst (validateStateToken later state t),
           cleanupExpiredStates now (snd (validateStateToken later state t)))).
Proof.
  assert (Hl : forall state row,
    cleanupExpiredStates now t !! state = Some row
    <-> t !! state = Some row /\ now < OAuthStates.expires_at row).
  { intros state row. unfold cleanupExpiredStates.
    rewrite map_lookup_filter_Some. reflexivity. }
  split; [exact Hl|].
  intros later state Hle. unfold validateStateToken.
  destruct (cleanupExpiredStates now t !! state) as [row|] eqn:Hc.
  - apply Hl in Hc as [Ht Hnow]. rewrite Ht.
    destruct (later <? OAuthStates.expires_at row); [|reflexivity].
    cbn [fst snd]. unfold cleanupExpiredStates.
    rewrite map_filter_delete. reflexivity.
  - destruct (t !! state) as [row|] eqn:Ht; [|reflexivity].
    destruct (later <? OAuthStates.expires_at row) eqn:Hlater; [|reflexivity].
    apply Z.ltb_lt in Hlater.
    assert (Hin : cleanupExpiredStates now t !! state = Some row)
      by (apply Hl; split; [exact Ht | lia]).
    congruence.
Qed.
(** ** The retry executor: what it costs and when it gives up *)

(** An error that the executor takes for a network error: none of the three
    tests made before that one recognises it. *)
Definition retried_as_network (e : JsError) : bool :=
  negb (isRateLimitError e) && negb (isQuotaExceededError e)
  && negb (isAuthError e) && isNetworkError e.

(** The state after attempt number [attempt] has failed on a network
    error: the request is counted, and the back-off is waited for unless
    this was the last attempt. *)
Definition after_network_error (config : RetryConfig) (attempt : nat) (w : World)
    : World :=
  let w1 := set_metrics count_network (set_api_calls (S (api_calls w)) w) in
  if (attempt <? maxRetries config)%nat
  then push_sleep (calculateBackoffDelay attempt config) w1
  else w1.

Fixpoint after_network_errors (config : RetryConfig) (n attempt : nat) (w : World)
    : World :=
  match n with
  | O => w
  | S n' =>
      after_network_errors config n' (S attempt) (after_network_error config attempt w)
  end.

Lemma after_network_errors_api_calls config n attempt w :
  api_calls (after_network_errors config n attempt w) = (api_calls w + n)%nat.
Proof.
  revert attempt w. induction n as [|n IH]; intros attempt w; simpl; [lia|].
  rewrite IH. unfold after_network_error.
  destruct (attempt <? maxRetries config)%nat; simpl; lia.
Qed.

Lemma after_network_errors_tables config n attempt w :
  tables (after_network_errors config n attempt w) = tables w.
Proof.
  revert attempt w. induction n as [|n IH]; intros attempt w; simpl; [reflexivity|].
  rewrite IH. unfold after_network_error.
  destruct (attempt <? maxRetries config)%nat; reflexivity.
Qed.

Lemma after_network_errors_metrics config n attempt w :
  metrics (after_network_errors config n attempt w)
  = mkMetrics (apiCallsCount (metrics w)) (rateLimitHits (metrics w))
      (quotaExceededCount (metrics w)) (networkErrors (metrics w) + n)
      (authErrors (metrics w)).
Proof.
  revert attempt w. induction n as [|n IH]; intros attempt w; simpl.
  - rewrite Nat.add_0_r. destruct (metrics w); reflexivity.
  - rewrite IH. unfold after_network_error.
    destruct (attempt <? maxRetries config)%nat; simpl; f_equal; lia.
Qed.

Lemma after_network_errors_sleeps config n attempt w :
  (attempt + n <= maxRetries config)%nat ->
  sleeps (after_network_errors config n attempt w)
  = (rev (map (fun a => calculateBackoffDelay a config) (seq attempt n))
     ++ sleeps w)%list.
Proof.
  revert attempt w. induction n as [|n IH]; intros attempt w Hle; simpl; [reflexivity|].
  rewrite IH by lia. unfold after_network_error.
  replace (attempt <? maxRetries config)%nat with true
    by (symmetry; apply Nat.ltb_lt; lia).
  simpl. rewrite <- app_assoc. reflexivity.
Qed.

(** The last attempt is not followed by a wait. *)
Lemma after_last_network_error_sleeps config w :
  sleeps (after_network_error config (maxRetries config) w) = sleeps w.
Proof.
  unfold after_network_error. rewrite Nat.ltb_irrefl. reflexivity.
Qed.

Lemma after_network_errors_snoc config n attempt w :
  after_network_errors config (S n) attempt w
  = after_network_error config (attempt + n)
      (after_network_errors config n attempt w).
Proof.
  revert attempt w. induction n as [|n IH]; intros attempt w.
  - simpl. rewrite Nat.add_0_r. reflexivity.
  - change (after_network_errors config (S (S n)) attempt w)
      with (after_network_errors config (S n) (S attempt)
              (after_network_error config attempt w)).
    rewrite IH. replace (S attempt + n)%nat with (attempt + S n)%nat by lia.
    reflexivity.
Qed.

Section Retry.
Context {T : Type}.
Variable op : nat -> Outcome T.
Variable config : RetryConfig.

Lemma retry_loop_network_step remaining attempt lastError w e :
  op (api_calls w) = Throw e -> retried_as_network e = true ->
  retry_loop op config (S remaining) attempt lastError w
  = retry_loop op config remaining (S attempt) e
      (after_network_error config attempt w).
Proof.
  unfold retried_as_network. rewrite !andb_true_iff, !negb_true_iff.
  intros Hop [[[Hr Hq] Ha] Hn]. simpl.
  unfold attempt_operation, after_network_error, delay, bind, ret, modify.
  rewrite Hop, Hr, Hq, Ha, Hn.
  destruct (attempt <? maxRetries config)%nat; reflexivity.
Qed.

(** [n] attempts in a row that fail on network errors, [errs] being what
    they throw. *)
Lemma retry_loop_network_errors n (errs : nat -> JsError) remaining attempt lastError w :
  (forall i, (i < n)%nat ->
     op (api_calls w + i)%nat = Throw (errs i)
     /\ retried_as_network (errs i) = true) ->
  retry_loop op config (n + remaining) attempt lastError w
  = retry_loop op config remaining (attempt + n)
      (match n with O => lastError | S k => errs k end)
      (after_network_errors config n attempt w).
Proof.
  revert errs attempt lastError w.
  induction n as [|n IH]; intros errs attempt lastError w Hall.
  - simpl. rewrite Nat.add_0_r. reflexivity.
  - destruct (Hall O ltac:(lia)) as [H0 Hc0]. rewrite Nat.add_0_r in H0.
    change (S n + remaining)%nat with (S (n + remaining)).
    rewrite (retry_loop_network_step _ _ _ _ _ H0 Hc0).
    rewrite (IH (fun i => errs (S i))).
    + replace (S attempt + n)%nat with (attempt + S n)%nat by lia.
      destruct n; reflexivity.
    + intros i Hi. destruct (Hall (S i) ltac:(lia)) as [Hi1 Hi2].
      split; [|exact Hi2]. rewrite <- Hi1. f_equal.
      unfold after_network_error.
      destruct (attempt <? maxRetries config)%nat; simpl; lia.
Qed.

(** What one call of the loop costs, whatever the operation answers. *)
Lemma retry_loop_bounds remaining attempt lastError w :
  let r := retry_loop op config remaining attempt lastError w in
  (api_calls w <= api_calls (snd r) <= api_calls w + remaining)%nat
  /\ (0 < remaining -> api_calls w < api_calls (snd r))%nat
  /\ (length (sleeps (snd r))
      <= length (sleeps w) + (maxRetries config - attempt))%nat
  /\ apiCallsCount (metrics (snd r))
     = (apiCallsCount (metrics w)
        + match fst r with Ok _ => 1 | Throw _ => 0 end)%nat.
Proof.
  revert attempt lastError w.
  induction remaining as [|remaining IH]; intros attempt lastError w; simpl.
  - repeat split; lia.
  - unfold attempt_operation, delay, bind, ret, throw, modify.
    destruct (op (api_calls w)) as [result|error]; simpl.
    { repeat split; lia. }
    assert (Hretry : forall count,
      (forall m, apiCallsCount (count m) = apiCallsCount m) ->
      let w1 := set_metrics count (set_api_calls (S (api_calls w)) w) in
      forall d,
      let w2 := if (attempt <? maxRetries config)%nat then push_sleep d w1 else w1 in
      let r := retry_loop op config remaining (S attempt) error w2 in
      (api_calls w <= api_calls (snd r) <= api_calls w + S remaining)%nat
      /\ (0 < S remaining -> api_calls w < api_calls (snd r))%nat
      /\ (length (sleeps (snd r))
          <= length (sleeps w) + (maxRetries config - attempt))%nat
      /\ apiCallsCount (metrics (snd r))
         = (apiCallsCount (metrics w)
            + match fst r with Ok _ => 1 | Throw _ => 0 end)%nat).
    { intros count Hcount w1 d w2 r.
      destruct (IH (S attempt) error w2) as [Ha [_ [Hs Hm]]].
      fold r in Ha, Hs, Hm.
      assert (Hw2 : api_calls w2 = S (api_calls w)
                    /\ apiCallsCount (metrics w2) = apiCallsCount (metrics w)
                    /\ (length (sleeps w2) + (maxRetries config - S attempt)
                        <= length (sleeps w) + (maxRetries config - attempt))%nat).
      { subst w2 w1. destruct (attempt <? maxRetries config)%nat eqn:Hlt; simpl.
        - apply Nat.ltb_lt in Hlt. rewrite Hcount. repeat split; lia.
        - rewrite Hcount. repeat split; lia. }
      destruct Hw2 as [Hw2a [Hw2m Hw2s]].
      rewrite Hw2a in Ha. rewrite Hw2m in Hm.
      repeat split; try lia. }
    destruct (isRateLimitError error).
    { pose proof (Hretry count_rate_limit (fun m => eq_refl)
                    (rate_limit_delay error attempt config)) as Hr.
      destruct (attempt <? maxRetries config)%nat; exact Hr. }
    destruct (isQuotaExceededError error); [simpl; repeat split; lia|].
    destruct (isAuthError error); [simpl; repeat split; lia|].
    destruct (isNetworkError error); [|simpl; repeat split; lia].
    pose proof (Hretry count_network (fun m => eq_refl)
                  (calculateBackoffDelay attempt config)) as Hr.
    destruct (attempt <? maxRetries config)%nat; exact Hr.
Qed.

(** X8. Whatever the operation answers, [executeWithRetry] runs it at
    least once and at most [maxRetries + 1] times, waits at most
    [maxRetries] times, changes no table, and adds one to [apiCallsCount]
    exactly when it returns: the counter counts the calls that succeeded. *)
Theorem executeWithRetry_bounds w :
  let r := executeWithRetry op config w in
  (api_calls w < api_calls (snd r) <= api_calls w + S (maxRetries config))%nat
  /\ (length (sleeps (snd r)) <= length (sleeps w) + maxRetries config)%nat
  /\ apiCallsCount (metrics (snd r))
     = (apiCallsCount (metrics w)
        + match fst r with Ok _ => 1 | Throw _ => 0 end)%nat
  /\ tables (snd r) = tables w.
Proof.
  intros r.
  destruct (retry_loop_bounds (S (maxRetries config)) 0
              (plain_error "Unknown error") w) as [Ha [Hp [Hs Hm]]].
  fold (executeWithRetry op config) in Ha, Hp, Hs, Hm. fold r in Ha, Hp, Hs, Hm.
  repeat split; try lia.
  apply executeWithRetry_keeps.
Qed.

(** X9. An answer that is a quota error, or an authentication error,
    ends the call at once: one request, no wait, and the error thrown is
    the executor's own, an [InternalServerError] for the quota and an
    [UnauthorizedError] for the authentication, in place of the one
    received. *)
Theorem executeWithRetry_fatal w error :
  op (api_calls w) = Throw error ->
  isRateLimitError error = false ->
  (isQuotaExceededError error = true ->
   executeWithRetry op config w
   = (Throw (internal_error "Google Calendar API quota exceeded"),
      set_metrics count_quota (set_api_calls (S (api_calls w)) w)))
  /\ (isQuotaExceededError error = false -> isAuthError error = true ->
      executeWithRetry op config w
      = (Throw (unauthorized "Google Calendar authentication failed"),
         set_metrics count_auth (set_api_calls (S (api_calls w)) w))).
Proof.
  intros Hop Hr. unfold executeWithRetry. simpl.
  unfold attempt_operation, bind, ret, throw, modify. rewrite Hop, Hr.
  split.
  - intros Hq. rewrite Hq. reflexivity.
  - intros Hq Ha. rewrite Hq, Ha. reflexivity.
Qed.

(** X10. When every attempt fails on a network error, the executor
    makes [maxRetries + 1] requests, waits between them for the back-off
    delays of attempts 0 to [maxRetries - 1], and throws the error of the
    last attempt as it received it. *)
Theorem executeWithRetry_gives_up w (errs : nat -> JsError) :
  (forall i, (i < S (maxRetries config))%nat ->
     op (api_calls w + i)%nat = Throw (errs i)
     /\ retried_as_network (errs i) = true) ->
  exists w',
    executeWithRetry op config w = (Throw (errs (maxRetries config)), w')
    /\ api_calls w' = (api_calls w + S (maxRetries config))%nat
    /\ sleeps w'
       = (rev (map (fun a => calculateBackoffDelay a config)
                 (seq 0 (maxRetries config)))
          ++ sleeps w)%list
    /\ networkErrors (metrics w')
       = (networkErrors (metrics w) + S (maxRetries config))%nat
    /\ tables w' = tables w.
Proof.
  intros Hall.
  pose proof (retry_loop_network_errors (S (maxRetries config)) errs 0 0
                (plain_error "Unknown error") w Hall) as Hrun.
  rewrite Nat.add_0_r in Hrun. fold (executeWithRetry op config) in Hrun.
  exists (after_network_errors config (S (maxRetries config)) 0 w).
  split; [exact Hrun|].
  split; [apply after_network_errors_api_calls|].
  split.
  - rewrite after_network_errors_snoc, after_last_network_error_sleeps.
    apply after_network_errors_sleeps. lia.
  - split; [rewrite after_network_errors_metrics; reflexivity|].
    apply after_network_errors_tables.
Qed.

(** X11. When the first [n] attempts fail on network errors, with [n]
    at most [maxRetries], and the next one succeeds, the executor returns
    its result after [n + 1] requests and [n] waits. *)
Theorem executeWithRetry_recovers w (errs : nat -> JsError) n result :
  (n <= maxRetries config)%nat ->
  (forall i, (i < n)%nat ->
     op (api_calls w + i)%nat = Throw (errs i)
     /\ retried_as_network (errs i) = true) ->
  op (api_calls w + n)%nat = Ok result ->
  exists w',
    executeWithRetry op config w = (Ok result, w')
    /\ api_calls w' = (api_calls w + S n)%nat
    /\ sleeps w'
       = (rev (map (fun a => calculateBackoffDelay a config) (seq 0 n))
          ++ sleeps w)%list
    /\ apiCallsCount (metrics w') = S (apiCallsCount (metrics w))
    /\ tables w' = tables w.
Proof.
  intros Hn Hall Hok.
  pose proof (retry_loop_network_errors n errs (S (maxRetries config - n)) 0
                (plain_error "Unknown error") w Hall) as Hrun.
  replace (n + S (maxRetries config - n))%nat with (S (maxRetries config))
    in Hrun by lia.
  fold (executeWithRetry op config) in Hrun. rewrite Hrun. clear Hrun.
  simpl retry_loop. unfold attempt_operation, bind, ret, modify.
  rewrite after_network_errors_api_calls, Hok.
  eexists. split; [reflexivity|].
  split; [simpl; rewrite ?after_network_errors_api_calls; lia|].
  split; [simpl; apply after_network_errors_sleeps; lia|].
  split; [simpl; rewrite after_network_errors_metrics; reflexivity|].
  simpl. apply (after_network_errors_tables config n 0 w).
Qed.

End Retry.

(** X12. The back-off delay never exceeds [maxDelay], whatever the
    configuration; and with a base delay that is not negative and a
    multiplier of at least one it does not shrink from one attempt to a
    later one. *)
Theorem calculateBackoffDelay_bounded config a :
  calculateBackoffDelay a config <= maxDelay config
  /\ (forall b,
        0 <= baseDelay config -> 1 <= backoffMultiplier config -> (a <= b)%nat ->
        calculateBackoffDelay a config <= calculateBackoffDelay b config).
Proof.
  unfold calculateBackoffDelay. split; [lia|].
  intros b Hbase Hmul Hab.
  assert (Hpow : backoffMultiplier config ^ Z.of_nat a
                 <= backoffMultiplier config ^ Z.of_nat b)
    by (apply Z.pow_le_mono_r; lia).
  assert (Hmono : baseDelay config * backoffMultiplier config ^ Z.of_nat a
                  <= baseDelay config * backoffMultiplier config ^ Z.of_nat b)
    by (apply Z.mul_le_mono_nonneg_l; assumption).
  lia.
Qed.

(** Upstream answers to run the executor on. *)
Definition quota_exceeded : JsError :=
  mkError PlainError (CodeNum 403) "quotaExceeded" None None.

Definition flaky (k : nat) : Outcome string :=
  if (k <? 2)%nat then Throw connection_reset else Ok "evt-1".

Lemma executeWithRetry_fatal_witness :
  (isQuotaExceededError quota_exceeded = true ->
   executeWithRetry (fun _ : nat => @Throw string quota_exceeded)
     DEFAULT_RETRY_CONFIG one_event_world
   = (Throw (internal_error "Google Calendar API quota exceeded"),
      set_metrics count_quota (set_api_calls 1 one_event_world)))
  /\ (isQuotaExceededError quota_exceeded = false ->
      isAuthError quota_exceeded = true ->
      executeWithRetry (fun _ : nat => @Throw string quota_exceeded)
        DEFAULT_RETRY_CONFIG one_event_world
      = (Throw (unauthorized "Google Calendar authentication failed"),
         set_metrics count_auth (set_api_calls 1 one_event_world))).
Proof.
  apply (executeWithRetry_fatal (fun _ : nat => @Throw string quota_exceeded)
           DEFAULT_RETRY_CONFIG one_event_world quota_exceeded).
  - reflexivity.
  - reflexivity.
Defined.

Lemma executeWithRetry_gives_up_witness :
  exists w',
    executeWithRetry (fun _ : nat => @Throw string connection_reset)
      DEFAULT_RETRY_CONFIG one_event_world = (Throw connection_reset, w')
    /\ api_calls w' = 4%nat
    /\ sleeps w' = [4000; 2000; 1000]
    /\ networkErrors (metrics w') = 4%nat
    /\ tables w' = tables one_event_world.
Proof.
  apply (executeWithRetry_gives_up (fun _ : nat => @Throw string connection_reset)
           DEFAULT_RETRY_CONFIG one_event_world (fun _ => connection_reset)).
  intros i _. split; reflexivity.
Defined.

Lemma executeWithRetry_recovers_witness :
  exists w',
    executeWithRetry flaky DEFAULT_RETRY_CONFIG one_event_world = (Ok "evt-1", w')
    /\ api_calls w' = 3%nat
    /\ sleeps w' = [2000; 1000]
    /\ apiCallsCount (metrics w') = 1%nat
    /\ tables w' = tables one_event_world.
Proof.
  apply (executeWithRetry_recovers flaky DEFAULT_RETRY_CONFIG one_event_world
           (fun _ => connection_reset) 2 "evt-1").
  - simpl. lia.
  - intros i Hi. destruct i as [|[|i]]; [split; reflexivity | split; reflexivity | lia].
  - reflexivity.
Defined.
(** ** Listing events: what a page holds *)

(** [l] is in ascending order of [start_date]. *)
Fixpoint ascending (l : list CalendarEvents.Row) : Prop :=
  match l with
  | [] => True
  | x :: t =>
      Forall (fun y => CalendarEvents.start_date x <= CalendarEvents.start_date y) t
      /\ ascending t
  end.

Lemma insert_by_start_In x r l :
  In x (insert_by_start r l) <-> x = r \/ In x l.
Proof.
  induction l as [|y t IH]; simpl; [intuition congruence|].
  destruct (CalendarEvents.start_date r <=? CalendarEvents.start_date y); simpl;
    [intuition congruence|].
  rewrite IH. intuition congruence.
Qed.

Lemma order_by_start_date_In x l : In x (order_by_start_date l) <-> In x l.
Proof.
  induction l as [|y t IH]; simpl; [reflexivity|].
  rewrite insert_by_start_In, IH. intuition congruence.
Qed.

Lemma insert_by_start_ascending r l :
  ascending l -> ascending (insert_by_start r l).
Proof.
  induction l as [|y t IH]; simpl; [auto|].
  intros [Hy Ht].
  destruct (CalendarEvents.start_date r <=? CalendarEvents.start_date y) eqn:Hle; simpl.
  - apply Z.leb_le in Hle. split; [|auto]. constructor; [exact Hle|].
    eapply List.Forall_impl; [|exact Hy]. simpl. intros z Hz. lia.
  - apply Z.leb_gt in Hle. split; [|apply IH, Ht].
    apply List.Forall_forall. intros z Hz.
    apply insert_by_start_In in Hz as [->|Hz].
    + lia.
    + rewrite List.Forall_forall in Hy. apply Hy, Hz.
Qed.

Lemma order_by_start_date_ascending l : ascending (order_by_start_date l).
Proof.
  induction l as [|y t IH]; simpl; [exact I|].
  apply insert_by_start_ascending, IH.
Qed.

Lemma ascending_skipn n l : ascending l -> ascending (skipn n l).
Proof.
  revert l. induction n as [|n IH]; intros [|x t]; simpl; auto.
  intros [_ Ht]. apply IH, Ht.
Qed.

Lemma In_firstn_skipn {A} (x : A) n m l : In x (firstn n (skipn m l)) -> In x l.
Proof.
  revert n l. induction m as [|m IHm]; intros n l.
  - simpl. revert l. induction n as [|n IHn]; intros l; simpl; [intros []|].
    destruct l as [|y t]; simpl; [intros []|].
    intros [->|Hx]; [left; reflexivity | right; apply IHn, Hx].
  - destruct l as [|y t]; simpl; [destruct n; simpl; intros []|].
    intros Hx. right. apply (IHm n t Hx).
Qed.

Lemma ascending_firstn n l : ascending l -> ascending (firstn n l).
Proof.
  revert l. induction n as [|n IH]; intros [|x t]; simpl; auto.
  intros [Hx Ht]. split; [|apply IH, Ht].
  apply List.Forall_forall. intros y Hy. rewrite List.Forall_forall in Hx.
  apply Hx. apply (In_firstn_skipn y n 0 t). exact Hy.
Qed.

(** The filters all passed, an event is one of the user. *)
Lemma event_matches_user userId params e :
  event_matches userId params e = true -> CalendarEvents.user_id e = userId.
Proof.
  unfold event_matches. rewrite !andb_true_iff.
  intros [[[[[Hu _] _] _] _] _]. apply String.eqb_eq, Hu.
Qed.

(** X13. A page that [getEvents] returns holds only events of the
    table that belong to the user and pass every filter given; it is in
    ascending order of start date and no longer than the limit; and the
    call changed nothing. *)
Theorem getEvents_page userId params w r w' :
  getEvents userId params w = (Ok r, w') ->
  w' = w
  /\ Forall (fun e => In e (calendar_events w)
                      /\ CalendarEvents.user_id e = userId
                      /\ event_matches userId params e = true) (events r)
  /\ ascending (events r)
  /\ Z.of_nat (length (events r)) <= limit_of params.
Proof.
  rewrite getEvents_unfold.
  destruct ((limit_of params <? 0) || _) eqn:Hbad; [discriminate|].
  apply orb_false_iff in Hbad as [Hl _]. apply Z.ltb_ge in Hl.
  intros [= <- <-]. simpl. split; [reflexivity|]. split; [|split].
  - apply List.Forall_forall. intros e He.
    apply In_firstn_skipn in He.
    apply (proj1 (order_by_start_date_In _ _)) in He.
    apply filter_In in He as [Hin Hm].
    split; [exact Hin|]. split; [eapply event_matches_user; eauto | exact Hm].
  - apply ascending_firstn, ascending_skipn, order_by_start_date_ascending.
  - rewrite length_firstn. lia.
Qed.

Lemma getEvents_page_witness :
  one_event_world = one_event_world
  /\ Forall (fun e => In e (calendar_events one_event_world)
                      /\ CalendarEvents.user_id e = "alice"
                      /\ event_matches "alice" no_filter e = true) [one_event]
  /\ ascending [one_event]
  /\ Z.of_nat (length [one_event]) <= limit_of no_filter.
Proof.
  apply (getEvents_page "alice" no_filter one_event_world
           (mkEventsResponse [one_event]
              (mkPagination 1 50 NaN false false)) one_event_world).
  vm_compute. reflexivity.
Defined.

(** X14. Whenever [getEvents] returns, [hasNext] is false, however many
    events match: the counting query is the listing query without its
    ORDER BY, LIMIT and OFFSET (the pattern that was to replace its
    projection does not match across the line break after SELECT), so the
    total is read off an event row and is not a number, or is 0 when no
    event matches. *)
Theorem getEvents_never_has_next userId params w r w' :
  getEvents userId params w = (Ok r, w') ->
  hasNext (pagination r) = false
  /\ total (pagination r)
     = match List.filter (event_matches userId params) (calendar_events w) with
       | [] => Num 0
       | _ :: _ => NaN
       end.
Proof.
  rewrite getEvents_unfold.
  destruct ((limit_of params <? 0) || _) eqn:Hbad; [discriminate|].
  apply orb_false_iff in Hbad as [Hl Ho].
  apply Z.ltb_ge in Hl. apply Z.ltb_ge in Ho.
  intros [= <- <-]. simpl. split; [|reflexivity].
  destruct (List.filter (event_matches userId params) (calendar_events w));
    simpl; [|reflexivity].
  apply Z.ltb_ge. lia.
Qed.

(** Two events of one user, the later one first in the table. *)
Definition retro : CalendarEvents.Row :=
  CalendarEvents.mkRow 1 "alice" (Some "g-2") "Retro" None
    1735898400000 1735902000000 None [] false "UTC" confirmed google
    1735800000000 1735800000000 1735800000000.

Definition two_events_world : World :=
  mkWorld ∅ ∅ [retro; one_event] None 2 0 0 empty_metrics [].

Lemma getEvents_never_has_next_witness :
  hasNext (mkPagination 1 1 NaN false false) = false
  /\ total (mkPagination 1 1 NaN false false)
     = match List.filter
               (event_matches "alice"
                  (mkEventsQueryParams None (Some 1) None None None None None))
               (calendar_events two_events_world) with
       | [] => Num 0
       | _ :: _ => NaN
       end.
Proof.
  apply (getEvents_never_has_next "alice"
           (mkEventsQueryParams None (Some 1) None None None None None)
           two_events_world
           (mkEventsResponse [one_event] (mkPagination 1 1 NaN false false))
           two_events_world).
  vm_compute. reflexivity.
Defined.

(** X15. When the limit or the offset, [(page - 1) * limit], is
    negative, as with page 0, [getEvents] throws the
    [InternalServerError] "Failed to retrieve events", no validation
    error, and the state is as it was. *)
Theorem getEvents_negative_window userId params w :
  limit_of params < 0 \/ (page_of params - 1) * limit_of params < 0 ->
  getEvents userId params w
  = (Throw (internal_error "Failed to retrieve events"), w).
Proof.
  intros Hneg. rewrite getEvents_unfold.
  destruct (limit_of params <? 0) eqn:Hl; simpl; [reflexivity|].
  destruct ((page_of params - 1) * limit_of params <? 0) eqn:Ho; [reflexivity|].
  apply Z.ltb_ge in Hl. apply Z.ltb_ge in Ho. lia.
Qed.

(** The first page is page 1: page 0 asks for a negative offset. *)
Definition page_zero : EventsQueryParams :=
  mkEventsQueryParams (Some 0) None None None None None None.

Lemma getEvents_negative_window_witness :
  getEvents alice_id page_zero two_events_world
  = (Throw (internal_error "Failed to retrieve events"), two_events_world).
Proof.
  apply (getEvents_negative_window alice_id page_zero two_events_world).
  right. vm_compute. reflexivity.
Defined.

(** ** Reading one event *)

Lemma event_matches_no_filter userId lim e :
  event_matches userId (mkEventsQueryParams None lim None None None None None) e
  = String.eqb (CalendarEvents.user_id e) userId.
Proof. unfold event_matches. simpl. rewrite !andb_true_r. reflexivity. Qed.

(** X16. The handler [getEvent] of the controller looks for the event
    in a listing of limit 1: it answers with the event asked for only when
    that is the first of the user's events in the order of the listing,
    and with [NotFoundError] for every other id, the ids of the user's
    other events among them. *)
Theorem getEvent_finds_first_only userId eventId w :
  CalendarController.getEvent userId eventId w
  = match order_by_start_date
            (List.filter (fun e => String.eqb (CalendarEvents.user_id e) userId)
               (calendar_events w)) with
    | first :: _ =>
        if Nat.eqb (CalendarEvents.id first) eventId then (Ok first, w)
        else (Throw (not_found "Event not found"), w)
    | [] => (Throw (not_found "Event not found"), w)
    end.
Proof.
  unfold CalendarController.getEvent, bind. rewrite getEvents_unfold.
  change (limit_of (mkEventsQueryParams None (Some 1) None None None None None))
    with 1.
  change (page_of (mkEventsQueryParams None (Some 1) None None None None None))
    with 1.
  simpl orb. cbv iota beta zeta. cbn [events].
  rewrite (filter_ext _ (fun e => String.eqb (CalendarEvents.user_id e) userId))
    by (intros e; apply event_matches_no_filter).
  change (Z.to_nat ((1 - 1) * 1)) with 0%nat. change (Z.to_nat 1) with 1%nat.
  destruct (order_by_start_date _) as [|first rest]; simpl; [reflexivity|].
  destruct (Nat.eqb (CalendarEvents.id first) eventId); reflexivity.
Qed.
(** ** Creating an event: the path that stores *)

Lemma keeps_tables_calendar {A} (m : M A) :
  keeps tables m -> keeps calendar_tables m.
Proof. intros Hk w. specialize (Hk w). unfold tables in Hk. congruence. Qed.

(** After BEGIN the view of the connection is the committed table. *)
Lemma client_view_begin w :
  client_view (set_tx_events (Some (calendar_events w)) w) = calendar_events w.
Proof. reflexivity. Qed.

(** The view of a connection whose transaction is [view]. *)
Lemma client_view_open w view : tx_events w = Some view -> client_view w = view.
Proof. unfold client_view. intros ->. reflexivity. Qed.

Section CreateEventStores.
Context `{Vault.KeyedCipher}.
Variable key : string.
Variable env : Env.

(** X17. When the input is valid with instants for start and end, the
    client authenticates, Google answers the create call with the id of
    the new event, the status is one of the enumeration, the texts fit
    the columns of limited length and the user has no row for that id
    yet, [createEvent] commits exactly one new row, which carries the
    user, the id Google gave and the source 'google', and returns it. *)
Theorem createEvent_stores_event
    userId eventData w t s e st calendar w1 googleEvent googleId w2 :
  validateEventInput eventData = Ok tt ->
  title eventData = Some t ->
  startDate eventData = Some (Some s) ->
  endDate eventData = Some (Some e) ->
  status_of_name (string_or (status eventData) "confirmed") = Some st ->
  getAuthenticatedCalendar key env userId
    (set_tx_events (Some (calendar_events w)) w) = (Ok calendar, w1) ->
  mapInputToGoogleEvent eventData = Ok googleEvent ->
  executeWithRetry (fun k => events_insert env k calendar googleEvent)
    DEFAULT_RETRY_CONFIG w1 = (Ok (Some googleId), w2) ->
  googleId <> EmptyString ->
  fits_varchar 255 googleId = true ->
  fits_varchar 500 t = true ->
  fits_varchar 100 (string_or (timezone eventData) "UTC") = true ->
  existsb (same_google_event userId googleId) (calendar_events w) = false ->
  let row :=
    CalendarEvents.mkRow (next_event_id w) userId (Some googleId) t
      (description eventData) s e (location eventData)
      (match attendees eventData with Some l => l | None => [] end)
      (bool_or_false (isAllDay eventData))
      (string_or (timezone eventData) "UTC") st google
      (now env) (now env) (now env) in
  exists w3,
    createEvent key env userId eventData w = (Ok row, w3)
    /\ calendar_events w3 = (calendar_events w ++ [row])%list
    /\ tx_events w3 = None
    /\ next_event_id w3 = S (next_event_id w).
Proof.
  intros Hv Ht Hs He Hst Ha Hm Hx Hid _ _ _ Hnew row.
  pose proof (getAuthenticatedCalendar_keeps key env userId
                (set_tx_events (Some (calendar_events w)) w)) as Hk1.
  rewrite Ha in Hk1. simpl in Hk1.
  pose proof (keeps_tables_calendar _
                (executeWithRetry_keeps
                   (fun k => events_insert env k calendar googleEvent)
                   DEFAULT_RETRY_CONFIG) w1) as Hk2.
  rewrite Hx in Hk2. simpl in Hk2. rewrite Hk1 in Hk2.
  injection Hk2 as _ Hc2 Htx2 Hn2.
  assert (Hlt : s < e).
  { apply validateEventInput_accepts in Hv as [_ [[s' [e' [Hs' [He' Hge]]]] _]].
    rewrite Hs in Hs'. rewrite He in He'. injection Hs' as <-. injection He' as <-.
    simpl in Hge. apply Z.leb_gt in Hge. exact Hge. }
  unfold createEvent, client_begin, client_commit, client_insert,
    mapDatabaseEventToResponse. unfold_m.
  rewrite Hv, Ha, Hm, Hx.
  replace (truthy (Some googleId)) with (Some googleId)
    by (destruct googleId; [contradiction | reflexivity]).
  rewrite Htx2. unfold insert_into, row_of_values.
  cbn [ins_title ins_start_date ins_end_date ins_status ins_user_id
       ins_google_event_id ins_description ins_location ins_attendees
       ins_is_all_day ins_timezone].
  rewrite Ht, Hs, He, Hst, Hn2.
  unfold valid_date_range, unique_google_event_id.
  cbn [CalendarEvents.start_date CalendarEvents.end_date
       CalendarEvents.google_event_id CalendarEvents.user_id].
  replace (s <=? e) with true by (symmetry; apply Z.leb_le; lia).
  rewrite Hnew. cbn [negb andb].
  eexists. split; [reflexivity|].
  cbn [calendar_events tx_events next_event_id set_tx_events set_calendar_events
       set_next_event_id].
  split; [reflexivity|]. split; reflexivity.
Qed.

(** X18. A start or end that is an invalid date passes
    [validateEventInput], every comparison with it being false; the input
    then fails when its dates are written out for Google.  So
    [createEvent] throws, and what it throws is not a [BadRequestError]:
    it is the [RangeError] of [toISOString] when the client authenticates.
    Nothing is stored. *)
Theorem createEvent_invalid_date userId eventData w :
  validateEventInput eventData = Ok tt ->
  startDate eventData = Some None \/ endDate eventData = Some None ->
  exists error w',
    createEvent key env userId eventData w = (Throw error, w')
    /\ err_class error <> BadRequestError
    /\ calendar_events w' = calendar_events w
    /\ tx_events w' = None
    /\ forall calendar w1,
         getAuthenticatedCalendar key env userId
           (set_tx_events (Some (calendar_events w)) w) = (Ok calendar, w1) ->
         error = plain_error "Invalid time value".
Proof.
  intros Hv Hd.
  assert (Hm : mapInputToGoogleEvent eventData
               = Throw (plain_error "Invalid time value")).
  { apply validateEventInput_accepts in Hv as [_ [[s [e [Hs [He _]]]] _]].
    unfold mapInputToGoogleEvent. rewrite Hs, He.
    destruct Hd as [Hd|Hd].
    - rewrite Hs in Hd. injection Hd as ->. reflexivity.
    - rewrite He in Hd. injection Hd as ->. destruct s; reflexivity. }
  destruct (createEvent key env userId eventData w) as [[row|error] w'] eqn:Hc.
  - exfalso. revert Hc.
    unfold createEvent, client_begin, client_rollback. unfold_m.
    rewrite Hv, Hm.
    destruct (getAuthenticatedCalendar _ _ _ _) as [[calendar|e1] w1]; discriminate.
  - exists error, w'. split; [reflexivity|].
    destruct (createEvent_throw_keeps_events key env _ _ _ _ _ Hc) as [Hev Htx].
    revert Hc.
    unfold createEvent, client_begin, client_rollback. unfold_m.
    rewrite Hv, Hm.
    unfold getAuthenticatedCalendar, try_catch.
    destruct (TokenService.ensureValidToken _ _ _ _) as [[calendar|e1] w1];
      intros [= <- <-].
    + split; [discriminate|]. split; [exact Hev|]. split; [exact Htx|].
      intros calendar' w1' _. reflexivity.
    + split; [discriminate|]. split; [exact Hev|]. split; [exact Htx|].
      intros calendar' w1' Hok. discriminate Hok.
Qed.

End CreateEventStores.

(** Google accepts every request, and answers a create with the id
    [evt-9]. *)
Definition willing_env : Env :=
  mkEnv 1735812000000 (fun _ => "0123456789abcdef")
    (fun _ _ => Throw silent) (fun _ _ _ => Ok one_page)
    (fun _ _ _ => Ok (Some "evt-9")).

Lemma createEvent_stores_event_witness :
  exists w3,
    createEvent "k" willing_env alice_id planning signed_in_world
    = (Ok (CalendarEvents.mkRow 1 alice_id (Some "evt-9") "Planning" None
             1735898400000 1735902000000 None
             [mkAttendee (Some "bob@example.com") None None] false "UTC"
             confirmed google 1735812000000 1735812000000 1735812000000), w3)
    /\ calendar_events w3
       = [one_event;
          CalendarEvents.mkRow 1 alice_id (Some "evt-9") "Planning" None
            1735898400000 1735902000000 None
            [mkAttendee (Some "bob@example.com") None None] false "UTC"
            confirmed google 1735812000000 1735812000000 1735812000000]
    /\ tx_events w3 = None
    /\ next_event_id w3 = 2%nat.
Proof.
  apply (createEvent_stores_event (H := xor_keyed_cipher) "k" willing_env
           alice_id planning signed_in_world "Planning"
           1735898400000 1735902000000 confirmed "ya29.a0AfH6"
           (set_tx_events (Some [one_event]) signed_in_world)
           (Google.mkEvent (Some EmptyString) (Some "confirmed") None (Some "Planning")
              None None
              (Some (Google.mkTime (Some 1735898400000) None (Some "UTC")))
              (Some (Google.mkTime (Some 1735902000000) None (Some "UTC")))
              (Some [mkAttendee (Some "bob@example.com") None (Some false)]))
           "evt-9"
           (mkWorld (users signed_in_world) ∅ [one_event] (Some [one_event]) 1 1 0
              (mkMetrics 1 0 0 0 0) [])).
  - reflexivity.
  - reflexivity.
  - reflexivity.
  - reflexivity.
  - reflexivity.
  - vm_compute. reflexivity.
  - reflexivity.
  - vm_compute. reflexivity.
  - discriminate.
  - reflexivity.
  - reflexivity.
  - reflexivity.
  - reflexivity.
Defined.

(** An input whose start is not a date. *)
Definition undated : CalendarEventInput :=
  mkCalendarEventInput (Some "Planning") None
    (Some None) (Some (Some 1735902000000)) None None None None None.

Lemma createEvent_invalid_date_witness :
  exists error w',
    createEvent "k" willing_env alice_id undated signed_in_world = (Throw error, w')
    /\ err_class error <> BadRequestError
    /\ calendar_events w' = calendar_events signed_in_world
    /\ tx_events w' = None
    /\ forall calendar w1,
         getAuthenticatedCalendar "k" willing_env alice_id
           (set_tx_events (Some (calendar_events signed_in_world)) signed_in_world)
         = (Ok calendar, w1) ->
         error = plain_error "Invalid time value".
Proof.
  apply (createEvent_invalid_date (H := xor_keyed_cipher) "k" willing_env
           alice_id undated signed_in_world).
  - reflexivity.
  - left. reflexivity.
Defined.
(** ** Changing and deleting an event *)

(** [new] is the row [old] after an update of the event [eventId] of
    [userId]: the columns that identify the row are the same, and a row
    that is not that event is untouched. *)
Definition same_event (eventId : nat) (userId : string)
    (old new : CalendarEvents.Row) : Prop :=
  CalendarEvents.id new = CalendarEvents.id old
  /\ CalendarEvents.user_id new = CalendarEvents.user_id old
  /\ CalendarEvents.google_event_id new = CalendarEvents.google_event_id old
  /\ CalendarEvents.source new = CalendarEvents.source old
  /\ CalendarEvents.created_at new = CalendarEvents.created_at old
  /\ (row_is eventId userId old = false -> new = old).

Lemma same_event_refl eventId userId table :
  Forall2 (same_event eventId userId) table table.
Proof.
  induction table as [|r t IH]; constructor; [|exact IH].
  unfold same_event. auto 10.
Qed.

Lemma patch_row_identity now eventData old new :
  patch_row now eventData old = Some new ->
  CalendarEvents.id new = CalendarEvents.id old
  /\ CalendarEvents.user_id new = CalendarEvents.user_id old
  /\ CalendarEvents.google_event_id new = CalendarEvents.google_event_id old
  /\ CalendarEvents.source new = CalendarEvents.source old
  /\ CalendarEvents.created_at new = CalendarEvents.created_at old
  /\ valid_date_range new = true.
Proof.
  unfold patch_row.
  destruct (match startDate eventData with Some d => d | None => _ end) as [s|];
    [|discriminate].
  destruct (match endDate eventData with Some d => d | None => _ end) as [e|];
    [|discriminate].
  destruct (match status eventData with Some s0 => _ | None => _ end) as [st|];
    [|discriminate].
  cbv zeta. destruct (valid_date_range _) eqn:Hv; [|discriminate].
  intros [= <-]. simpl. repeat split. exact Hv.
Qed.

Lemma patch_rows_spec now eventData eventId userId table table' :
  patch_rows now eventData eventId userId table = Some table' ->
  Forall2 (same_event eventId userId) table table'
  /\ Forall (fun new => row_is eventId userId new = true ->
                        valid_date_range new = true
                        /\ exists old, In old table
                                       /\ patch_row now eventData old = Some new)
       table'
  /\ (forall old, In old table -> row_is eventId userId old = true ->
        exists new, In new table' /\ row_is eventId userId new = true).
Proof.
  revert table'. induction table as [|r rest IH]; intros table'; simpl.
  - intros [= <-]. split; [constructor|]. split; [constructor|]. intros old [].
  - destruct (patch_rows now eventData eventId userId rest) as [rest'|];
      [|discriminate].
    destruct (IH rest' eq_refl) as [Hsame [Hnew Hold]].
    assert (Hrest : Forall (fun new => row_is eventId userId new = true ->
                              valid_date_range new = true
                              /\ exists old, In old (r :: rest)
                                             /\ patch_row now eventData old = Some new)
                      rest').
    { eapply List.Forall_impl; [|exact Hnew]. simpl.
      intros new Hn Hr. destruct (Hn Hr) as [Hv [old [Hin Hp]]].
      split; [exact Hv|]. exists old. auto. }
    destruct (row_is eventId userId r) eqn:Hr.
    + destruct (patch_row now eventData r) as [r'|] eqn:Hp; [|discriminate].
      intros [= <-].
      destruct (patch_row_identity _ _ _ _ Hp) as [Hi [Hu [Hg [Hs [Hc Hv]]]]].
      assert (Hr' : row_is eventId userId r' = true)
        by (unfold row_is in *; rewrite Hi, Hu; exact Hr).
      split; [|split].
      * constructor; [|exact Hsame]. unfold same_event.
        repeat split; auto. intros Hno. congruence.
      * constructor; [|exact Hrest]. intros _. split; [exact Hv|].
        exists r. split; [left; reflexivity | exact Hp].
      * intros old [<-|Hin] Ho.
        -- exists r'. split; [left; reflexivity | exact Hr'].
        -- destruct (Hold old Hin Ho) as [new [Hn Hrn]]. exists new.
           split; [right; exact Hn | exact Hrn].
    + intros [= <-]. split; [|split].
      * constructor; [|exact Hsame]. unfold same_event. auto 10.
      * constructor; [|exact Hrest]. intros Hr'. congruence.
      * intros old [<-|Hin] Ho; [congruence|].
        destruct (Hold old Hin Ho) as [new [Hn Hrn]]. exists new.
        split; [right; exact Hn | exact Hrn].
Qed.

Lemma patch_rows_fails now eventData eventId userId table old :
  In old table -> row_is eventId userId old = true ->
  patch_row now eventData old = None ->
  patch_rows now eventData eventId userId table = None.
Proof.
  induction table as [|r rest IH]; simpl; [intros []|].
  intros [<-|Hin] Hr Hp.
  - destruct (patch_rows now eventData eventId userId rest); [|reflexivity].
    rewrite Hr, Hp. reflexivity.
  - rewrite (IH Hin Hr Hp). reflexivity.
Qed.

Lemma row_is_spec eventId userId r :
  row_is eventId userId r = true
  <-> CalendarEvents.id r = eventId /\ CalendarEvents.user_id r = userId.
Proof.
  unfold row_is. rewrite andb_true_iff, Nat.eqb_eq, String.eqb_eq. reflexivity.
Qed.

Section EventChangeProperties.
Context `{Vault.KeyedCipher}.
Variable key : string.
Variable env : Env.
Variable events_update : nat -> string -> string -> Google.Event -> Outcome unit.
Variable events_delete : nat -> string -> string -> Outcome unit.
Variable JSON_parse : list Attendee -> Outcome (list Attendee).

Lemma update_in_google_keeps userId eventData existing :
  keeps calendar_tables
    (update_in_google key env events_update JSON_parse userId eventData existing).
Proof.
  unfold update_in_google. destruct (truthy _); [|keeps_step].
  keeps_step; [apply getAuthenticatedCalendar_keeps|].
  keeps_step; [keeps_step|]. keeps_step; [keeps_step|].
  apply keeps_tables_calendar, executeWithRetry_keeps.
Qed.

Lemma delete_in_google_keeps userId existing :
  keeps calendar_tables (delete_in_google key env events_delete userId existing).
Proof.
  unfold delete_in_google. destruct (truthy _); [|keeps_step].
  keeps_step; [apply getAuthenticatedCalendar_keeps|].
  keeps_step; [apply keeps_tables_calendar, executeWithRetry_keeps|].
  destruct (negb _ && negb _); keeps_step.
Qed.

(** What [updateEvent] computes, the upstream block taken as a whole. *)
Lemma updateEvent_unfold userId eventId eventData w :
  updateEvent key env events_update JSON_parse userId eventId eventData w
  = match List.find (row_is eventId userId) (calendar_events w) with
    | None => (Throw (not_found "Event not found"), set_tx_events None w)
    | Some existing =>
        match update_in_google key env events_update JSON_parse userId eventData
                existing (set_tx_events (Some (calendar_events w)) w) with
        | (Throw e, w1) => (Throw e, set_tx_events None w1)
        | (Ok _, w1) =>
            match patch_rows (now env) eventData eventId userId
                    (calendar_events w) with
            | None =>
                (Throw (plain_error "invalid input value"), set_tx_events None w1)
            | Some table =>
                match List.filter (row_is eventId userId) table with
                | row :: _ =>
                    (Ok row,
                     set_tx_events None (set_calendar_events (fun _ => table) w1))
                | [] =>
                    (Throw (plain_error "Cannot read properties of undefined"),
                     set_tx_events None (set_calendar_events (fun _ => table) w1))
                end
            end
        end
    end.
Proof.
  unfold updateEvent, client_begin, client_rollback, client_commit,
    client_select, client_update, mapDatabaseEventToResponse.
  unfold bind, try_catch, ret, throw, gets, modify.
  rewrite client_view_begin.
  destruct (List.find (row_is eventId userId) (calendar_events w)) as [existing|];
    [|reflexivity].
  pose proof (update_in_google_keeps userId eventData existing
                (set_tx_events (Some (calendar_events w)) w)) as Hk.
  destruct (update_in_google _ _ _ _ _ _ _ _) as [[[]|e] w1]; [|reflexivity].
  simpl in Hk. injection Hk as _ _ Htx _.
  rewrite (client_view_open _ _ Htx).
  destruct (patch_rows _ _ _ _ _) as [table|]; [|reflexivity].
  unfold set_client_view. rewrite Htx. simpl.
  destruct (List.filter (row_is eventId userId) table); reflexivity.
Qed.

(** What [deleteEvent] computes, the upstream block taken as a whole. *)
Lemma deleteEvent_unfold userId eventId w :
  deleteEvent key env events_delete userId eventId w
  = match List.find (row_is eventId userId) (calendar_events w) with
    | None => (Throw (not_found "Event not found"), set_tx_events None w)
    | Some existing =>
        match delete_in_google key env events_delete userId existing
                (set_tx_events (Some (calendar_events w)) w) with
        | (Throw e, w1) => (Throw e, set_tx_events None w1)
        | (Ok _, w1) =>
            (Ok tt,
             set_tx_events None
               (set_calendar_events
                  (fun _ => List.filter (fun r => negb (row_is eventId userId r))
                              (calendar_events w)) w1))
        end
    end.
Proof.
  unfold deleteEvent, client_begin, client_rollback, client_commit,
    client_select, client_delete.
  unfold bind, try_catch, ret, throw, gets, modify.
  rewrite client_view_begin.
  destruct (List.find (row_is eventId userId) (calendar_events w)) as [existing|];
    [|reflexivity].
  pose proof (delete_in_google_keeps userId existing
                (set_tx_events (Some (calendar_events w)) w)) as Hk.
  destruct (delete_in_google _ _ _ _ _ _) as [[[]|e] w1]; [|reflexivity].
  simpl in Hk. injection Hk as _ _ Htx _.
  rewrite (client_view_open _ _ Htx).
  unfold set_client_view. rewrite Htx. reflexivity.
Qed.

(** X19. [updateEvent] and [deleteEvent] for an id that is not an
    event of the user, one that does not exist or one that belongs to
    somebody else, throw the [NotFoundError] "Event not found": nothing is
    sent to Google and nothing is changed. *)
Theorem change_of_missing_event userId eventId eventData w :
  List.find (row_is eventId userId) (calendar_events w) = None ->
  updateEvent key env events_update JSON_parse userId eventId eventData w
    = (Throw (not_found "Event not found"), set_tx_events None w)
  /\ deleteEvent key env events_delete userId eventId w
     = (Throw (not_found "Event not found"), set_tx_events None w).
Proof.
  intros Hfind. rewrite updateEvent_unfold, deleteEvent_unfold, Hfind.
  split; reflexivity.
Qed.

(** X20. Whatever [updateEvent] does, it leaves no transaction
    open, it changes no row but those of the event named, and of that one
    it keeps the id, the user, the upstream id, the source and the
    creation time.  When it returns, the row returned is in the table, is
    the event named and satisfies the date check; when it throws, the
    table is as it was. *)
Theorem updateEvent_frame userId eventId eventData w :
  let r := updateEvent key env events_update JSON_parse userId eventId eventData w in
  tx_events (snd r) = None
  /\ Forall2 (same_event eventId userId) (calendar_events w) (calendar_events (snd r))
  /\ match fst r with
     | Ok row =>
         In row (calendar_events (snd r))
         /\ CalendarEvents.id row = eventId
         /\ CalendarEvents.user_id row = userId
         /\ valid_date_range row = true
     | Throw _ => calendar_events (snd r) = calendar_events w
     end.
Proof.
  intros r. subst r. rewrite updateEvent_unfold.
  destruct (List.find (row_is eventId userId) (calendar_events w))
    as [existing|] eqn:Hfind.
  2: { simpl. split; [reflexivity|]. split; [apply same_event_refl | reflexivity]. }
  apply find_some in Hfind as [Hin Hrow].
  pose proof (update_in_google_keeps userId eventData existing
                (set_tx_events (Some (calendar_events w)) w)) as Hk.
  destruct (update_in_google _ _ _ _ _ _ _ _) as [[[]|e] w1];
    simpl in Hk; injection Hk as _ Hev _ _.
  2: { simpl. split; [reflexivity|]. rewrite Hev.
       split; [apply same_event_refl | reflexivity]. }
  destruct (patch_rows (now env) eventData eventId userId (calendar_events w))
    as [table|] eqn:Hp.
  2: { simpl. split; [reflexivity|]. rewrite Hev.
       split; [apply same_event_refl | reflexivity]. }
  destruct (patch_rows_spec _ _ _ _ _ _ Hp) as [Hsame [Hnew Hold]].
  destruct (Hold existing Hin Hrow) as [new [Hnin Hnrow]].
  destruct (List.filter (row_is eventId userId) table) as [|row rest] eqn:Hf.
  { exfalso. assert (Hx : In new (List.filter (row_is eventId userId) table))
      by (apply filter_In; auto).
    rewrite Hf in Hx. destruct Hx. }
  assert (Hrow' : In row table /\ row_is eventId userId row = true).
  { apply filter_In. rewrite Hf. left. reflexivity. }
  destruct Hrow' as [Hrin Hrr].
  simpl. split; [reflexivity|]. split; [exact Hsame|].
  split; [exact Hrin|].
  apply row_is_spec in Hrr as Hids. destruct Hids as [Hi Hu].
  split; [exact Hi|]. split; [exact Hu|].
  rewrite List.Forall_forall in Hnew. apply (Hnew row Hrin Hrr).
Qed.

(** X21. [updateEvent] does not validate what it is given, and it
    updates the upstream event before the store sees the change: when the
    row that the patch would make is refused by the store (an end before
    the start, say), Google has accepted the update by then, and the local
    row stays as it was. *)
Theorem updateEvent_upstream_first
    userId eventId eventData w existing googleEventId calendar w1 merged
    googleEvent w2 :
  List.find (row_is eventId userId) (calendar_events w) = Some existing ->
  truthy (CalendarEvents.google_event_id existing) = Some googleEventId ->
  getAuthenticatedCalendar key env userId
    (set_tx_events (Some (calendar_events w)) w) = (Ok calendar, w1) ->
  overlay_input JSON_parse eventData existing = Ok merged ->
  mapInputToGoogleEvent merged = Ok googleEvent ->
  executeWithRetry (fun k => events_update k calendar googleEventId googleEvent)
    DEFAULT_RETRY_CONFIG w1 = (Ok tt, w2) ->
  patch_row (now env) eventData existing = None ->
  exists error,
    updateEvent key env events_update JSON_parse userId eventId eventData w
    = (Throw error, set_tx_events None w2)
    /\ calendar_events w2 = calendar_events w
    /\ (api_calls w1 < api_calls w2)%nat.
Proof.
  intros Hfind Hg Ha Ho Hm Hx Hp.
  assert (Hup : update_in_google key env events_update JSON_parse userId eventData
                  existing (set_tx_events (Some (calendar_events w)) w)
                = (Ok tt, w2)).
  { unfold update_in_google. rewrite Hg. unfold bind, lift.
    rewrite Ha, Ho, Hm. exact Hx. }
  pose proof (update_in_google_keeps userId eventData existing
                (set_tx_events (Some (calendar_events w)) w)) as Hk.
  rewrite Hup in Hk. simpl in Hk. injection Hk as _ Hev _ _.
  rewrite updateEvent_unfold, Hfind, Hup.
  apply find_some in Hfind as [Hin Hrow].
  rewrite (patch_rows_fails _ _ _ _ _ _ Hin Hrow Hp).
  eexists. split; [reflexivity|]. split; [exact Hev|].
  destruct (retry_loop_bounds
              (fun k => events_update k calendar googleEventId googleEvent)
              DEFAULT_RETRY_CONFIG (S (maxRetries DEFAULT_RETRY_CONFIG)) 0
              (plain_error "Unknown error") w1) as [_ [Hlt _]].
  fold (executeWithRetry
          (fun k => events_update k calendar googleEventId googleEvent)
          DEFAULT_RETRY_CONFIG) in Hlt.
  rewrite Hx in Hlt. apply Hlt. simpl. lia.
Qed.

(** X22. When [deleteEvent] returns, the event named was an event of
    the user and the table is the one from before without it; when it
    throws, the table is as it was.  Either way no transaction is left
    open, and no row of another event or another user is touched. *)
Theorem deleteEvent_effect userId eventId w :
  let r := deleteEvent key env events_delete userId eventId w in
  tx_events (snd r) = None
  /\ match fst r with
     | Ok _ =>
         calendar_events (snd r)
         = List.filter (fun e => negb (row_is eventId userId e)) (calendar_events w)
         /\ exists existing,
              List.find (row_is eventId userId) (calendar_events w) = Some existing
     | Throw _ => calendar_events (snd r) = calendar_events w
     end.
Proof.
  intros r. subst r. rewrite deleteEvent_unfold.
  destruct (List.find (row_is eventId userId) (calendar_events w))
    as [existing|] eqn:Hfind; [|split; reflexivity].
  pose proof (delete_in_google_keeps userId existing
                (set_tx_events (Some (calendar_events w)) w)) as Hk.
  destruct (delete_in_google _ _ _ _ _ _) as [[[]|e] w1];
    simpl in Hk; injection Hk as _ Hev _ _; simpl.
  - split; [reflexivity|]. split; [reflexivity|]. exists existing. reflexivity.
  - split; [reflexivity | exact Hev].
Qed.

(** X23. When Google answers the delete of the upstream event with an
    error of code 404 or 410, thrown on by the retry executor,
    [deleteEvent] takes the event for deleted there: it deletes the local
    row and returns. *)
Theorem deleteEvent_upstream_gone
    userId eventId w existing googleEventId calendar w1 error w2 :
  List.find (row_is eventId userId) (calendar_events w) = Some existing ->
  truthy (CalendarEvents.google_event_id existing) = Some googleEventId ->
  getAuthenticatedCalendar key env userId
    (set_tx_events (Some (calendar_events w)) w) = (Ok calendar, w1) ->
  executeWithRetry (fun k => events_delete k calendar googleEventId)
    DEFAULT_RETRY_CONFIG w1 = (Throw error, w2) ->
  code_is_num error 404 || code_is_num error 410 = true ->
  deleteEvent key env events_delete userId eventId w
  = (Ok tt,
     set_tx_events None
       (set_calendar_events
          (fun _ => List.filter (fun r => negb (row_is eventId userId r))
                      (calendar_events w)) w2)).
Proof.
  intros Hfind Hg Ha Hx Hcode.
  rewrite deleteEvent_unfold, Hfind.
  unfold delete_in_google. rewrite Hg. unfold bind, try_catch.
  rewrite Ha, Hx.
  replace (negb (code_is_num error 404) && negb (code_is_num error 410))
    with false
    by (destruct (code_is_num error 404), (code_is_num error 410);
        simpl in *; congruence).
  reflexivity.
Qed.

End EventChangeProperties.

(** The account of [alice_id] with two events, one of them not known to
    Google, and the event of another user. *)
Definition workshop : CalendarEvents.Row :=
  CalendarEvents.mkRow 0 alice_id (Some "evt-a") "Workshop" None
    1735898400000 1735902000000 None [] false "UTC" confirmed google
    1735800000000 1735800000000 1735800000000.

Definition errand : CalendarEvents.Row :=
  CalendarEvents.mkRow 1 alice_id None "Errand" None
    1735984800000 1735988400000 None [] false "UTC" confirmed manual
    1735800000000 1735800000000 1735800000000.

Definition calendar_world : World :=
  mkWorld (users signed_in_world) ∅ [workshop; errand; one_event] None 3 0 0
    empty_metrics [].

(** A patch that moves the end of an event before the start of
    [workshop]. *)
Definition end_before_start : CalendarEventInput :=
  mkCalendarEventInput None None None (Some (Some 1735894800000))
    None (Some []) None None None.

Definition upstream_gone : JsError :=
  mkError PlainError (CodeNum 404) "Not Found" None None.

Lemma change_of_missing_event_witness :
  updateEvent "k" willing_env (fun _ _ _ _ => Ok tt) (fun l => Ok l)
    alice_id 2 end_before_start calendar_world
    = (Throw (not_found "Event not found"), set_tx_events None calendar_world)
  /\ deleteEvent "k" willing_env (fun _ _ _ => Ok tt) alice_id 2 calendar_world
     = (Throw (not_found "Event not found"), set_tx_events None calendar_world).
Proof.
  apply (change_of_missing_event (H := xor_keyed_cipher) "k" willing_env
           (fun _ _ _ _ => Ok tt) (fun _ _ _ => Ok tt) (fun l => Ok l)
           alice_id 2 end_before_start calendar_world).
  reflexivity.
Defined.

Lemma updateEvent_upstream_first_witness :
  exists error,
  updateEvent "k" willing_env (fun _ _ _ _ => Ok tt) (fun l => Ok l)
    alice_id 0 end_before_start calendar_world
    = (Throw error,
       set_tx_events None
         (mkWorld (users signed_in_world) ∅ [workshop; errand; one_event]
            (Some [workshop; errand; one_event]) 3 1 0 (mkMetrics 1 0 0 0 0) []))
  /\ calendar_events
       (mkWorld (users signed_in_world) ∅ [workshop; errand; one_event]
          (Some [workshop; errand; one_event]) 3 1 0 (mkMetrics 1 0 0 0 0) [])
     = calendar_events calendar_world
  /\ (api_calls (set_tx_events (Some [workshop; errand; one_event]) calendar_world)
      < api_calls
          (mkWorld (users signed_in_world) ∅ [workshop; errand; one_event]
             (Some [workshop; errand; one_event]) 3 1 0 (mkMetrics 1 0 0 0 0) []))%nat.
Proof.
  apply (updateEvent_upstream_first (H := xor_keyed_cipher) "k" willing_env
           (fun _ _ _ _ => Ok tt) (fun l => Ok l)
           alice_id 0 end_before_start calendar_world workshop "evt-a"
           "ya29.a0AfH6"
           (set_tx_events (Some [workshop; errand; one_event]) calendar_world)
           (mkCalendarEventInput (Some "Workshop") None
              (Some (Some 1735898400000)) (Some (Some 1735894800000)) None
              (Some []) (Some false) (Some "UTC") (Some "confirmed"))
           (Google.mkEvent (Some EmptyString) (Some "confirmed") None (Some "Workshop")
              None None
              (Some (Google.mkTime (Some 1735898400000) None (Some "UTC")))
              (Some (Google.mkTime (Some 1735894800000) None (Some "UTC")))
              (Some []))).
  - reflexivity.
  - reflexivity.
  - vm_compute. reflexivity.
  - reflexivity.
  - reflexivity.
  - vm_compute. reflexivity.
  - reflexivity.
Defined.

Lemma deleteEvent_upstream_gone_witness :
  deleteEvent "k" willing_env (fun _ _ _ => Throw upstream_gone) alice_id 0
    calendar_world
  = (Ok tt,
     set_tx_events None
       (set_calendar_events
          (fun _ => List.filter (fun r => negb (row_is 0 alice_id r))
                      (calendar_events calendar_world))
          (mkWorld (users signed_in_world) ∅ [workshop; errand; one_event]
             (Some [workshop; errand; one_event]) 3 1 0 empty_metrics []))).
Proof.
  apply (deleteEvent_upstream_gone (H := xor_keyed_cipher) "k" willing_env
           (fun _ _ _ => Throw upstream_gone) alice_id 0 calendar_world workshop
           "evt-a" "ya29.a0AfH6"
           (set_tx_events (Some [workshop; errand; one_event]) calendar_world)
           upstream_gone).
  - reflexivity.
  - reflexivity.
  - vm_compute. reflexivity.
  - vm_compute. reflexivity.
  - reflexivity.
Defined.
(** ** The sync engine: whose rows it touches, and how it counts *)

(** The rows of [table] that belong to users other than [userId]. *)
Definition of_others (userId : string) (table : list CalendarEvents.Row)
    : list CalendarEvents.Row :=
  List.filter (fun r => negb (String.eqb (CalendarEvents.user_id r) userId)) table.

Lemma of_others_app userId a b :
  of_others userId (a ++ b)%list
  = (of_others userId a ++ of_others userId b)%list.
Proof. apply List.filter_app. Qed.

Lemma of_others_delete userId googleEventId table :
  of_others userId
    (List.filter (fun r => negb (same_google_event userId googleEventId r)) table)
  = of_others userId table.
Proof.
  unfold of_others, same_google_event.
  induction table as [|r t IH]; simpl; [reflexivity|].
  destruct (String.eqb (CalendarEvents.user_id r) userId) eqn:Hu; simpl.
  - destruct (match CalendarEvents.google_event_id r with
              | Some g => String.eqb g googleEventId
              | None => false
              end); simpl; [exact IH | rewrite Hu; exact IH].
  - rewrite Hu. simpl. rewrite IH. reflexivity.
Qed.

Lemma row_of_values_user now newId v r :
  row_of_values now newId v = Some r ->
  CalendarEvents.user_id r = ins_user_id v /\ CalendarEvents.id r = newId
  /\ CalendarEvents.google_event_id r = ins_google_event_id v.
Proof.
  unfold row_of_values.
  destruct (ins_title v) as [t0|]; [|discriminate].
  destruct (ins_start_date v) as [[s0|]|]; try discriminate.
  destruct (ins_end_date v) as [[e0|]|]; try discriminate.
  destruct (status_of_name (ins_status v)) as [st0|]; [|discriminate].
  intros [= <-]. auto.
Qed.

Lemma insert_into_row table now newId v r :
  insert_into table now newId v = Ok r ->
  CalendarEvents.user_id r = ins_user_id v
  /\ CalendarEvents.google_event_id r = ins_google_event_id v
  /\ valid_date_range r = true
  /\ unique_google_event_id table r = true.
Proof.
  unfold insert_into.
  destruct (row_of_values now newId v) as [r0|] eqn:Hr; [|discriminate].
  destruct (valid_date_range r0) eqn:Hv; [|discriminate].
  destruct (unique_google_event_id table r0) eqn:Hu; [|discriminate].
  intros [= <-]. apply row_of_values_user in Hr as [Hu' [_ Hg]]. auto.
Qed.

Lemma update_row_user now v old new :
  update_row now v old = Some new ->
  CalendarEvents.user_id new = CalendarEvents.user_id old
  /\ CalendarEvents.id new = CalendarEvents.id old
  /\ CalendarEvents.google_event_id new = CalendarEvents.google_event_id old.
Proof.
  unfold update_row. destruct (row_of_values _ _ _); [|discriminate].
  cbv zeta. destruct (valid_date_range _); [|discriminate].
  intros [= <-]. auto.
Qed.

Lemma update_rows_others now v eventId userId table table' :
  update_rows now v eventId userId table = Some table' ->
  of_others userId table' = of_others userId table.
Proof.
  revert table'. induction table as [|r t IH]; intros table'; simpl.
  - intros [= <-]. reflexivity.
  - destruct (update_rows now v eventId userId t) as [t'|]; [|discriminate].
    specialize (IH t' eq_refl).
    destruct (row_is eventId userId r) eqn:Hr.
    + destruct (update_row now v r) as [r'|] eqn:Hu; [|discriminate].
      intros [= <-]. apply update_row_user in Hu as [Hu _].
      unfold row_is in Hr. apply andb_true_iff in Hr as [_ Hr].
      unfold of_others in *. simpl. rewrite Hu, Hr. simpl. exact IH.
    + intros [= <-]. unfold of_others in *. simpl. rewrite IH. reflexivity.
Qed.

(** How the counters of [r'] stand to those of [r]: none went down, and
    what was created, updated and deleted in between was processed. *)
Definition counted (r r' : CalendarSyncResult) : Prop :=
  eventsCreated r <= eventsCreated r'
  /\ eventsUpdated r <= eventsUpdated r'
  /\ eventsDeleted r <= eventsDeleted r'
  /\ (eventsCreated r' - eventsCreated r) + (eventsUpdated r' - eventsUpdated r)
     + (eventsDeleted r' - eventsDeleted r)
     <= eventsProcessed r' - eventsProcessed r.

Lemma counted_refl r : counted r r.
Proof. unfold counted. lia. Qed.

Lemma counted_trans a b c : counted a b -> counted b c -> counted a c.
Proof. unfold counted. lia. Qed.

(** One event: the rows of other users stay, and when it returns the
    result is the one passed in with at most one counter bumped. *)
Lemma processGoogleEvent_step now userId googleEvent r w :
  let o := processGoogleEvent now userId googleEvent r w in
  of_others userId (calendar_events (snd o)) = of_others userId (calendar_events w)
  /\ match fst o with
     | Ok r' =>
         r' = r \/ r' = count_created r \/ r' = count_updated r
         \/ r' = count_deleted r
     | Throw _ => True
     end.
Proof.
  unfold processGoogleEvent, handleDeletedEvent, createEventFromGoogle,
    updateEventFromGoogle, db_insert.
  unfold bind, ret, throw, gets, modify, lift.
  destruct (truthy (Google.id googleEvent)) as [googleId|]; [|simpl; auto].
  destruct (match Google.status googleEvent with Some _ => _ | None => _ end).
  { simpl. split; [apply of_others_delete | auto]. }
  destruct (List.find (same_google_event userId googleId) (calendar_events w))
    as [row|].
  - destruct (date_gtb _ _); [|simpl; auto].
    destruct (mapGoogleEventToInput googleEvent) as [eventData|e]; [|simpl; auto].
    destruct (update_rows _ _ _ _ _) as [table|] eqn:Hu; simpl; [|auto].
    split; [eapply update_rows_others; eauto | auto].
  - destruct (mapGoogleEventToInput googleEvent) as [eventData|e]; [|simpl; auto].
    destruct (insert_into _ _ _ _) as [row|e] eqn:Hi; simpl; [|auto].
    split; [|auto]. apply insert_into_row in Hi as [Hu _].
    rewrite of_others_app. unfold of_others at 2. simpl.
    rewrite Hu. simpl. rewrite String.eqb_refl. simpl. apply app_nil_r.
Qed.

(** The loop over the items of a page: every item is either counted as
    processed or recorded as an error, and neither [success] nor the sync
    token is touched. *)
Lemma process_items_progress now userId items r w :
  let p := process_items now userId items r w in
  of_others userId (calendar_events (snd p)) = of_others userId (calendar_events w)
  /\ success (fst p) = success r
  /\ res_nextSyncToken (fst p) = res_nextSyncToken r
  /\ (eventsProcessed (fst p) - eventsProcessed r)
     + (Z.of_nat (length (errors (fst p))) - Z.of_nat (length (errors r)))
     = Z.of_nat (length items)
  /\ counted r (fst p).
Proof.
  revert r w. induction items as [|googleEvent rest IH]; intros r w; simpl.
  - split; [reflexivity|]. split; [reflexivity|]. split; [reflexivity|].
    split; [lia | apply counted_refl].
  - destruct (processGoogleEvent_step now userId googleEvent r w) as [Ho Hr].
    destruct (processGoogleEvent now userId googleEvent r w) as [[r1|e] w1];
      simpl in Ho, Hr.
    + destruct (IH (count_processed r1) w1) as [Ho' [Hs [Ht [Hn Hc]]]].
      split; [congruence|].
      assert (Hr1 : success r1 = success r
                    /\ res_nextSyncToken r1 = res_nextSyncToken r
                    /\ errors r1 = errors r
                    /\ eventsProcessed r1 = eventsProcessed r
                    /\ counted r (count_processed r1)).
      { destruct Hr as [-> | [-> | [-> | ->]]]; unfold counted; simpl;
          (split; [reflexivity|]); (split; [reflexivity|]);
          (split; [reflexivity|]); (split; [reflexivity|]); lia. }
      destruct Hr1 as [Hs1 [Ht1 [He1 [Hp1 Hc1]]]].
      split; [rewrite Hs; simpl; exact Hs1|].
      split; [rewrite Ht; simpl; exact Ht1|].
      split; [|eapply counted_trans; eauto].
      simpl in Hn. rewrite He1 in Hn. rewrite Hp1 in Hn. lia.
    + destruct (IH (push_error
                      (mkCalendarError SYNC_ERROR
                         ("Failed to process event "
                          +:+ template_string (Google.id googleEvent)
                          +:+ ": " +:+ err_message e)) r) w1)
        as [Ho' [Hs [Ht [Hn Hc]]]].
      split; [congruence|]. split; [exact Hs|]. split; [exact Ht|].
      split; [|exact Hc].
      simpl in Hn. rewrite length_app in Hn. simpl in Hn. lia.
Qed.

(** X24. The loop over the items of a page accounts for every item
    once: the number of items counted as processed and the number of
    errors recorded add up to the number of items; what was created,
    updated and deleted is among what was processed; and the loop changes
    neither [success] nor the sync token of the result, and no row of
    another user. *)
Theorem process_items_accounting now userId items r w :
  let p := process_items now userId items r w in
  (eventsProcessed (fst p) - eventsProcessed r)
  + (Z.of_nat (length (errors (fst p))) - Z.of_nat (length (errors r)))
  = Z.of_nat (length items)
  /\ counted r (fst p)
  /\ success (fst p) = success r
  /\ res_nextSyncToken (fst p) = res_nextSyncToken r
  /\ of_others userId (calendar_events (snd p)) = of_others userId (calendar_events w).
Proof.
  intros p. destruct (process_items_progress now userId items r w)
    as [Ho [Hs [Ht [Hn Hc]]]].
  fold p in Ho, Hs, Ht, Hn, Hc. auto.
Qed.

Section SyncEngine.
Context `{Vault.KeyedCipher}.
Variable key : string.
Variable env : Env.

Lemma executeWithRetry_others {T} (op : nat -> Outcome T) config userId w :
  of_others userId (calendar_events (snd (executeWithRetry op config w)))
  = of_others userId (calendar_events w).
Proof.
  pose proof (executeWithRetry_keeps op config w) as Hk.
  injection Hk as _ _ Hev _ _. rewrite Hev. reflexivity.
Qed.

Lemma sync_pages_progress fuel calendar userId request pageToken r w r' e w' :
  sync_pages env fuel calendar userId request pageToken r w = Some (r', e, w') ->
  of_others userId (calendar_events w') = of_others userId (calendar_events w)
  /\ success r' = success r
  /\ counted r r'.
Proof.
  revert pageToken r w.
  induction fuel as [|fuel IH]; intros pageToken r w; simpl; [discriminate|].
  match goal with |- context [executeWithRetry ?op ?c w] =>
    pose proof (executeWithRetry_others op c userId w) as Hx;
    destruct (executeWithRetry op c w) as [[response|error] w1] end;
    simpl in Hx.
  2: { intros [= <- _ <-]. split; [exact Hx|]. split; [reflexivity|].
       apply counted_refl. }
  assert (Hp : exists r1 w2,
    match Google.items response with
    | Some items => process_items (now env) userId items r w1
    | None => (r, w1)
    end = (r1, w2)
    /\ of_others userId (calendar_events w2) = of_others userId (calendar_events w)
    /\ success r1 = success r /\ counted r r1).
  { destruct (Google.items response) as [items|].
    - destruct (process_items_progress (now env) userId items r w1)
        as [Ho [Hs [_ [_ Hc]]]].
      destruct (process_items (now env) userId items r w1) as [r1 w2].
      simpl in *. exists r1, w2. split; [reflexivity|].
      split; [congruence | auto].
    - exists r, w1. split; [reflexivity|]. split; [exact Hx|].
      split; [reflexivity | apply counted_refl]. }
  destruct Hp as [r1 [w2 [-> [Ho [Hs Hc]]]]].
  destruct (truthy (Google.nextPageToken response)).
  - intros Hrest. apply IH in Hrest as [Ho' [Hs' Hc']].
    split; [congruence|]. split; [simpl in Hs'; congruence|].
    eapply counted_trans; [exact Hc|]. exact Hc'.
  - intros [= <- _ <-]. split; [exact Ho|]. split; [exact Hs | exact Hc].
Qed.

Lemma performFullSync_progress fuel userId calendar options w r w' :
  performFullSync env fuel userId calendar options w = Some (r, w') ->
  of_others userId (calendar_events w') = of_others userId (calendar_events w)
  /\ counted fresh_result r.
Proof.
  unfold performFullSync.
  destruct (sync_pages _ _ _ _ _ _ _ _) as [[[result [error|]] w1]|] eqn:Hs;
    [| |discriminate]; intros [= <- <-];
    apply sync_pages_progress in Hs as [Ho [_ Hc]]; auto.
Qed.

Lemma performIncrementalSync_progress fuel userId calendar syncToken options w r w' :
  performIncrementalSync env fuel userId calendar syncToken options w = Some (r, w') ->
  of_others userId (calendar_events w') = of_others userId (calendar_events w)
  /\ counted fresh_result r.
Proof.
  unfold performIncrementalSync.
  destruct (sync_pages _ _ _ _ _ _ _ _) as [[[result [error|]] w1]|] eqn:Hs;
    [| |discriminate].
  - apply sync_pages_progress in Hs as [Ho [_ Hc]].
    destruct (sync_token_invalid error).
    + intros Hf. apply performFullSync_progress in Hf as [Ho' Hc'].
      split; [congruence | exact Hc'].
    + intros [= <- <-]. auto.
  - intros [= <- <-]. apply sync_pages_progress in Hs as [Ho [_ Hc]]. auto.
Qed.

(** What a sync of [userId] leaves alone, and how its result counts. *)
Lemma syncWithGoogle_progress fuel userId options w r w' :
  syncWithGoogle key env fuel userId options w = Some (r, w') ->
  of_others userId (calendar_events w') = of_others userId (calendar_events w)
  /\ users w' = users w
  /\ (forall u, u <> userId -> sync_state w' !! u = sync_state w !! u)
  /\ counted fresh_result r.
Proof.
  unfold syncWithGoogle.
  pose proof (getAuthenticatedCalendar_tables key env userId w) as Hk.
  destruct (getAuthenticatedCalendar key env userId w) as [[calendar|e] w1];
    simpl in Hk; injection Hk as Hu1 Hss Hev _ _.
  - match goal with
    | |- match ?synced with Some _ => _ | None => _ end = _ -> _ =>
        destruct synced as [[result w2]|] eqn:Hsynced; [|discriminate]
    end.
    assert (Hp : of_others userId (calendar_events w2)
                 = of_others userId (calendar_events w1)
                 /\ counted fresh_result result /\ accounts w2 = accounts w1).
    { destruct (bool_or_false (fullSync options)).
      { split; [eapply performFullSync_progress; eauto|].
        split; [eapply performFullSync_progress; eauto|].
        eapply performFullSync_keeps; eauto. }
      destruct (truthy _).
      2: { split; [eapply performFullSync_progress; eauto|].
           split; [eapply performFullSync_progress; eauto|].
           eapply performFullSync_keeps; eauto. }
      destruct (SyncState.full_sync_completed _).
      - split; [eapply performIncrementalSync_progress; eauto|].
        split; [eapply performIncrementalSync_progress; eauto|].
        eapply performIncrementalSync_keeps; eauto.
      - split; [eapply performFullSync_progress; eauto|].
        split; [eapply performFullSync_progress; eauto|].
        eapply performFullSync_keeps; eauto. }
    destruct Hp as [Ho [Hc Ha]]. injection Ha as Hu2 Hs2.
    intros [= <- <-]. unfold updateSyncState, modify, set_sync_state. simpl.
    split; [congruence|]. split; [congruence|]. split; [|exact Hc].
    intros u Hne. rewrite lookup_insert_ne by congruence. congruence.
  - intros [= <- <-]. unfold updateSyncState, modify, set_sync_state. simpl.
    split; [congruence|]. split; [congruence|].
    split; [|unfold counted; simpl; lia].
    intros u Hne. rewrite lookup_insert_ne by congruence. congruence.
Qed.

(** X25. A sync of one user changes no event of another user, no
    account, and no cursor but that user's; and in the result it returns
    no counter is negative and what was created, updated and deleted is
    among what was processed. *)
Theorem syncWithGoogle_isolation fuel userId options w r w' :
  syncWithGoogle key env fuel userId options w = Some (r, w') ->
  of_others userId (calendar_events w') = of_others userId (calendar_events w)
  /\ users w' = users w
  /\ (forall u, u <> userId -> sync_state w' !! u = sync_state w !! u)
  /\ 0 <= eventsCreated r /\ 0 <= eventsUpdated r /\ 0 <= eventsDeleted r
  /\ eventsCreated r + eventsUpdated r + eventsDeleted r <= eventsProcessed r.
Proof.
  intros Hs. apply syncWithGoogle_progress in Hs as [Ho [Hu [Hc Hn]]].
  unfold counted in Hn. simpl in Hn.
  split; [exact Ho|]. split; [exact Hu|]. split; [exact Hc|]. lia.
Qed.

End SyncEngine.
(** ** The sync engine: events that can be stored, and what success means *)

(** The texts that an upstream event binds to columns of limited length:
    the title is a VARCHAR(500) and the time zone a VARCHAR(100). *)
Definition fits_text_columns (g : Google.Event) : bool :=
  fits_varchar 500 (string_or (Google.summary g) "Untitled Event")
  && match Google.start g with
     | Some start => fits_varchar 100 (string_or (Google.timeZone start) "UTC")
     | None => true
     end.

(** An upstream event whose dates and status fit the columns of
    calendar_events: start and end are there, each with a time or a date,
    the end is not before the start, and the status, if there is one, is
    of the enumeration. *)
Definition storable (g : Google.Event) : bool :=
  match Google.start g, Google.end_ g with
  | Some start, Some end_ =>
      match first_time (Google.dateTime start) (Google.date start),
            first_time (Google.dateTime end_) (Google.date end_) with
      | Some s, Some e =>
          (s <=? e)
          && is_some (status_of_name (string_or (Google.status g) "confirmed"))
      | _, _ => false
      end
  | _, _ => false
  end.

(** [status === 'cancelled']. *)
Definition is_cancelled (g : Google.Event) : bool :=
  match Google.status g with
  | Some s => String.eqb s "cancelled"
  | None => false
  end.

Lemma find_none_existsb {A} (f : A -> bool) l :
  List.find f l = None -> existsb f l = false.
Proof.
  induction l as [|x t IH]; simpl; [reflexivity|].
  destruct (f x); [discriminate | exact IH].
Qed.

Lemma find_some_existsb {A} (f : A -> bool) l x :
  List.find f l = Some x -> existsb f l = true.
Proof.
  induction l as [|y t IH]; simpl; [discriminate|].
  destruct (f y); [reflexivity | exact IH].
Qed.

Lemma existsb_delete userId googleId table :
  existsb (same_google_event userId googleId)
    (List.filter (fun r => negb (same_google_event userId googleId r)) table)
  = false.
Proof.
  induction table as [|r t IH]; simpl; [reflexivity|].
  destruct (same_google_event userId googleId r) eqn:Hr; simpl; [exact IH|].
  rewrite Hr. exact IH.
Qed.

Lemma update_rows_existsb now v eventId userId u g table table' :
  update_rows now v eventId userId table = Some table' ->
  existsb (same_google_event u g) table' = existsb (same_google_event u g) table.
Proof.
  revert table'. induction table as [|r t IH]; intros table'; simpl.
  - intros [= <-]. reflexivity.
  - destruct (update_rows now v eventId userId t) as [t'|]; [|discriminate].
    specialize (IH t' eq_refl).
    destruct (row_is eventId userId r).
    + destruct (update_row now v r) as [r'|] eqn:Hu; [|discriminate].
      intros [= <-]. apply update_row_user in Hu as [Hu [_ Hg]].
      simpl. unfold same_google_event at 1 3. rewrite Hu, Hg, IH. reflexivity.
    + intros [= <-]. simpl. rewrite IH. reflexivity.
Qed.

Lemma update_rows_total now v eventId userId table :
  (forall old, update_row now v old <> None) ->
  update_rows now v eventId userId table <> None.
Proof.
  intros Hall. induction table as [|r t IH]; simpl; [discriminate|].
  destruct (update_rows now v eventId userId t); [|contradiction].
  destruct (row_is eventId userId r); [|discriminate].
  specialize (Hall r). destruct (update_row now v r); [discriminate | contradiction].
Qed.

(** The values that a storable event binds make a row, whatever its id. *)
Lemma storable_values now userId g newId :
  storable g = true ->
  exists eventData r,
    mapGoogleEventToInput g = Ok eventData
    /\ row_of_values now newId (values_of_input userId (Google.id g) eventData)
       = Some r
    /\ valid_date_range r = true
    /\ CalendarEvents.user_id r = userId
    /\ CalendarEvents.google_event_id r = Google.id g.
Proof.
  unfold storable, mapGoogleEventToInput.
  destruct (Google.start g) as [start|]; [|discriminate].
  destruct (Google.end_ g) as [end_|]; [|discriminate].
  destruct (first_time (Google.dateTime start) (Google.date start)) as [s|] eqn:Hs;
    [|discriminate].
  destruct (first_time (Google.dateTime end_) (Google.date end_)) as [e|] eqn:He;
    [|discriminate].
  rewrite andb_true_iff. intros [Hle Hst].
  destruct (status_of_name (string_or (Google.status g) "confirmed")) as [st|] eqn:Hn;
    [|discriminate].
  eexists _, _. split; [reflexivity|].
  unfold row_of_values, values_of_input.
  cbn [title startDate endDate status description location attendees isAllDay
       timezone ins_title ins_start_date ins_end_date ins_status ins_user_id
       ins_google_event_id ins_description ins_location ins_attendees
       ins_is_all_day ins_timezone template_string].
  rewrite Hn. split; [reflexivity|].
  unfold valid_date_range. cbn [CalendarEvents.start_date CalendarEvents.end_date
    CalendarEvents.user_id CalendarEvents.google_event_id].
  auto.
Qed.

Lemma storable_update_row now userId g old :
  storable g = true ->
  forall eventData, mapGoogleEventToInput g = Ok eventData ->
  update_row now (values_of_input userId None eventData) old <> None.
Proof.
  intros Hst eventData Hm.
  destruct (storable_values now userId g (CalendarEvents.id old) Hst)
    as [eventData' [r [Hm' [Hr [Hv _]]]]].
  rewrite Hm in Hm'. injection Hm' as <-.
  unfold update_row.
  assert (Hr' : exists r0,
            row_of_values now (CalendarEvents.id old)
              (values_of_input userId None eventData) = Some r0
            /\ CalendarEvents.start_date r0 = CalendarEvents.start_date r
            /\ CalendarEvents.end_date r0 = CalendarEvents.end_date r).
  { revert Hr. unfold row_of_values, values_of_input.
    cbn [ins_title ins_start_date ins_end_date ins_status].
    destruct (title eventData) as [t0|]; [|discriminate].
    destruct (startDate eventData) as [[s0|]|]; try discriminate.
    destruct (endDate eventData) as [[e0|]|]; try discriminate.
    destruct (status_of_name _) as [st0|]; [|discriminate].
    intros [= <-]. eexists. split; [reflexivity|]. split; reflexivity. }
  destruct Hr' as [r0 [-> [Hs He]]]. cbv zeta.
  unfold valid_date_range in *.
  cbn [CalendarEvents.start_date CalendarEvents.end_date].
  rewrite Hs, He, Hv. discriminate.
Qed.

(** X26. An upstream event that has an id and whose values fit the
    columns is processed for a user of the users table without an error,
    whatever the events table holds; and afterwards the user has a row for
    it exactly when it is not cancelled.  (The lengths of the texts and
    the reference to the users table are what the table declares; the
    store of this development accepts every text.) *)
Theorem processGoogleEvent_storable now userId g r w googleId :
  truthy (Google.id g) = Some googleId ->
  storable g = true ->
  fits_varchar 255 googleId = true ->
  fits_text_columns g = true ->
  users w !! userId <> None ->
  exists r' w',
    processGoogleEvent now userId g r w = (Ok r', w')
    /\ existsb (same_google_event userId googleId) (calendar_events w')
       = negb (is_cancelled g).
Proof.
  intros Hid Hst _ _ _.
  assert (Hg : Google.id g = Some googleId)
    by (apply truthy_Some in Hid as [Hg _]; exact Hg).
  unfold processGoogleEvent, handleDeletedEvent, createEventFromGoogle,
    updateEventFromGoogle, db_insert, is_cancelled.
  unfold bind, ret, throw, gets, modify, lift. rewrite Hid.
  destruct (match Google.status g with Some s => _ | None => _ end).
  { eexists _, _. split; [reflexivity|]. simpl. apply existsb_delete. }
  destruct (List.find (same_google_event userId googleId) (calendar_events w))
    as [row|] eqn:Hfind.
  - apply find_some_existsb in Hfind.
    destruct (date_gtb _ _).
    + destruct (storable_values now userId g 0 Hst) as [eventData [_ [Hm _]]].
      rewrite Hm.
      destruct (update_rows now (values_of_input userId None eventData)
                  (CalendarEvents.id row) userId (calendar_events w))
        as [table|] eqn:Hu.
      * eexists _, _. split; [reflexivity|]. simpl.
        rewrite (update_rows_existsb _ _ _ _ _ _ _ _ Hu). exact Hfind.
      * exfalso. revert Hu. apply update_rows_total.
        intros old. eapply storable_update_row; eauto.
    + eexists _, _. split; [reflexivity|]. exact Hfind.
  - apply find_none_existsb in Hfind.
    destruct (storable_values now userId g (next_event_id w) Hst)
      as [eventData [row [Hm [Hr [Hv [Hu Hgid]]]]]].
    rewrite Hm. unfold insert_into. rewrite Hr, Hv.
    unfold unique_google_event_id. rewrite Hgid, Hg, Hu, Hfind.
    eexists _, _. split; [reflexivity|]. simpl.
    rewrite existsb_app. simpl. unfold same_google_event at 2.
    rewrite Hu, Hgid, Hg, !String.eqb_refl. simpl. apply orb_true_r.
Qed.

Lemma processGoogleEvent_storable_witness :
  exists r' w',
    processGoogleEvent 1735812000000 alice_id review fresh_result calendar_world
    = (Ok r', w')
    /\ existsb (same_google_event alice_id "evt-a") (calendar_events w')
       = negb (is_cancelled review).
Proof.
  apply (processGoogleEvent_storable 1735812000000 alice_id review fresh_result
           calendar_world "evt-a").
  - reflexivity.
  - reflexivity.
  - reflexivity.
  - reflexivity.
  - vm_compute. discriminate.
Defined.

(** ** There and back: an input as Google returns it *)

Lemma string_or_string_or o d :
  d <> EmptyString -> string_or (Some (string_or o d)) d = string_or o d.
Proof.
  intros Hd. unfold string_or at 1. simpl.
  destruct (string_or o d) eqn:Hs; [|reflexivity].
  unfold string_or in Hs. destruct (truthy o) as [s|] eqn:Ho.
  - apply truthy_Some in Ho as [_ Hne]. congruence.
  - congruence.
Qed.

Lemma map_attendee_idempotent a : map_attendee (map_attendee a) = map_attendee a.
Proof. reflexivity. Qed.

(** X27. What an input with instants for start and end becomes on
    its way to Google and back: a timed event returns with its instants,
    its description and location, and with the defaults filled in (the
    title 'Untitled Event' for an empty one, the time zone 'UTC', the
    status 'confirmed'); an all-day event returns with start and end cut
    to midnight UTC and with the time zone 'UTC', whatever zone it had. *)
Theorem input_there_and_back i s e :
  startDate i = Some (Some s) -> endDate i = Some (Some e) ->
  exists g,
    mapInputToGoogleEvent i = Ok g
    /\ mapGoogleEventToInput g
       = Ok (mkCalendarEventInput
               (Some (string_or (title i) "Untitled Event"))
               (description i)
               (Some (Some (if bool_or_false (isAllDay i) then utc_day s else s)))
               (Some (Some (if bool_or_false (isAllDay i) then utc_day e else e)))
               (location i)
               (Some (match attendees i with
                      | Some l => map map_attendee l
                      | None => []
                      end))
               (Some (bool_or_false (isAllDay i)))
               (Some (if bool_or_false (isAllDay i) then "UTC"
                      else string_or (timezone i) "UTC"))
               (Some (string_or (status i) "confirmed"))).
Proof.
  intros Hs He. unfold mapInputToGoogleEvent. rewrite Hs, He.
  cbn [toISOString]. eexists. split; [reflexivity|].
  unfold mapGoogleEventToInput.
  cbn [Google.start Google.end_ Google.summary Google.description Google.location
       Google.attendees Google.status].
  rewrite string_or_string_or by discriminate.
  assert (Ha : match option_map (map map_attendee) (attendees i) with
               | Some l => map map_attendee l
               | None => []
               end
               = match attendees i with
                 | Some l => map map_attendee l
                 | None => []
                 end).
  { destruct (attendees i) as [l|]; simpl; [|reflexivity].
    rewrite map_map. apply map_ext. intros a. apply map_attendee_idempotent. }
  rewrite Ha.
  destruct (bool_or_false (isAllDay i)); cbn; [reflexivity|].
  rewrite string_or_string_or by discriminate. reflexivity.
Qed.

Lemma input_there_and_back_witness :
  exists g,
    mapInputToGoogleEvent planning = Ok g
    /\ mapGoogleEventToInput g
       = Ok (mkCalendarEventInput (Some "Planning") None
               (Some (Some 1735898400000)) (Some (Some 1735902000000)) None
               (Some [mkAttendee (Some "bob@example.com") None (Some false)])
               (Some false) (Some "UTC") (Some "confirmed")).
Proof.
  apply (input_there_and_back planning 1735898400000 1735902000000).
  - reflexivity.
  - reflexivity.
Defined.

(** ** Events in a range of dates *)

(** X28. For a range that ends after it starts and a table that
    satisfies its date check, [get_events_in_range] returns the columns of
    the events of the user that are not cancelled and overlap the range,
    an event that has no duration being returned when it lies in the
    range, its two ends included; the events come in ascending order of
    start. *)
Theorem get_events_in_range_spec p_user_id p_start_date p_end_date table :
  p_start_date < p_end_date ->
  Forall (fun e => valid_date_range e = true) table ->
  exists rows,
    get_events_in_range p_user_id p_start_date p_end_date table
    = map range_columns rows
    /\ ascending rows
    /\ forall e,
         In e rows
         <-> In e table
             /\ CalendarEvents.user_id e = p_user_id
             /\ CalendarEvents.status e <> cancelled
             /\ (CalendarEvents.start_date e < p_end_date
                 /\ p_start_date < CalendarEvents.end_date e
                 \/ CalendarEvents.start_date e = CalendarEvents.end_date e
                    /\ p_start_date <= CalendarEvents.start_date e <= p_end_date).
Proof.
  intros Hrange Hvalid. eexists. split; [reflexivity|].
  split; [apply order_by_start_date_ascending|].
  intros e. rewrite order_by_start_date_In, filter_In.
  assert (Hiff : In e table ->
            (in_range p_user_id p_start_date p_end_date e = true
             <-> CalendarEvents.user_id e = p_user_id
                 /\ CalendarEvents.status e <> cancelled
                 /\ (CalendarEvents.start_date e < p_end_date
                     /\ p_start_date < CalendarEvents.end_date e
                     \/ CalendarEvents.start_date e = CalendarEvents.end_date e
                        /\ p_start_date <= CalendarEvents.start_date e <= p_end_date))).
  { intros Hin. pose proof (proj1 (List.Forall_forall _ _) Hvalid e Hin) as Hv.
    unfold valid_date_range in Hv. apply Z.leb_le in Hv.
    unfold in_range.
    rewrite !andb_true_iff, !orb_true_iff, !andb_true_iff, negb_true_iff.
    rewrite String.eqb_eq, !Z.leb_le, !Z.ltb_lt.
    assert (Hst : status_eqb (CalendarEvents.status e) cancelled = false
                  <-> CalendarEvents.status e <> cancelled)
      by (destruct (CalendarEvents.status e); simpl; split; congruence).
    rewrite Hst. intuition lia. }
  split.
  - intros [Hin Hm]. split; [exact Hin|]. apply Hiff; assumption.
  - intros [Hin Hm]. split; [exact Hin|]. apply Hiff; assumption.
Qed.

Lemma get_events_in_range_spec_witness :
  exists rows,
    get_events_in_range alice_id 1735900000000 1735990000000
      (calendar_events calendar_world)
    = map range_columns rows
    /\ ascending rows
    /\ forall e,
         In e rows
         <-> In e (calendar_events calendar_world)
             /\ CalendarEvents.user_id e = alice_id
             /\ CalendarEvents.status e <> cancelled
             /\ (CalendarEvents.start_date e < 1735990000000
                 /\ 1735900000000 < CalendarEvents.end_date e
                 \/ CalendarEvents.start_date e = CalendarEvents.end_date e
                    /\ 1735900000000 <= CalendarEvents.start_date e <= 1735990000000).
Proof.
  apply (get_events_in_range_spec alice_id 1735900000000 1735990000000
           (calendar_events calendar_world)).
  - lia.
  - repeat constructor.
Defined.
(** ** Runs of the sync engine *)

(** The calendar of [alice_id] beside an event of another user. *)
Definition shared_world : World :=
  mkWorld (users signed_in_world) {[ alice_id := cursor_row false ]}
    [one_event] None 1 0 0 empty_metrics [].

Lemma syncWithGoogle_isolation_witness :
  exists w',
    syncWithGoogle "k" steady_env 3 alice_id no_options shared_world
    = Some (mkCalendarSyncResult true 2 2 0 0 (Some "nst-2") [], w')
    /\ of_others alice_id (calendar_events w') = [one_event]
    /\ of_others alice_id (calendar_events w')
       = of_others alice_id (calendar_events shared_world)
    /\ users w' = users shared_world
    /\ (forall u, u <> alice_id -> sync_state w' !! u = sync_state shared_world !! u).
Proof.
  assert (Hrun : exists w',
            syncWithGoogle "k" steady_env 3 alice_id no_options shared_world
            = Some (mkCalendarSyncResult true 2 2 0 0 (Some "nst-2") [], w')
            /\ of_others alice_id (calendar_events w') = [one_event])
    by (eexists; split; vm_compute; reflexivity).
  destruct Hrun as [w' [Hrun Hothers]]. exists w'.
  split; [exact Hrun|]. split; [exact Hothers|].
  destruct (syncWithGoogle_isolation "k" steady_env 3 alice_id no_options
              shared_world _ w' Hrun) as [Ho [Hu [Hc _]]].
  split; [exact Ho|]. split; [exact Hu | exact Hc].
Defined.

Lemma executeWithRetry_answered {T} (op : nat -> Outcome T) config w response :
  op (api_calls w) = Ok response ->
  executeWithRetry op config w
  = (Ok response, set_metrics count_api_call (set_api_calls (S (api_calls w)) w)).
Proof.
  intros Hop. unfold executeWithRetry. cbn [retry_loop].
  unfold bind, attempt_operation. rewrite Hop. reflexivity.
Qed.

Section SyncRuns.
Context `{Vault.KeyedCipher}.
Variable key : string.
Variable env : Env.

(** When Google answers every list request of a client, the loop over the
    pages ends without an error. *)
Lemma sync_pages_answered fuel calendar userId request pageToken r w r' e w' :
  (forall k q, exists response, events_list env k calendar q = Ok response) ->
  sync_pages env fuel calendar userId request pageToken r w = Some (r', e, w') ->
  e = None.
Proof.
  intros Hall. revert pageToken r w.
  induction fuel as [|fuel IH]; intros pageToken r w; simpl; [discriminate|].
  destruct (Hall (api_calls w) (request pageToken)) as [response Hresp].
  rewrite (executeWithRetry_answered
             (fun k => events_list env k calendar (request pageToken))
             DEFAULT_RETRY_CONFIG w response Hresp).
  destruct (match Google.items response with
            | Some items => _
            | None => _
            end) as [result1 w2].
  destruct (truthy (Google.nextPageToken response)).
  - apply IH.
  - intros [= _ <- _]. reflexivity.
Qed.

Lemma performFullSync_answered fuel userId calendar options w r w' :
  (forall k q, exists response, events_list env k calendar q = Ok response) ->
  performFullSync env fuel userId calendar options w = Some (r, w') ->
  success r = true.
Proof.
  intros Hall. unfold performFullSync.
  destruct (sync_pages _ _ _ _ _ _ _ _) as [[[result [error|]] w1]|] eqn:Hp;
    [| |discriminate].
  - apply sync_pages_answered in Hp; [discriminate | exact Hall].
  - intros [= <- _]. eapply sync_pages_progress in Hp as [_ [Hs _]].
    rewrite Hs. reflexivity.
Qed.

Lemma performIncrementalSync_answered fuel userId calendar syncToken options w r w' :
  (forall k q, exists response, events_list env k calendar q = Ok response) ->
  performIncrementalSync env fuel userId calendar syncToken options w = Some (r, w') ->
  success r = true.
Proof.
  intros Hall. unfold performIncrementalSync.
  destruct (sync_pages _ _ _ _ _ _ _ _) as [[[result [error|]] w1]|] eqn:Hp;
    [| |discriminate].
  - apply sync_pages_answered in Hp; [discriminate | exact Hall].
  - intros [= <- _]. eapply sync_pages_progress in Hp as [_ [Hs _]].
    rewrite Hs. reflexivity.
Qed.

(** X29. When the user can be authenticated and Google answers
    every list request, with sync tokens that fit their column, a
    VARCHAR(500), a sync that ends reports success, whatever became of the
    events it was given: an event that could not be processed is an entry
    in the errors of the result and no failure.  The cursor then holds the
    token of the result, the time of the sync, the mark of a completed
    full sync, no error and an error count of zero. *)
Theorem syncWithGoogle_success_despite_items fuel userId options w calendar w1 r w' :
  getAuthenticatedCalendar key env userId w = (Ok calendar, w1) ->
  (forall k q, exists response,
      events_list env k calendar q = Ok response
      /\ match truthy (Google.nextSyncToken response) with
         | Some token => fits_varchar 500 token = true
         | None => True
         end) ->
  syncWithGoogle key env fuel userId options w = Some (r, w') ->
  success r = true
  /\ sync_state w' !! userId
     = Some (SyncState.mkRow (res_nextSyncToken r) (Some (now env)) true
               (SyncState.sync_in_progress (getSyncState userId w)) None (Some 0)).
Proof.
  intros Ha Hfit.
  assert (Hall : forall k q, exists response,
             events_list env k calendar q = Ok response)
    by (intros k q; destruct (Hfit k q) as [response [Hr _]]; eauto).
  clear Hfit. unfold syncWithGoogle. rewrite Ha.
  pose proof (getAuthenticatedCalendar_tables key env userId w) as Hk.
  rewrite Ha in Hk. simpl in Hk. injection Hk as Hu1 Hss _ _ _.
  match goal with
  | |- match ?synced with Some _ => _ | None => _ end = _ -> _ =>
      destruct synced as [[result w2]|] eqn:Hsynced; [|discriminate]
  end.
  assert (Hs : success result = true /\ accounts w2 = accounts w1).
  { destruct (bool_or_false (fullSync options)).
    { split; [eapply performFullSync_answered; eauto|].
      eapply performFullSync_keeps; eauto. }
    destruct (truthy _).
    2: { split; [eapply performFullSync_answered; eauto|].
         eapply performFullSync_keeps; eauto. }
    destruct (SyncState.full_sync_completed _).
    - split; [eapply performIncrementalSync_answered; eauto|].
      eapply performIncrementalSync_keeps; eauto.
    - split; [eapply performFullSync_answered; eauto|].
      eapply performFullSync_keeps; eauto. }
  destruct Hs as [Hs Hacc]. injection Hacc as _ Hs2.
  intros [= <- <-]. split; [exact Hs|].
  unfold updateSyncState, modify, set_sync_state. simpl.
  rewrite lookup_insert_eq, Hs. unfold getSyncState, upsert_sync_state.
  rewrite Hs2, Hss.
  destruct (sync_state w !! userId); reflexivity.
Qed.

End SyncRuns.

(** An event that Google sent without its start. *)
Definition broken : Google.Event :=
  Google.mkEvent (Some "evt-c") (Some "confirmed") (Some 1735800000000)
    (Some "Broken") None None None
    (Some (Google.mkTime (Some 1735902000000) None None))
    None.

(** Google answers every list request with [review] and [broken]. *)
Definition sloppy_env : Env :=
  mkEnv 1735812000000 (fun _ => "0123456789abcdef")
    (fun _ _ => Throw silent)
    (fun _ _ _ => Ok (Google.mkListResponse (Some [review; broken]) None (Some "nst-2")))
    (fun _ _ _ => Throw silent).

Lemma syncWithGoogle_success_despite_items_witness :
  exists r w',
    syncWithGoogle "k" sloppy_env 3 alice_id no_options (cursor_world false)
    = Some (r, w')
    /\ eventsProcessed r = 1
    /\ length (errors r) = 1%nat
    /\ success r = true
    /\ sync_state w' !! alice_id
       = Some (SyncState.mkRow (res_nextSyncToken r) (Some (now sloppy_env)) true
                 (SyncState.sync_in_progress (getSyncState alice_id (cursor_world false)))
                 None (Some 0)).
Proof.
  assert (Hrun : exists r w',
            syncWithGoogle "k" sloppy_env 3 alice_id no_options (cursor_world false)
            = Some (r, w')
            /\ eventsProcessed r = 1 /\ length (errors r) = 1%nat)
    by (eexists _, _; split; [|split]; vm_compute; reflexivity).
  destruct Hrun as [r [w' [Hrun [Hp He]]]]. exists r, w'.
  split; [exact Hrun|]. split; [exact Hp|]. split; [exact He|].
  apply (syncWithGoogle_success_despite_items "k" sloppy_env 3 alice_id no_options
           (cursor_world false) "ya29.a0AfH6" (cursor_world false)).
  - vm_compute. reflexivity.
  - intros k q. eexists. split; reflexivity.
  - exact Hrun.
Defined.

(** ** The lock of migration 003 *)

(** X30. Once [start_sync_for_user] has started a sync for a user of the
    users table, a second call for that user is refused, until
    [complete_sync_for_user] has run for the user, with a token that fits
    its column: after it, whether it recorded success or failure, a sync
    can be started again. *)
Theorem sync_lock_cycle now userId token success message w :
  users w !! userId <> None ->
  match token with Some t => fits_varchar 500 t = true | None => True end ->
  fst (start_sync_for_user userId w) = true ->
  fst (start_sync_for_user userId (snd (start_sync_for_user userId w))) = false
  /\ fst (start_sync_for_user userId
            (complete_sync_for_user now userId token success message
               (snd (start_sync_for_user userId w)))) = true.
Proof.
  intros _ _. unfold start_sync_for_user at 1 3 5.
  destruct (sync_state w !! userId) as [row|] eqn:Hrow.
  - destruct (SyncState.sync_in_progress row) eqn:Hp; simpl; [discriminate|].
    intros _. unfold start_sync_for_user, complete_sync_for_user. simpl.
    rewrite !lookup_insert_eq. simpl. rewrite !lookup_insert_eq.
    destruct success; simpl; auto.
  - simpl. intros _. unfold start_sync_for_user, complete_sync_for_user. simpl.
    rewrite !lookup_insert_eq. simpl. rewrite !lookup_insert_eq.
    destruct success; simpl; auto.
Qed.

Lemma sync_lock_cycle_witness :
  fst (start_sync_for_user alice_id (snd (start_sync_for_user alice_id (cursor_world false))))
  = false
  /\ fst (start_sync_for_user alice_id
            (complete_sync_for_user 1735812000000 alice_id (Some "nst-2") false
               (Some "Backend Error")
               (snd (start_sync_for_user alice_id (cursor_world false))))) = true.
Proof.
  apply (sync_lock_cycle 1735812000000 alice_id (Some "nst-2") false
           (Some "Backend Error") (cursor_world false)).
  - vm_compute. discriminate.
  - reflexivity.
  - vm_compute. reflexivity.
Defined.
